(** * Traffic simulation engine: traffic lights, vehicles and the tick driver

    A shallow embedding of the simulation engine of the two-panel traffic
    simulator (src/utils/trafficLightManager.js, src/utils/carManager.js and
    the animation loop of the Canvas component), together with the properties
    the specification states about it.

    Conventions of the embedding.
    - JavaScript numbers are idealised as exact rationals ([Q]); [Infinity]
      is [None] in an [option Q] where the source uses it as a duration.
    - [Date.now()] is an explicit argument (milliseconds, [Z]).
    - [Math.random()] is an explicit argument wherever its value decides a
      result; the draws that only gate [console.log] calls are dropped.
    - Arrays of mutable objects are lists used as the store: an in-place
      mutation of element [i] is an update of position [i], and a function
      that mutates the objects of an array returns the updated list.
    - JavaScript truthiness of an id that may be [null] or a string is
      [truthy] on [option string]. *)

From Stdlib Require Import ZArith QArith Qround Qabs Qminmax Lia Lqa.
From stdpp Require Import base option list strings pretty gmap sorting.

Local Open Scope string_scope.
Local Open Scope list_scope.
Local Open Scope nat_scope.

(** ** JavaScript helpers *)

Module JS.

(** [!!x] for a value that is [null]/[undefined] or a string. *)
Definition truthy (o : option string) : bool :=
  match o with
  | Some s => negb (String.eqb s EmptyString)
  | None => false
  end.

(** [a || b] on such values. *)
Definition orElse (a b : option string) : option string :=
  if truthy a then a else b.

(** [!!x] for a value that is [undefined] or a number. *)
Definition truthyZ (o : option Z) : bool :=
  match o with
  | Some z => negb (z =? 0)%Z
  | None => false
  end.

(** Strict comparisons on numbers. *)
Definition ltb (a b : Q) : bool := negb (Qle_bool b a).
Definition leb (a b : Q) : bool := Qle_bool a b.
Definition gtb (a b : Q) : bool := ltb b a.
Definition geb (a b : Q) : bool := leb b a.

(** [a >= d] where [d] may be [Infinity]. *)
Definition geb_inf (a : Q) (d : option Q) : bool :=
  match d with
  | Some q => geb a q
  | None => false
  end.

(** [Math.trunc] and the remainder operator [%] (sign of the dividend). *)
Definition trunc (a : Q) : Z :=
  if Qle_bool 0 a then Qfloor a else Qceiling a.

Definition rem (a b : Q) : Q := (a - b * inject_Z (trunc (a / b)))%Q.

End JS.

(** ** Traffic lights (trafficLightManager.js) *)

Module TrafficLight.

Inductive LightState := red | yellow | green | waiting.

Global Instance LightState_eq_dec : EqDecision LightState.
Proof. solve_decision. Defined.

(** The fields of a light object the engine reads or writes. *)
Record Light := mkLight {
  light_id : string;
  locationId : string;
  streetId : string;
  state : LightState;
  timer : Q;
  angle : Q;
  oppositeGroupId : option string;
  crossingGroupId : option string;
  smartSwitchTarget : option string;
  lastSmartUpdate : option Z;
  lastStateChange : Z
}.

Definition set_state (s : LightState) (l : Light) : Light :=
  mkLight (light_id l) (locationId l) (streetId l) s (timer l) (angle l)
    (oppositeGroupId l) (crossingGroupId l) (smartSwitchTarget l)
    (lastSmartUpdate l) (lastStateChange l).

Definition set_timer (t : Q) (l : Light) : Light :=
  mkLight (light_id l) (locationId l) (streetId l) (state l) t (angle l)
    (oppositeGroupId l) (crossingGroupId l) (smartSwitchTarget l)
    (lastSmartUpdate l) (lastStateChange l).

Definition set_oppositeGroupId (g : option string) (l : Light) : Light :=
  mkLight (light_id l) (locationId l) (streetId l) (state l) (timer l)
    (angle l) g (crossingGroupId l) (smartSwitchTarget l)
    (lastSmartUpdate l) (lastStateChange l).

Definition set_smartSwitchTarget (g : option string) (l : Light) : Light :=
  mkLight (light_id l) (locationId l) (streetId l) (state l) (timer l)
    (angle l) (oppositeGroupId l) (crossingGroupId l) g
    (lastSmartUpdate l) (lastStateChange l).

Definition set_lastSmartUpdate (t : option Z) (l : Light) : Light :=
  mkLight (light_id l) (locationId l) (streetId l) (state l) (timer l)
    (angle l) (oppositeGroupId l) (crossingGroupId l)
    (smartSwitchTarget l) t (lastStateChange l).

Definition set_lastStateChange (t : Z) (l : Light) : Light :=
  mkLight (light_id l) (locationId l) (streetId l) (state l) (timer l)
    (angle l) (oppositeGroupId l) (crossingGroupId l)
    (smartSwitchTarget l) (lastSmartUpdate l) t.

(** [x.state = s; x.timer = 0; x.lastStateChange = Date.now()] *)
Definition switch_to (s : LightState) (now : Z) (l : Light) : Light :=
  set_lastStateChange now (set_timer 0%Q (set_state s l)).

Definition state_is (s : LightState) (l : Light) : bool :=
  bool_decide (state l = s).

Definition at_location (loc : string) (l : Light) : bool :=
  bool_decide (locationId l = loc).

(** [a.oppositeGroupId === g] *)
Definition in_group (g : option string) (l : Light) : bool :=
  bool_decide (oppositeGroupId l = g).

(** *** Smart control: ranking, scoring and the switching decision *)

(** What [collectApproachingCarsData] records for one approaching car
    (the fields the ranking and scoring read). *)
Record ApproachingCar := mkApproachingCar {
  carId : string;
  car_streetId : string;
  car_speed : Q;
  estimatedArrivalTime : Q
}.

(** The same record once [rankCarsByArrivalTime] has set its [rank]. *)
Record RankedCar := mkRankedCar {
  carData : ApproachingCar;
  rank : Z
}.

(** [Array.prototype.sort] with the comparator
    [(a, b) => a.estimatedArrivalTime - b.estimatedArrivalTime]: a stable
    sort, so the result is the one of a stable insertion sort. *)
Fixpoint insertByArrival (c : ApproachingCar) (l : list ApproachingCar)
  : list ApproachingCar :=
  match l with
  | [] => [c]
  | d :: r =>
      if JS.leb (estimatedArrivalTime c) (estimatedArrivalTime d)
      then c :: d :: r
      else d :: insertByArrival c r
  end.

Fixpoint sortByArrival (l : list ApproachingCar) : list ApproachingCar :=
  match l with
  | [] => []
  | c :: r => insertByArrival c (sortByArrival r)
  end.

(** The ranking loop: [i] is the loop index, [prev] the arrival time of
    [sortedCars[i-1]] ([None] when [i = 0]). *)
Fixpoint assignRanks (i : nat) (prev : option Q) (currentRank : Z)
    (l : list ApproachingCar) : list RankedCar :=
  match l with
  | [] => []
  | c :: r =>
      let currentRank' :=
        match prev with
        | Some p =>
            if JS.gtb (estimatedArrivalTime c) p
            then (Z.of_nat i + 1)%Z
            else currentRank
        | None => currentRank
        end in
      mkRankedCar c currentRank'
        :: assignRanks (S i) (Some (estimatedArrivalTime c)) currentRank' r
  end.

Definition rankCarsByArrivalTime (approachingCarsData : list ApproachingCar)
  : list RankedCar :=
  assignRanks 0 None 1%Z (sortByArrival approachingCarsData).

(** The points one ranked car adds to its street. *)
Definition carScore (c : RankedCar) : Z := (100 - rank c)%Z.

(** [streetScores]: an object keyed by street id. Every light's street
    starts at 0; a car adds its score to its street's entry. (A car on a
    street without an entry would store NaN under a key no later step
    reads; the embedding leaves the map unchanged there.) *)
Definition calculateStreetScores (rankedCars : list RankedCar)
    (intersectionLights : list Light) : gmap string Z :=
  let init :=
    foldl (fun m l => <[streetId l := 0%Z]> m) ∅ intersectionLights in
  foldl (fun m c => alter (fun s => (s + carScore c)%Z)
                      (car_streetId (carData c)) m)
    init rankedCars.

(** The property name under which a group id is stored in an object. *)
Definition groupKey (g : option string) : string :=
  match g with
  | Some s => s
  | None => "null"
  end.

(** Keys of an object in insertion order (first occurrence). *)
Fixpoint firstOccurrences (l : list string) : list string :=
  match l with
  | [] => []
  | k :: r => k :: filter (fun k' => k' ≠ k) (firstOccurrences r)
  end.

(** [streetScores[id] || 0] *)
Definition scoreOf (streetScores : gmap string Z) (sid : string) : Z :=
  default 0%Z (streetScores !! sid).

(** [pairScores]: one entry per opposite group, in the order the groups
    first occur among the lights, holding the sum of the scores of the
    group's streets. *)
Definition combineOppositeStreetScores (streetScores : gmap string Z)
    (intersectionLights : list Light) : list (string * Z) :=
  let keys :=
    firstOccurrences (map (fun l => groupKey (oppositeGroupId l))
                        intersectionLights) in
  map (fun k =>
         (k, foldl (fun total l => (total + scoreOf streetScores (streetId l))%Z)
               0%Z
               (filter (fun l => groupKey (oppositeGroupId l) = k)
                  intersectionLights)))
    keys.

Inductive Action := SWITCH | NONE.

Inductive Reason :=
| NO_LIGHTS
| DEADLOCK_PREVENTION_ALL_RED
| INITIALIZE_GREEN
| NO_CARS_KEEP_CURRENT
| ALREADY_OPTIMAL
| SWITCH_TO_HIGHER_SCORE.

Record SmartDecision := mkDecision {
  action : Action;
  targetGroup : option string;
  reason : Reason
}.

(** The loop that finds the first group with the strictly highest
    positive score: the accumulator is [(highestScore,
    highestScoringGroup)]. *)
Definition highestStep (acc : Z * option string) (e : string * Z)
  : Z * option string :=
  if (fst acc <? snd e)%Z then (snd e, Some (fst e)) else acc.

Definition findHighest (pairScores : list (string * Z))
  : Z * option string :=
  foldl highestStep (0%Z, None) pairScores.

(** [Math.max(...xs)]; [None] is [-Infinity] (no element). *)
Definition maxTimer (ls : list Light) : option Q :=
  match ls with
  | [] => None
  | l :: r => Some (foldl (fun m x => Qmax m (timer x)) (timer l) r)
  end.

Definition makeTrafficLightDecision (pairScores : list (string * Z))
    (intersectionLights : list Light) : SmartDecision :=
  let '(highestScore, highestScoringGroup) := findHighest pairScores in
  let currentGreenLights := filter (fun l => state l = green) intersectionLights in
  let currentGreenGroup :=
    match currentGreenLights with
    | l :: _ => oppositeGroupId l
    | [] => None
    end in
  let firstGroup :=
    match intersectionLights with
    | l :: _ => oppositeGroupId l
    | [] => None
    end in
  let allRed := forallb (state_is red) intersectionLights in
  let deadlockTarget :=
    if allRed then
      match maxTimer intersectionLights with
      | Some maxRedTime =>
          if JS.gtb maxRedTime 2
          then JS.orElse highestScoringGroup firstGroup
          else None
      | None => None
      end
    else None in
  let noCars := negb (JS.truthy highestScoringGroup) || (highestScore =? 0)%Z in
  if JS.truthy deadlockTarget then
    mkDecision SWITCH deadlockTarget DEADLOCK_PREVENTION_ALL_RED
  else if noCars && negb (JS.truthy currentGreenGroup) && JS.truthy firstGroup then
    mkDecision SWITCH firstGroup INITIALIZE_GREEN
  else if noCars then
    mkDecision NONE currentGreenGroup NO_CARS_KEEP_CURRENT
  else if bool_decide (currentGreenGroup = highestScoringGroup) then
    mkDecision NONE highestScoringGroup ALREADY_OPTIMAL
  else
    mkDecision SWITCH highestScoringGroup SWITCH_TO_HIGHER_SCORE.

(** An array [intersectionLights = allLights.filter(l => l.locationId ===
    loc)] holds references into [allLights]; a loop that mutates its
    elements is a [map] over the store that touches the lights at [loc]. *)
Definition intersectionLightsOf (loc : string) (allLights : list Light)
  : list Light :=
  filter (fun l => locationId l = loc) allLights.

(** The two loop bodies of [applySmartDecision]. *)
Definition switchOne (now : Z) (loc : string) (target : option string)
    (l : Light) : Light :=
  if at_location loc l then
    let l' := set_smartSwitchTarget target l in
    if state_is green l then switch_to yellow now l' else l'
  else l.

Definition keepGreenOne (now : Z) (loc : string) (target : option string)
    (l : Light) : Light :=
  if at_location loc l && in_group target l && state_is green l
  then set_lastStateChange now (set_timer 0%Q l)
  else l.

Definition applySmartDecision (decision : SmartDecision) (now : Z)
    (loc : string) (allLights : list Light) : list Light :=
  match action decision with
  | SWITCH => map (switchOne now loc (targetGroup decision)) allLights
  | NONE =>
      if JS.truthy (targetGroup decision)
      then map (keepGreenOne now loc (targetGroup decision)) allLights
      else allLights
  end.

(** *** The per-light state machine *)

Definition isNorthSouth (normalizedAngle : Q) : bool :=
  (JS.geb normalizedAngle 45 && JS.leb normalizedAngle 135)
  || (JS.geb normalizedAngle 225 && JS.leb normalizedAngle 315).

(** The group a light without one receives from its angle. *)
Definition fallbackGroup (a : Q) : option string :=
  let normalizedAngle := JS.rem (a + 360) 360 in
  Some (if isNorthSouth normalizedAngle then "north-south" else "east-west").

(** [cycleDuration]; [None] is [Infinity]. *)
Definition cycleDuration (isSmartControl : bool) (s : LightState)
  : option Q :=
  if isSmartControl then
    match s with
    | green => None
    | yellow => Some 0.5%Q
    | red => None
    | waiting => Some 0.5%Q
    end
  else
    match s with
    | green => Some 10%Q
    | yellow => Some 2%Q
    | red => Some 12%Q
    | waiting => Some 0.5%Q
    end.

(** The loops "synchronize all lights in the same direction": every other
    light of [light]'s intersection and group that is in state [from]
    moves to [to]. [syncOne] is the loop body. *)
Definition syncOne (from to : LightState) (now : Z) (light : Light)
    (otherLight : Light) : Light :=
  if at_location (locationId light) otherLight
     && in_group (oppositeGroupId light) otherLight
     && negb (String.eqb (light_id otherLight) (light_id light))
     && state_is from otherLight
  then switch_to to now otherLight
  else otherLight.

Definition syncGroup (from to : LightState) (now : Z) (light : Light)
    (allLights : list Light) : list Light :=
  map (syncOne from to now light) allLights.

(** Traditional control, on yellow -> red: every red light of the
    intersection outside [light]'s group goes to waiting. *)
Definition perpendicularOne (now : Z) (light : Light) (l : Light) : Light :=
  if at_location (locationId light) l
     && negb (in_group (oppositeGroupId light) l)
     && state_is red l
  then switch_to waiting now l
  else l.

Definition perpendicularToWaiting (now : Z) (light : Light)
    (allLights : list Light) : list Light :=
  map (perpendicularOne now light) allLights.

(** Smart control, on yellow -> red with a pending [smartSwitchTarget]:
    the red lights of the target group go to waiting, and the target is
    deleted once every light of [light]'s own group is red. *)
Definition targetOne (now : Z) (loc : string) (targetGroup : option string)
    (l : Light) : Light :=
  if at_location loc l && in_group targetGroup l && state_is red l
  then switch_to waiting now l
  else l.

Definition clearTargetOne (loc : string) (l : Light) : Light :=
  if at_location loc l then set_smartSwitchTarget None l else l.

Definition targetToWaiting (now : Z) (light : Light)
    (allLights : list Light) : list Light :=
  let loc := locationId light in
  let targetGroup := smartSwitchTarget light in
  if JS.truthy targetGroup then
    let s1 := map (targetOne now loc targetGroup) allLights in
    let currentGroupLights :=
      filter (fun l => oppositeGroupId l = oppositeGroupId light)
        (intersectionLightsOf loc s1) in
    let allCurrentGroupRed := forallb (state_is red) currentGroupLights in
    if allCurrentGroupRed then map (clearTargetOne loc) s1 else s1
  else allLights.

Section Engine.

(** The vehicle side of smart control is a parameter of the light
    engine: [collectApproachingCarsData] turns the cars, streets and
    locations into the approaching-car records of one intersection. *)
Context {Cars Streets Locations : Type}.
Variable collectApproachingCarsData :
  string -> Cars -> Streets -> Locations -> list Light
  -> list ApproachingCar.

Definition analyzeAndDecideSmartTraffic (intersectionId : string)
    (cars : Cars) (streets : Streets) (locations : Locations)
    (intersectionLights : list Light) : SmartDecision :=
  match intersectionLights with
  | [] => mkDecision NONE None NO_LIGHTS
  | _ :: _ =>
      let approachingCarsData :=
        collectApproachingCarsData intersectionId cars streets locations
          intersectionLights in
      let rankedCars := rankCarsByArrivalTime approachingCarsData in
      let streetScores :=
        calculateStreetScores rankedCars intersectionLights in
      let pairScores :=
        combineOppositeStreetScores streetScores intersectionLights in
      makeTrafficLightDecision pairScores intersectionLights
  end.

(** [intersectionLights.forEach(l => l.lastSmartUpdate = Date.now())] *)
Definition markSmartUpdate (now : Z) (loc : string) (l : Light) : Light :=
  if at_location loc l then set_lastSmartUpdate (Some now) l else l.

(** The block "runs once per second per intersection" of
    [updateTrafficLight], for the light at index [i]. *)
Definition smartControlStep (now : Z) (i : nat) (cars : Cars)
    (streets : Streets) (locations : Locations)
    (allLights : list Light) : list Light :=
  match allLights !! i with
  | None => allLights
  | Some light =>
      let loc := locationId light in
      if negb (JS.truthyZ (lastSmartUpdate light))
         || (1000 <=? now - default 0%Z (lastSmartUpdate light))%Z
      then
        let s1 := map (markSmartUpdate now loc) allLights in
        let smartDecision :=
          analyzeAndDecideSmartTraffic loc cars streets locations
            (intersectionLightsOf loc s1) in
        applySmartDecision smartDecision now loc s1
      else allLights
  end.

(** The [switch (light.state)] that changes the state of the light at
    index [i] once its timer has run out. *)
Definition advanceState (now : Z) (i : nat) (isSmartControl : bool)
    (allLights : list Light) : list Light :=
  match allLights !! i with
  | None => allLights
  | Some light =>
      match state light with
      | green =>
          let s1 := alter (set_state yellow) i allLights in
          syncGroup green yellow now light s1
      | yellow =>
          let s1 := alter (set_state red) i allLights in
          let s2 := syncGroup yellow red now light s1 in
          if isSmartControl then targetToWaiting now light s2
          else perpendicularToWaiting now light s2
      | waiting =>
          let s1 := alter (set_state green) i allLights in
          syncGroup waiting green now light s1
      | red => allLights
      end
  end.

(** [updateTrafficLight(light, ...)] for [light = allLights[i]]: the
    result is the store after the call (the call returns [light]
    itself, that is position [i] of the result). *)
Definition updateTrafficLight (now : Z) (i : nat) (deltaTime : Q)
    (isSmartControl : bool) (cars : Cars) (streets : Streets)
    (locations : Locations) (allLights : list Light) : list Light :=
  match allLights !! i with
  | None => allLights
  | Some light0 =>
      let loc := locationId light0 in
      let s1 :=
        alter (fun l => set_timer (timer l + deltaTime)%Q l) i allLights in
      let s2 :=
        if negb (JS.truthy (oppositeGroupId light0))
           && bool_decide (0 < length (intersectionLightsOf loc s1))
        then alter (fun l => set_oppositeGroupId (fallbackGroup (angle l)) l)
               i s1
        else s1 in
      let s3 :=
        if isSmartControl
        then smartControlStep now i cars streets locations s2
        else s2 in
      match s3 !! i with
      | None => s3
      | Some light =>
          if JS.geb_inf (timer light)
               (cycleDuration isSmartControl (state light))
          then
            let s4 :=
              alter (fun l => set_lastStateChange now (set_timer 0%Q l))
                i s3 in
            advanceState now i isSmartControl s4
          else s3
      end
  end.

(** *** Safety validation *)

(** [greenLights.slice(2).forEach(...)]: the green lights of the
    intersection after the first two go to red; [seen] counts the
    green lights of the intersection met so far. *)
Fixpoint forceExtraGreens (loc : string) (seen : nat)
    (allLights : list Light) : list Light :=
  match allLights with
  | [] => []
  | l :: r =>
      if at_location loc l && state_is green l then
        (if bool_decide (2 <= seen)
         then set_timer 0%Q (set_state red l) else l)
          :: forceExtraGreens loc (S seen) r
      else l :: forceExtraGreens loc seen r
  end.

(** [Math.min(...xs)]; [None] is [Infinity] (no element). *)
Definition minTimer (ls : list Light) : option Q :=
  match ls with
  | [] => None
  | l :: r => Some (foldl (fun m x => Qmin m (timer x)) (timer l) r)
  end.

(** [northSouthLights.forEach(...)] *)
Definition forceNorthSouthOne (loc : string) (l : Light) : Light :=
  if at_location loc l && in_group (Some "north-south") l
  then set_timer 0%Q (set_state green l)
  else l.

(** The body of the loop over the intersections. *)
Definition validateIntersection (loc : string) (allLights : list Light)
  : list Light :=
  let intersectionLights := intersectionLightsOf loc allLights in
  if bool_decide (length intersectionLights < 4) then allLights
  else
    let greenLights := filter (fun l => state l = green) intersectionLights in
    let redLights := filter (fun l => state l = red) intersectionLights in
    let s1 :=
      if bool_decide (2 < length greenLights)
      then forceExtraGreens loc 0 allLights
      else allLights in
    if bool_decide (length redLights = length intersectionLights) then
      let timeSinceAllRed := minTimer (intersectionLightsOf loc s1) in
      if match timeSinceAllRed with
         | Some t => JS.gtb t 3
         | None => true
         end
      then map (forceNorthSouthOne loc) s1
      else s1
    else s1.

(** The intersections are visited in the order of the keys of
    [byIntersection], the order in which the location ids first occur
    (location ids are not integer-like strings). Each visit reads and
    writes the lights of its own location only. *)
Definition validateIntersectionSafety (lights : list Light) : list Light :=
  foldl (fun s loc => validateIntersection loc s) lights
    (firstOccurrences (map locationId lights)).

(** [lights.map(light => updateTrafficLight(light, ..., lights))]
    updates the lights one after the other, in place; [clock i] is
    [Date.now()] during the update of light [i]. The array returned
    holds the same objects. *)
Definition updateAll (clock : nat -> Z) (deltaTime : Q)
    (isSmartControl : bool) (cars : Cars) (streets : Streets)
    (locations : Locations) (lights : list Light) : list Light :=
  foldl (fun s i =>
           updateTrafficLight (clock i) i deltaTime isSmartControl
             cars streets locations s)
    lights (seq 0 (length lights)).

Definition updateTrafficLights (clock : nat -> Z) (lights : list Light)
    (deltaTime : Q) (isSmartControl : bool) (cars : Cars)
    (streets : Streets) (locations : Locations) : list Light :=
  validateIntersectionSafety
    (updateAll clock deltaTime isSmartControl cars streets locations
       lights).

End Engine.

(** *** Runs of the engine and the notions the properties are stated with *)

(** The arguments of one call of [updateTrafficLights] other than the
    lights. *)
Record Tick {Cars Streets Locations : Type} := mkTick {
  clock : nat -> Z;
  deltaTime : Q;
  isSmartControl : bool;
  cars : Cars;
  streets : Streets;
  locations : Locations
}.
Global Arguments Tick : clear implicits.

(** Repeated [updateTrafficLights] steps, each on the result of the one
    before. *)
Definition runTicks {Cars Streets Locations : Type}
    (collectApproachingCarsData :
       string -> Cars -> Streets -> Locations -> list Light
       -> list ApproachingCar)
    (ticks : list (Tick Cars Streets Locations)) (lights : list Light)
  : list Light :=
  foldl (fun s t =>
           updateTrafficLights collectApproachingCarsData (clock t) s
             (deltaTime t) (isSmartControl t) (cars t) (streets t)
             (locations t))
    lights ticks.

(** A light that lets traffic through. *)
Definition goes (l : Light) : Prop := state l = green \/ state l = yellow.

(** No two lights of one location and of different opposite groups are
    green or yellow at the same time. *)
Definition MutualExclusion (ls : list Light) : Prop :=
  forall a b, a ∈ ls -> b ∈ ls -> locationId a = locationId b ->
              oppositeGroupId a <> oppositeGroupId b -> ~ (goes a /\ goes b).

Global Instance Qle_decision (a b : Q) : Decision (a <= b)%Q.
Proof.
  destruct (Qlt_le_dec b a) as [H | H]; [right | left; exact H].
  intros H'. exact (Qlt_not_le _ _ H H').
Defined.

Global Instance Qlt_decision (a b : Q) : Decision (a < b)%Q.
Proof.
  destruct (Qlt_le_dec a b) as [H | H]; [left; exact H | right].
  intros H'. exact (Qlt_not_le _ _ H' H).
Defined.

(** The lights [createIntersectionTrafficLights] returns for one
    intersection with three or more streets: distinct ids, one location,
    every light in a group, the lights of the group of the first light
    green and the others red, and a timer in [0, 2). *)
Definition InitialIntersection (ls : list Light) : Prop :=
  match ls with
  | [] => False
  | first :: _ =>
      3 <= length ls
      /\ NoDup (map light_id ls)
      /\ Forall (fun l =>
                   locationId l = locationId first
                   /\ JS.truthy (oppositeGroupId l) = true
                   /\ state l = (if decide (oppositeGroupId l
                                            = oppositeGroupId first)
                                 then green else red)
                   /\ (0 <= timer l)%Q /\ (timer l < 2)%Q)
           ls
  end.

(** Among any three lights of one location two share their opposite
    group: the lights of every location fall into at most two groups. *)
Definition AtMostTwoGroups (ls : list Light) : Prop :=
  Forall (fun a => Forall (fun b => Forall (fun c =>
    locationId a = locationId b -> locationId a = locationId c ->
    oppositeGroupId a = oppositeGroupId b
    \/ oppositeGroupId a = oppositeGroupId c
    \/ oppositeGroupId b = oppositeGroupId c) ls) ls) ls.

Global Instance InitialIntersection_dec ls : Decision (InitialIntersection ls).
Proof. destruct ls; simpl; apply _. Defined.

Global Instance AtMostTwoGroups_dec ls : Decision (AtMostTwoGroups ls).
Proof. unfold AtMostTwoGroups. apply _. Defined.

End TrafficLight.

(** ** Vehicles (carManager.js) *)

Module CarManager.

Inductive Direction := forward | backward.

(** [nextTurn] is one of these or [null]. *)
Inductive Turn := left | right | straight | uturn.

Global Instance Direction_eq_dec : EqDecision Direction.
Proof. solve_decision. Defined.

Global Instance Turn_eq_dec : EqDecision Turn.
Proof. solve_decision. Defined.

Record Location := mkLocation {
  loc_id : string;
  loc_x : Q;
  loc_y : Q
}.

Record Street := mkStreet {
  street_id : string;
  from : string;
  to : string
}.

Record Position := mkPosition {
  pos_x : Q;
  pos_y : Q;
  pos_angle : Q
}.

(** The fields of a car object the engine and the tick driver read or
    write (colour, lane and the unused [followingCar] and [lastPosition]
    are left out). [car_id] is the field [id]. *)
Record Car := mkCar {
  car_id : string;
  startLocationId : string;
  destinationId : string;
  currentStreetId : string;
  direction : Direction;
  progress : Q;
  speed : Q;
  maxSpeed : Q;
  preferredSpeed : Q;
  createdAt : Z;
  reachedDestination : bool;
  counted : bool;
  stops : Z;
  timeNotMoving : Q;
  timeNotMovingStart : option Z;
  path : list string;
  nextTurn : option Turn;
  waitingToTurnLeft : bool;
  streetsTraveled : Z;
  totalTravelTime : Q;
  currentStreetStartTime : Z;
  turnSignalStartTime : option Z;
  totalDistance : Q;
  locationsVisited : Z;
  lastSpeed : Q;
  lastStopTime : option Z;
  originalId : option string
}.

(** [{ ...c, field: v }] for the fields the engine writes. *)
Definition set_destinationId (v : string) (c : Car) : Car :=
  mkCar (car_id c) (startLocationId c) v (currentStreetId c) (direction c)
    (progress c) (speed c) (maxSpeed c) (preferredSpeed c) (createdAt c)
    (reachedDestination c) (counted c) (stops c) (timeNotMoving c)
    (timeNotMovingStart c) (path c) (nextTurn c) (waitingToTurnLeft c)
    (streetsTraveled c) (totalTravelTime c) (currentStreetStartTime c)
    (turnSignalStartTime c) (totalDistance c) (locationsVisited c)
    (lastSpeed c) (lastStopTime c) (originalId c).

Definition set_startLocationId (v : string) (c : Car) : Car :=
  mkCar (car_id c) v (destinationId c) (currentStreetId c) (direction c)
    (progress c) (speed c) (maxSpeed c) (preferredSpeed c) (createdAt c)
    (reachedDestination c) (counted c) (stops c) (timeNotMoving c)
    (timeNotMovingStart c) (path c) (nextTurn c) (waitingToTurnLeft c)
    (streetsTraveled c) (totalTravelTime c) (currentStreetStartTime c)
    (turnSignalStartTime c) (totalDistance c) (locationsVisited c)
    (lastSpeed c) (lastStopTime c) (originalId c).

Definition set_currentStreetId (v : string) (c : Car) : Car :=
  mkCar (car_id c) (startLocationId c) (destinationId c) v (direction c)
    (progress c) (speed c) (maxSpeed c) (preferredSpeed c) (createdAt c)
    (reachedDestination c) (counted c) (stops c) (timeNotMoving c)
    (timeNotMovingStart c) (path c) (nextTurn c) (waitingToTurnLeft c)
    (streetsTraveled c) (totalTravelTime c) (currentStreetStartTime c)
    (turnSignalStartTime c) (totalDistance c) (locationsVisited c)
    (lastSpeed c) (lastStopTime c) (originalId c).

Definition set_direction (v : Direction) (c : Car) : Car :=
  mkCar (car_id c) (startLocationId c) (destinationId c) (currentStreetId c)
    v (progress c) (speed c) (maxSpeed c) (preferredSpeed c) (createdAt c)
    (reachedDestination c) (counted c) (stops c) (timeNotMoving c)
    (timeNotMovingStart c) (path c) (nextTurn c) (waitingToTurnLeft c)
    (streetsTraveled c) (totalTravelTime c) (currentStreetStartTime c)
    (turnSignalStartTime c) (totalDistance c) (locationsVisited c)
    (lastSpeed c) (lastStopTime c) (originalId c).

Definition set_progress (v : Q) (c : Car) : Car :=
  mkCar (car_id c) (startLocationId c) (destinationId c) (currentStreetId c)
    (direction c) v (speed c) (maxSpeed c) (preferredSpeed c) (createdAt c)
    (reachedDestination c) (counted c) (stops c) (timeNotMoving c)
    (timeNotMovingStart c) (path c) (nextTurn c) (waitingToTurnLeft c)
    (streetsTraveled c) (totalTravelTime c) (currentStreetStartTime c)
    (turnSignalStartTime c) (totalDistance c) (locationsVisited c)
    (lastSpeed c) (lastStopTime c) (originalId c).

Definition set_speed (v : Q) (c : Car) : Car :=
  mkCar (car_id c) (startLocationId c) (destinationId c) (currentStreetId c)
    (direction c) (progress c) v (maxSpeed c) (preferredSpeed c)
    (createdAt c) (reachedDestination c) (counted c) (stops c)
    (timeNotMoving c) (timeNotMovingStart c) (path c) (nextTurn c)
    (waitingToTurnLeft c) (streetsTraveled c) (totalTravelTime c)
    (currentStreetStartTime c) (turnSignalStartTime c) (totalDistance c)
    (locationsVisited c) (lastSpeed c) (lastStopTime c) (originalId c).

Definition set_reachedDestination (v : bool) (c : Car) : Car :=
  mkCar (car_id c) (startLocationId c) (destinationId c) (currentStreetId c)
    (direction c) (progress c) (speed c) (maxSpeed c) (preferredSpeed c)
    (createdAt c) v (counted c) (stops c) (timeNotMoving c)
    (timeNotMovingStart c) (path c) (nextTurn c) (waitingToTurnLeft c)
    (streetsTraveled c) (totalTravelTime c) (currentStreetStartTime c)
    (turnSignalStartTime c) (totalDistance c) (locationsVisited c)
    (lastSpeed c) (lastStopTime c) (originalId c).

Definition set_counted (v : bool) (c : Car) : Car :=
  mkCar (car_id c) (startLocationId c) (destinationId c) (currentStreetId c)
    (direction c) (progress c) (speed c) (maxSpeed c) (preferredSpeed c)
    (createdAt c) (reachedDestination c) v (stops c) (timeNotMoving c)
    (timeNotMovingStart c) (path c) (nextTurn c) (waitingToTurnLeft c)
    (streetsTraveled c) (totalTravelTime c) (currentStreetStartTime c)
    (turnSignalStartTime c) (totalDistance c) (locationsVisited c)
    (lastSpeed c) (lastStopTime c) (originalId c).

Definition set_stops (v : Z) (c : Car) : Car :=
  mkCar (car_id c) (startLocationId c) (destinationId c) (currentStreetId c)
    (direction c) (progress c) (speed c) (maxSpeed c) (preferredSpeed c)
    (createdAt c) (reachedDestination c) (counted c) v (timeNotMoving c)
    (timeNotMovingStart c) (path c) (nextTurn c) (waitingToTurnLeft c)
    (streetsTraveled c) (totalTravelTime c) (currentStreetStartTime c)
    (turnSignalStartTime c) (totalDistance c) (locationsVisited c)
    (lastSpeed c) (lastStopTime c) (originalId c).

Definition set_timeNotMoving (v : Q) (c : Car) : Car :=
  mkCar (car_id c) (startLocationId c) (destinationId c) (currentStreetId c)
    (direction c) (progress c) (speed c) (maxSpeed c) (preferredSpeed c)
    (createdAt c) (reachedDestination c) (counted c) (stops c) v
    (timeNotMovingStart c) (path c) (nextTurn c) (waitingToTurnLeft c)
    (streetsTraveled c) (totalTravelTime c) (currentStreetStartTime c)
    (turnSignalStartTime c) (totalDistance c) (locationsVisited c)
    (lastSpeed c) (lastStopTime c) (originalId c).

Definition set_timeNotMovingStart (v : option Z) (c : Car) : Car :=
  mkCar (car_id c) (startLocationId c) (destinationId c) (currentStreetId c)
    (direction c) (progress c) (speed c) (maxSpeed c) (preferredSpeed c)
    (createdAt c) (reachedDestination c) (counted c) (stops c)
    (timeNotMoving c) v (path c) (nextTurn c) (waitingToTurnLeft c)
    (streetsTraveled c) (totalTravelTime c) (currentStreetStartTime c)
    (turnSignalStartTime c) (totalDistance c) (locationsVisited c)
    (lastSpeed c) (lastStopTime c) (originalId c).

Definition set_path (v : list string) (c : Car) : Car :=
  mkCar (car_id c) (startLocationId c) (destinationId c) (currentStreetId c)
    (direction c) (progress c) (speed c) (maxSpeed c) (preferredSpeed c)
    (createdAt c) (reachedDestination c) (counted c) (stops c)
    (timeNotMoving c) (timeNotMovingStart c) v (nextTurn c)
    (waitingToTurnLeft c) (streetsTraveled c) (totalTravelTime c)
    (currentStreetStartTime c) (turnSignalStartTime c) (totalDistance c)
    (locationsVisited c) (lastSpeed c) (lastStopTime c) (originalId c).

Definition set_nextTurn (v : option Turn) (c : Car) : Car :=
  mkCar (car_id c) (startLocationId c) (destinationId c) (currentStreetId c)
    (direction c) (progress c) (speed c) (maxSpeed c) (preferredSpeed c)
    (createdAt c) (reachedDestination c) (counted c) (stops c)
    (timeNotMoving c) (timeNotMovingStart c) (path c) v
    (waitingToTurnLeft c) (streetsTraveled c) (totalTravelTime c)
    (currentStreetStartTime c) (turnSignalStartTime c) (totalDistance c)
    (locationsVisited c) (lastSpeed c) (lastStopTime c) (originalId c).

Definition set_waitingToTurnLeft (v : bool) (c : Car) : Car :=
  mkCar (car_id c) (startLocationId c) (destinationId c) (currentStreetId c)
    (direction c) (progress c) (speed c) (maxSpeed c) (preferredSpeed c)
    (createdAt c) (reachedDestination c) (counted c) (stops c)
    (timeNotMoving c) (timeNotMovingStart c) (path c) (nextTurn c) v
    (streetsTraveled c) (totalTravelTime c) (currentStreetStartTime c)
    (turnSignalStartTime c) (totalDistance c) (locationsVisited c)
    (lastSpeed c) (lastStopTime c) (originalId c).

Definition set_streetsTraveled (v : Z) (c : Car) : Car :=
  mkCar (car_id c) (startLocationId c) (destinationId c) (currentStreetId c)
    (direction c) (progress c) (speed c) (maxSpeed c) (preferredSpeed c)
    (createdAt c) (reachedDestination c) (counted c) (stops c)
    (timeNotMoving c) (timeNotMovingStart c) (path c) (nextTurn c)
    (waitingToTurnLeft c) v (totalTravelTime c) (currentStreetStartTime c)
    (turnSignalStartTime c) (totalDistance c) (locationsVisited c)
    (lastSpeed c) (lastStopTime c) (originalId c).

Definition set_totalTravelTime (v : Q) (c : Car) : Car :=
  mkCar (car_id c) (startLocationId c) (destinationId c) (currentStreetId c)
    (direction c) (progress c) (speed c) (maxSpeed c) (preferredSpeed c)
    (createdAt c) (reachedDestination c) (counted c) (stops c)
    (timeNotMoving c) (timeNotMovingStart c) (path c) (nextTurn c)
    (waitingToTurnLeft c) (streetsTraveled c) v (currentStreetStartTime c)
    (turnSignalStartTime c) (totalDistance c) (locationsVisited c)
    (lastSpeed c) (lastStopTime c) (originalId c).

Definition set_currentStreetStartTime (v : Z) (c : Car) : Car :=
  mkCar (car_id c) (startLocationId c) (destinationId c) (currentStreetId c)
    (direction c) (progress c) (speed c) (maxSpeed c) (preferredSpeed c)
    (createdAt c) (reachedDestination c) (counted c) (stops c)
    (timeNotMoving c) (timeNotMovingStart c) (path c) (nextTurn c)
    (waitingToTurnLeft c) (streetsTraveled c) (totalTravelTime c) v
    (turnSignalStartTime c) (totalDistance c) (locationsVisited c)
    (lastSpeed c) (lastStopTime c) (originalId c).

Definition set_turnSignalStartTime (v : option Z) (c : Car) : Car :=
  mkCar (car_id c) (startLocationId c) (destinationId c) (currentStreetId c)
    (direction c) (progress c) (speed c) (maxSpeed c) (preferredSpeed c)
    (createdAt c) (reachedDestination c) (counted c) (stops c)
    (timeNotMoving c) (timeNotMovingStart c) (path c) (nextTurn c)
    (waitingToTurnLeft c) (streetsTraveled c) (totalTravelTime c)
    (currentStreetStartTime c) v (totalDistance c) (locationsVisited c)
    (lastSpeed c) (lastStopTime c) (originalId c).

Definition set_totalDistance (v : Q) (c : Car) : Car :=
  mkCar (car_id c) (startLocationId c) (destinationId c) (currentStreetId c)
    (direction c) (progress c) (speed c) (maxSpeed c) (preferredSpeed c)
    (createdAt c) (reachedDestination c) (counted c) (stops c)
    (timeNotMoving c) (timeNotMovingStart c) (path c) (nextTurn c)
    (waitingToTurnLeft c) (streetsTraveled c) (totalTravelTime c)
    (currentStreetStartTime c) (turnSignalStartTime c) v
    (locationsVisited c) (lastSpeed c) (lastStopTime c) (originalId c).

Definition set_locationsVisited (v : Z) (c : Car) : Car :=
  mkCar (car_id c) (startLocationId c) (destinationId c) (currentStreetId c)
    (direction c) (progress c) (speed c) (maxSpeed c) (preferredSpeed c)
    (createdAt c) (reachedDestination c) (counted c) (stops c)
    (timeNotMoving c) (timeNotMovingStart c) (path c) (nextTurn c)
    (waitingToTurnLeft c) (streetsTraveled c) (totalTravelTime c)
    (currentStreetStartTime c) (turnSignalStartTime c) (totalDistance c) v
    (lastSpeed c) (lastStopTime c) (originalId c).

Definition set_lastSpeed (v : Q) (c : Car) : Car :=
  mkCar (car_id c) (startLocationId c) (destinationId c) (currentStreetId c)
    (direction c) (progress c) (speed c) (maxSpeed c) (preferredSpeed c)
    (createdAt c) (reachedDestination c) (counted c) (stops c)
    (timeNotMoving c) (timeNotMovingStart c) (path c) (nextTurn c)
    (waitingToTurnLeft c) (streetsTraveled c) (totalTravelTime c)
    (currentStreetStartTime c) (turnSignalStartTime c) (totalDistance c)
    (locationsVisited c) v (lastStopTime c) (originalId c).

Definition set_lastStopTime (v : option Z) (c : Car) : Car :=
  mkCar (car_id c) (startLocationId c) (destinationId c) (currentStreetId c)
    (direction c) (progress c) (speed c) (maxSpeed c) (preferredSpeed c)
    (createdAt c) (reachedDestination c) (counted c) (stops c)
    (timeNotMoving c) (timeNotMovingStart c) (path c) (nextTurn c)
    (waitingToTurnLeft c) (streetsTraveled c) (totalTravelTime c)
    (currentStreetStartTime c) (turnSignalStartTime c) (totalDistance c)
    (locationsVisited c) (lastSpeed c) v (originalId c).
(** [streets.find(s => s.id === id)] and [locations.find(loc => loc.id
    === id)]. *)
Definition findStreet (id : string) (streets : list Street) : option Street :=
  head (filter (fun s => street_id s = id) streets).

Definition findLocation (id : string) (locations : list Location)
  : option Location :=
  head (filter (fun loc => loc_id loc = id) locations).

(** [streets.filter(s => s.from === id || s.to === id)] *)
Definition connectedTo (id : string) (streets : list Street) : list Street :=
  filter (fun s => from s = id \/ to s = id) streets.

(** [Math.floor(Math.random() * n)] for the draw [r]. *)
Definition randomIndex (r : Q) (n : nat) : nat :=
  Z.to_nat (Qfloor (r * inject_Z (Z.of_nat n))).

(** A distance that may be [Infinity] ([None]). *)
Definition lt_inf (d : option Q) (q : Q) : bool :=
  match d with
  | Some x => JS.ltb x q
  | None => false
  end.

(** [car.direction === 'forward' ? (1 - car.progress) : car.progress] *)
Definition distanceToEnd (car : Car) : Q :=
  match direction car with
  | forward => (1 - progress car)%Q
  | backward => progress car
  end.

(** *** Routing *)

Record RoutingDecision := mkRoutingDecision {
  rd_street : Street;
  rd_direction : Direction;
  rd_turn : Turn
}.

(** [`${carOriginalId}-${currentLocationId}-${previousStreetId}`] *)
Definition routingKey (carOriginalId : option string)
    (currentLocationId previousStreetId : string) : string :=
  TrafficLight.groupKey carOriginalId +:+ "-" +:+ currentLocationId
    +:+ "-" +:+ previousStreetId.

(** The direction in which a street is entered at [locationId], and the
    reverse one taken for a U-turn. *)
Definition leaving (locationId : string) (street : Street) : Direction :=
  if decide (from street = locationId) then forward else backward.

Definition returning (locationId : string) (street : Street) : Direction :=
  if decide (from street = locationId) then backward else forward.

Section Geometry.

(** [Math.hypot], [Math.atan2], [Math.cos], [Math.sin] and [Math.PI]
    are parameters of the vehicle engine. *)
Variables (hypot atan2 : Q -> Q -> Q) (cos sin : Q -> Q) (PI : Q).

(** The two loops that bring an angle into [-PI, PI], in closed form:
    the first subtracts [2 * PI] as often as needed to come to [PI] or
    below, the second adds it as often as needed to come to [-PI] or
    above. *)
Definition normalizeAngle (a : Q) : Q :=
  let a1 :=
    if JS.gtb a PI
    then (a - 2 * PI * inject_Z (Qceiling ((a - PI) / (2 * PI))))%Q
    else a in
  if JS.ltb a1 (- PI)
  then (a1 + 2 * PI * inject_Z (Qceiling ((- PI - a1) / (2 * PI))))%Q
  else a1.

Definition calculateTurnType (currentLocation : Location)
    (nextStreet : Street) (approachAngle : Q) (locations : list Location)
  : Turn :=
  let otherEndId :=
    if decide (from nextStreet = loc_id currentLocation)
    then to nextStreet else from nextStreet in
  match findLocation otherEndId locations with
  | None => straight
  | Some otherEndLocation =>
      let exitAngle :=
        atan2 (loc_y otherEndLocation - loc_y currentLocation)
              (loc_x otherEndLocation - loc_x currentLocation) in
      let turnAngle := normalizeAngle (exitAngle - approachAngle) in
      let turnDegrees := Qabs (turnAngle * 180 / PI) in
      if JS.ltb turnDegrees 30 then straight
      else if JS.gtb turnDegrees 150 then uturn
      else if JS.gtb turnAngle 0 then left
      else right
  end.

(** [findBestNextStreet]: the global [routingDecisions] map is passed in
    and returned; [r] is the value [Math.random()] returns if the
    intersection branch draws. (A draw outside [0, 1) could select no
    street; the decision is then [None].) *)
Definition findBestNextStreet (routingDecisions : gmap string RoutingDecision)
    (r : Q) (currentLocationId destinationId previousStreetId : string)
    (streets : list Street) (locations : list Location)
    (carOriginalId : option string)
  : option RoutingDecision * gmap string RoutingDecision :=
  let allConnectedStreets := connectedTo currentLocationId streets in
  let connectedStreets :=
    filter (fun s => (from s = currentLocationId \/ to s = currentLocationId)
                     /\ street_id s <> previousStreetId) streets in
  let key := routingKey carOriginalId currentLocationId previousStreetId in
  let uTurnOn (street : Street) :=
    Some (mkRoutingDecision street (returning currentLocationId street)
            uturn) in
  let cached :=
    if JS.truthy carOriginalId then routingDecisions !! key else None in
  match cached with
  | Some cachedDecision => (Some cachedDecision, routingDecisions)
  | None =>
      let routingDecision :=
        match allConnectedStreets with
        | [] => None
        | [street] => uTurnOn street
        | [first; _] =>
            match connectedStreets with
            | exitStreet :: _ =>
                Some (mkRoutingDecision exitStreet
                        (leaving currentLocationId exitStreet) straight)
            | [] => uTurnOn first
            end
        | first :: _ =>
            match connectedStreets with
            | _ :: _ =>
                match connectedStreets
                        !! randomIndex r (length connectedStreets) with
                | None => None
                | Some selectedStreet =>
                    let turn :=
                      match findLocation currentLocationId locations,
                            findStreet previousStreetId streets with
                      | Some currentLocation, Some previousStreet =>
                          let prevOtherEndId :=
                            if decide (from previousStreet
                                       = currentLocationId)
                            then to previousStreet
                            else from previousStreet in
                          match findLocation prevOtherEndId locations with
                          | Some prevOtherLocation =>
                              let approachAngle :=
                                atan2 (loc_y currentLocation
                                       - loc_y prevOtherLocation)
                                      (loc_x currentLocation
                                       - loc_x prevOtherLocation) in
                              calculateTurnType currentLocation
                                selectedStreet approachAngle locations
                          | None => straight
                          end
                      | _, _ => straight
                      end in
                    Some (mkRoutingDecision selectedStreet
                            (leaving currentLocationId selectedStreet)
                            turn)
                end
            | [] => uTurnOn first
            end
        end in
      match routingDecision with
      | Some d =>
          if JS.truthy carOriginalId
          then (Some d, <[key := d]> routingDecisions)
          else (Some d, routingDecisions)
      | None => (None, routingDecisions)
      end
  end.

(** *** Positions and collisions *)

(** [calculateCarPosition]; [None] is [null]. (The curved-turn branch
    is disabled in the source: [calculateCurvedTurnPosition] returns
    [null] at once, so the straight-line position is always used.) *)
Definition calculateCarPosition (car : Car) (streets : list Street)
    (locations : list Location) : option Position :=
  street ← findStreet (currentStreetId car) streets;
  fromLocation ← findLocation (from street) locations;
  toLocation ← findLocation (to street) locations;
  let progress0 := progress car in
  let progress1 := if JS.ltb progress0 0 then 0%Q else progress0 in
  let progress := if JS.gtb progress1 1 then 1%Q else progress1 in
  let '(centerX, centerY) :=
    match direction car with
    | forward =>
        (loc_x fromLocation
         + (loc_x toLocation - loc_x fromLocation) * progress,
         loc_y fromLocation
         + (loc_y toLocation - loc_y fromLocation) * progress)%Q
    | backward =>
        (loc_x toLocation
         + (loc_x fromLocation - loc_x toLocation) * (1 - progress),
         loc_y toLocation
         + (loc_y fromLocation - loc_y toLocation) * (1 - progress))%Q
    end in
  let streetAngle :=
    atan2 (loc_y toLocation - loc_y fromLocation)
          (loc_x toLocation - loc_x fromLocation) in
  let perpAngle :=
    match direction car with
    | forward => (streetAngle + PI / 2)%Q
    | backward => (streetAngle - PI / 2)%Q
    end in
  let laneOffset := 12%Q in
  let x := (centerX + cos perpAngle * laneOffset)%Q in
  let y := (centerY + sin perpAngle * laneOffset)%Q in
  let angle := (streetAngle * 180 / PI)%Q in
  let angle' :=
    match direction car with
    | forward => angle
    | backward => JS.rem (angle + 180) 360
    end in
  Some (mkPosition x y angle').

(** [calculateDistanceBetweenCars]; [None] is [Infinity]. *)
Definition calculateDistanceBetweenCars (car1 car2 : Car)
    (streets : list Street) (locations : list Location) : option Q :=
  pos1 ← calculateCarPosition car1 streets locations;
  pos2 ← calculateCarPosition car2 streets locations;
  Some (hypot (pos_x pos2 - pos_x pos1) (pos_y pos2 - pos_y pos1)).

Record Bounds := mkBounds {
  minX : Q;
  maxX : Q;
  minY : Q;
  maxY : Q
}.

Definition min4 (a b c d : Q) : Q := Qmin (Qmin (Qmin a b) c) d.
Definition max4 (a b c d : Q) : Q := Qmax (Qmax (Qmax a b) c) d.

Definition getCarBounds (position : Position) (width height : Q) : Bounds :=
  let angleRad := (pos_angle position * PI / 180)%Q in
  let halfWidth := (width / 2)%Q in
  let halfHeight := (height / 2)%Q in
  let rx (cx cy : Q) :=
    (pos_x position + cx * cos angleRad - cy * sin angleRad)%Q in
  let ry (cx cy : Q) :=
    (pos_y position + cx * sin angleRad + cy * cos angleRad)%Q in
  let x1 := rx (- halfWidth)%Q (- halfHeight)%Q in
  let x2 := rx halfWidth (- halfHeight)%Q in
  let x3 := rx halfWidth halfHeight in
  let x4 := rx (- halfWidth)%Q halfHeight in
  let y1 := ry (- halfWidth)%Q (- halfHeight)%Q in
  let y2 := ry halfWidth (- halfHeight)%Q in
  let y3 := ry halfWidth halfHeight in
  let y4 := ry (- halfWidth)%Q halfHeight in
  mkBounds (min4 x1 x2 x3 x4) (max4 x1 x2 x3 x4)
    (min4 y1 y2 y3 y4) (max4 y1 y2 y3 y4).

Definition checkBoundsCollision (bounds1 bounds2 : Bounds) (margin : Q)
  : bool :=
  negb (JS.ltb (maxX bounds1 + margin) (minX bounds2)
        || JS.ltb (maxX bounds2 + margin) (minX bounds1)
        || JS.ltb (maxY bounds1 + margin) (minY bounds2)
        || JS.ltb (maxY bounds2 + margin) (minY bounds1)).

(** [targetPoint] is given by its coordinates. *)
Definition isCarMovingTowardPoint (car : Car) (targetX targetY : Q)
    (streets : list Street) (locations : list Location) : bool :=
  if JS.ltb (speed car) 0.01 then false
  else
    match calculateCarPosition car streets locations,
          findStreet (currentStreetId car) streets with
    | Some currentPos, Some currentStreet =>
        match findLocation (from currentStreet) locations,
              findLocation (to currentStreet) locations with
        | Some fromLocation, Some toLocation =>
            let '(mx, my) :=
              match direction car with
              | forward =>
                  (loc_x toLocation - loc_x fromLocation,
                   loc_y toLocation - loc_y fromLocation)%Q
              | backward =>
                  (loc_x fromLocation - loc_x toLocation,
                   loc_y fromLocation - loc_y toLocation)%Q
              end in
            let movementMagnitude := hypot mx my in
            if Qeq_bool movementMagnitude 0 then false
            else
              let mx' := (mx / movementMagnitude)%Q in
              let my' := (my / movementMagnitude)%Q in
              let tx := (targetX - pos_x currentPos)%Q in
              let ty := (targetY - pos_y currentPos)%Q in
              let toTargetMagnitude := hypot tx ty in
              if Qeq_bool toTargetMagnitude 0 then false
              else
                let tx' := (tx / toTargetMagnitude)%Q in
                let ty' := (ty / toTargetMagnitude)%Q in
                let dotProduct := (mx' * tx' + my' * ty')%Q in
                JS.gtb dotProduct 0.5
        | _, _ => false
        end
    | _, _ => false
    end.

(** The fields of a collision analysis the engine reads; [distance] is
    [None] for [Infinity]. *)
Record CollisionAnalysis := mkCollisionAnalysis {
  distance : option Q;
  isColliding : bool;
  car1MovingToward : bool;
  car2MovingToward : bool
}.

Definition analyzeCarCollision (car1 car2 : Car) (streets : list Street)
    (locations : list Location) : CollisionAnalysis :=
  match calculateCarPosition car1 streets locations,
        calculateCarPosition car2 streets locations with
  | Some pos1, Some pos2 =>
      let CAR_WIDTH := 28%Q in
      let CAR_HEIGHT := 14%Q in
      let SAFETY_MARGIN := 5%Q in
      let car1Bounds := getCarBounds pos1 CAR_WIDTH CAR_HEIGHT in
      let car2Bounds := getCarBounds pos2 CAR_WIDTH CAR_HEIGHT in
      mkCollisionAnalysis
        (Some (hypot (pos_x pos2 - pos_x pos1) (pos_y pos2 - pos_y pos1)))
        (checkBoundsCollision car1Bounds car2Bounds SAFETY_MARGIN)
        (isCarMovingTowardPoint car1 (pos_x pos2) (pos_y pos2)
           streets locations)
        (isCarMovingTowardPoint car2 (pos_x pos1) (pos_y pos1)
           streets locations)
  | _, _ => mkCollisionAnalysis None false false false
  end.

(** [findCarAhead]: the closest car ahead on the same street and in the
    same direction; the accumulator is [(closestCar,
    closestDistance)], [None] for [null] and for [Infinity]. *)
Definition findCarAhead (car : Car) (allCars : list Car) : option Car :=
  let carsOnSameStreet :=
    filter (fun otherCar =>
              car_id otherCar <> car_id car
              /\ currentStreetId otherCar = currentStreetId car
              /\ direction otherCar = direction car
              /\ reachedDestination otherCar = false)
      allCars in
  fst <$>
    foldl (fun (closest : option (Car * Q)) otherCar =>
             let isAhead :=
               match direction car with
               | forward => JS.gtb (progress otherCar) (progress car)
               | backward => JS.ltb (progress otherCar) (progress car)
               end in
             if isAhead then
               let d := Qabs (progress otherCar - progress car) in
               match closest with
               | Some (_, closestDistance) =>
                   if JS.ltb d closestDistance
                   then Some (otherCar, d) else closest
               | None => Some (otherCar, d)
               end
             else closest)
      None carsOnSameStreet.

(** What [findCrossTrafficCar] returns when it is not [null]. *)
Record CrossTraffic := mkCrossTraffic {
  ct_car : Car;
  ct_analysis : CollisionAnalysis;
  ct_priority : Q;
  ct_shouldStop : bool
}.

Definition findCrossTrafficCar (car : Car) (allCars : list Car)
    (streets : list Street) (locations : list Location)
  : option CrossTraffic :=
  match findStreet (currentStreetId car) streets with
  | None => None
  | Some currentStreet =>
      let distanceToIntersection := distanceToEnd car in
      if JS.gtb distanceToIntersection 0.25 then None
      else
        let intersectionLocationId :=
          match direction car with
          | forward => to currentStreet
          | backward => from currentStreet
          end in
        let intersectionStreets :=
          connectedTo intersectionLocationId streets in
        fst
          (foldl
             (fun (acc : option CrossTraffic * Q) otherCar =>
                let '(mostCriticalCollision, highestPriority) := acc in
                if bool_decide (car_id otherCar = car_id car)
                   || reachedDestination otherCar then acc
                else
                  match findStreet (currentStreetId otherCar) streets with
                  | None => acc
                  | Some otherStreet =>
                      let isOnIntersectionStreet :=
                        bool_decide
                          (Exists (fun s => street_id s
                                            = currentStreetId otherCar)
                             intersectionStreets) in
                      if negb isOnIntersectionStreet
                         || bool_decide (currentStreetId otherCar
                                         = currentStreetId car)
                      then acc
                      else
                        let otherIntersectionLocationId :=
                          match direction otherCar with
                          | forward => to otherStreet
                          | backward => from otherStreet
                          end in
                        if bool_decide (otherIntersectionLocationId
                                        <> intersectionLocationId)
                        then acc
                        else
                          let otherDistanceToIntersection :=
                            distanceToEnd otherCar in
                          let collisionAnalysis :=
                            analyzeCarCollision car otherCar streets
                              locations in
                          let COLLISION_TIME_WINDOW := 0.3%Q in
                          let bothApproaching :=
                            JS.ltb distanceToIntersection
                              COLLISION_TIME_WINDOW
                            && JS.ltb otherDistanceToIntersection
                                 COLLISION_TIME_WINDOW in
                          if bothApproaching
                             && isColliding collisionAnalysis
                          then
                            let p1 :=
                              if car2MovingToward collisionAnalysis
                              then (1 + 3)%Q else 1%Q in
                            let p2 :=
                              if negb (car1MovingToward collisionAnalysis)
                              then (p1 - 2)%Q else p1 in
                            let p3 :=
                              if JS.gtb (speed otherCar) (speed car)
                              then (p2 + 1)%Q else p2 in
                            let distanceFactor :=
                              match distance collisionAnalysis with
                              | Some d => Qmax 0 (1 - d / 100)
                              | None => 0%Q
                              end in
                            let priority := (p3 + distanceFactor)%Q in
                            if JS.gtb priority highestPriority
                            then
                              (Some (mkCrossTraffic otherCar
                                       collisionAnalysis priority
                                       (car1MovingToward collisionAnalysis
                                        && car2MovingToward
                                             collisionAnalysis)),
                               priority)
                            else acc
                          else acc
                  end)
             (None, 0%Q) allCars)
  end.

(** *** Deadlocks *)

(** [calculateDeadlockPriority]; [r] is the draw of [Math.random()]. *)
Definition calculateDeadlockPriority (r : Q) (car : Car)
    (streets : list Street) : Q :=
  let p1 := (0 + speed car * 10)%Q in
  let p2 :=
    match findStreet (currentStreetId car) streets with
    | Some _ => (p1 + (1 - distanceToEnd car) * 5)%Q
    | None => p1
    end in
  let p3 :=
    match nextTurn car with
    | Some straight => (p2 + 3)%Q
    | Some right => (p2 + 2)%Q
    | Some left => (p2 + 1)%Q
    | Some uturn => (p2 + 0)%Q
    | None => (p2 + 1)%Q
    end in
  (p3 + r * 0.1)%Q.

Record DeadlockAnalysis := mkDeadlockAnalysis {
  hasDeadlock : bool;
  shouldProceed : bool
}.

(** [detectAndResolveDeadlock]; [r1] and [r2] are the draws for the
    priority of the car and of the other car. *)
Definition detectAndResolveDeadlock (r1 r2 : Q) (car : Car)
    (allCars : list Car) (streets : list Street)
    (locations : list Location) : DeadlockAnalysis :=
  if JS.ltb (timeNotMoving car) 3 then mkDeadlockAnalysis false false
  else
    let nearbyStoppedCars :=
      filter (fun otherCar =>
                negb (bool_decide (car_id otherCar = car_id car)
                      || reachedDestination otherCar)
                && negb (JS.gtb (speed otherCar) 0.01)
                && negb (JS.ltb (timeNotMoving otherCar) 2)
                && lt_inf (calculateDistanceBetweenCars car otherCar
                             streets locations) 80
                = true)
        allCars in
    match filter (fun otherCar =>
                    isColliding (analyzeCarCollision car otherCar streets
                                   locations) = true)
            nearbyStoppedCars with
    | [] => mkDeadlockAnalysis false false
    | otherCar :: _ =>
        let carPriority := calculateDeadlockPriority r1 car streets in
        let otherCarPriority :=
          calculateDeadlockPriority r2 otherCar streets in
        if JS.gtb carPriority otherCarPriority
        then mkDeadlockAnalysis true true
        else if JS.gtb otherCarPriority carPriority
        then mkDeadlockAnalysis true false
        else mkDeadlockAnalysis true
               (String.ltb (car_id car) (car_id otherCar))
    end.

(** [checkForOncomingTrafficAdvanced] *)
Definition checkForOncomingTrafficAdvanced (car : Car) (allCars : list Car)
  : bool :=
  let oncomingCars :=
    filter (fun otherCar =>
              car_id otherCar <> car_id car
              /\ currentStreetId otherCar = currentStreetId car
              /\ direction otherCar <> direction car
              /\ reachedDestination otherCar = false)
      allCars in
  existsb
    (fun oncomingCar =>
       let d := Qabs (progress oncomingCar - progress car) in
       match nextTurn oncomingCar with
       | Some straight | Some right | None =>
           let v := if Qeq_bool (speed oncomingCar) 0
                    then 0.1%Q else speed oncomingCar in
           let timeToIntersection := (d / v)%Q in
           let SAFE_GAP_TIME := 3%Q in
           JS.ltb timeToIntersection SAFE_GAP_TIME && JS.ltb d 0.5
       | Some left => false
       | Some uturn => JS.ltb d 0.3
       end)
    oncomingCars.

(** [generateNewDestination]; [r1] and [r2] are the first and the
    second draw of [Math.random()]. (An index outside the list, which a
    draw in [0, 1) never gives, leaves the car at [currentLocationId].) *)
Definition generateNewDestination (r1 r2 : Q) (currentLocationId : string)
    (locations : list Location) (streets : list Street) : string :=
  let pick (r : Q) (l : list Location) : string :=
    match l !! randomIndex r (length l) with
    | Some loc => loc_id loc
    | None => currentLocationId
    end in
  let reachableLocations :=
    filter (fun loc => loc_id loc <> currentLocationId
                       /\ connectedTo (loc_id loc) streets <> [])
      locations in
  match reachableLocations with
  | [] =>
      let otherLocations :=
        filter (fun loc => loc_id loc <> currentLocationId) locations in
      match otherLocations with
      | [] => currentLocationId
      | _ :: _ => pick r1 otherLocations
      end
  | _ :: _ =>
      let parkingLots :=
        filter (fun loc => length (connectedTo (loc_id loc) streets) = 1)
          reachableLocations in
      match parkingLots with
      | [] => pick r1 reachableLocations
      | _ :: _ =>
          if JS.ltb r1 0.7 then pick r2 parkingLots
          else pick r2 reachableLocations
      end
  end.

(** *** The per-tick update of one car *)

(** The values [Math.random()] returns at the call sites of one
    [updateCar]: for the two deadlock priorities, for the new
    destination at a parking lot, for [generateNewDestination] (two
    draws) and for the routing choice. *)
Record Draws := mkDraws {
  drawPriority : Q;
  drawOtherPriority : Q;
  drawParking : Q;
  drawDestination1 : Q;
  drawDestination2 : Q;
  drawRoute : Q
}.

(** [car.preferredSpeed || car.maxSpeed] *)
Definition cruisingSpeed (car : Car) : Q :=
  if Qeq_bool (preferredSpeed car) 0 then maxSpeed car
  else preferredSpeed car.

(** The callback of [relevantLights.some(...)]: whether the car stops
    for this light, and whether the callback sets [waitingToTurnLeft]. *)
Definition stopsForLight (car : Car) (allCars : list Car)
    (fromLocation toLocation : Location) (light : TrafficLight.Light)
  : bool * bool :=
  let distanceToIntersection := distanceToEnd car in
  let LOCATION_RADIUS := 20%Q in
  let streetLength :=
    hypot (loc_x toLocation - loc_x fromLocation)
          (loc_y toLocation - loc_y fromLocation) in
  let distanceToIntersectionPixels :=
    (distanceToIntersection * streetLength)%Q in
  let hasEnteredIntersection :=
    JS.ltb distanceToIntersectionPixels LOCATION_RADIUS in
  if hasEnteredIntersection then (false, false)
  else
    let DECELERATION_ZONE := 0.3%Q in
    let STOP_LINE_DISTANCE := (LOCATION_RADIUS * 0.8 / streetLength)%Q in
    if TrafficLight.state_is TrafficLight.red light
       && JS.ltb distanceToIntersection DECELERATION_ZONE
       && JS.gtb distanceToIntersection STOP_LINE_DISTANCE
    then (true, false)
    else if TrafficLight.state_is TrafficLight.yellow light
            && JS.ltb distanceToIntersection DECELERATION_ZONE
            && JS.gtb distanceToIntersection (STOP_LINE_DISTANCE * 1.5)
    then (true, false)
    else if TrafficLight.state_is TrafficLight.green light
            && bool_decide (nextTurn car = Some left)
            && JS.ltb distanceToIntersection 0.2
            && checkForOncomingTrafficAdvanced car allCars
    then (true, true)
    else (false, false).

(** [(Date.now() - (c.currentStreetStartTime || Date.now())) / 1000] *)
Definition secondsOnStreet (now : Z) (c : Car) : Q :=
  let start :=
    if (currentStreetStartTime c =? 0)%Z then now
    else currentStreetStartTime c in
  (inject_Z (now - start) / 1000)%Q.

(** The fields the three "move to the next street" results share. *)
Definition enterStreet (now : Z) (nextLocationId : string)
    (street : Street) (dir : Direction) (turn : option Turn)
    (c : Car) : Car :=
  set_currentStreetStartTime now
    (set_totalTravelTime (totalTravelTime c + secondsOnStreet now c)%Q
       (set_streetsTraveled (streetsTraveled c + 1)%Z
          (set_waitingToTurnLeft false
             (set_speed (Qmax (speed c) 0.1)
                (set_path (path c ++ [nextLocationId])
                   (set_nextTurn turn
                      (set_progress
                         (match dir with
                          | forward => 0.05%Q
                          | backward => 0.95%Q
                          end)
                         (set_direction dir
                            (set_currentStreetId (street_id street)
                               c))))))))).

(** The fields the two "U-turn in place" results share; [near] is the
    new progress of a car that was going forward, [far] the one of a
    car that was going backward. *)
Definition uTurnInPlace (nextLocationId : string) (near far : Q)
    (c : Car) : Car :=
  set_reachedDestination false
    (set_waitingToTurnLeft false
       (set_speed 0.1%Q
          (set_path (path c ++ [nextLocationId])
             (set_nextTurn (Some uturn)
                (set_progress
                   (match direction c with
                    | forward => near
                    | backward => far
                    end)
                   (set_direction
                      (match direction c with
                       | forward => backward
                       | backward => forward
                       end)
                      c)))))).

(** The end-of-street logic of [updateCar], for the car [updatedCar]
    that has reached the location [nextLocationId] of [currentStreet];
    [car] is the car before the update. *)
Definition arriveAt (routingDecisions : gmap string RoutingDecision)
    (draws : Draws) (now : Z) (car updatedCar : Car)
    (nextLocationId : string) (streets : list Street)
    (locations : list Location)
  : Car * gmap string RoutingDecision :=
  match findLocation nextLocationId locations with
  | None => (set_reachedDestination true updatedCar, routingDecisions)
  | Some _ =>
      let connectedStreets := connectedTo nextLocationId streets in
      match connectedStreets with
      | [exitStreet] =>
          (* a parking lot *)
          let updatedCar1 :=
            set_locationsVisited (locationsVisited car + 1)%Z updatedCar in
          let allParkingLots :=
            filter (fun loc =>
                      length (connectedTo (loc_id loc) streets) = 1
                      /\ loc_id loc <> nextLocationId)
              locations in
          match allParkingLots
                  !! randomIndex (drawParking draws)
                       (length allParkingLots) with
          | Some newDestination =>
              let updatedCar2 :=
                set_startLocationId nextLocationId
                  (set_destinationId (loc_id newDestination)
                     updatedCar1) in
              let exitDirection := leaving nextLocationId exitStreet in
              (set_reachedDestination false
                 (enterStreet now nextLocationId exitStreet exitDirection
                    None
                    (set_destinationId (loc_id newDestination)
                       updatedCar2)),
               routingDecisions)
          | None =>
              (set_reachedDestination true updatedCar1, routingDecisions)
          end
      | _ =>
          let groupId :=
            JS.orElse (originalId updatedCar)
              (Some (car_id updatedCar)) in
          if bool_decide (nextLocationId = destinationId updatedCar) then
            let newDestinationId :=
              generateNewDestination (drawDestination1 draws)
                (drawDestination2 draws) nextLocationId locations
                streets in
            match findBestNextStreet routingDecisions (drawRoute draws)
                    nextLocationId newDestinationId
                    (currentStreetId updatedCar) streets locations
                    groupId with
            | (None, routingDecisions') =>
                (uTurnInPlace nextLocationId 0.99%Q 0.01%Q
                   (set_destinationId newDestinationId updatedCar),
                 routingDecisions')
            | (Some newNextStreetInfo, routingDecisions') =>
                (set_reachedDestination false
                   (enterStreet now nextLocationId
                      (rd_street newNextStreetInfo)
                      (rd_direction newNextStreetInfo)
                      (Some (rd_turn newNextStreetInfo))
                      (set_destinationId newDestinationId updatedCar)),
                 routingDecisions')
            end
          else
            match findBestNextStreet routingDecisions (drawRoute draws)
                    nextLocationId (destinationId updatedCar)
                    (currentStreetId updatedCar) streets locations
                    groupId with
            | (None, routingDecisions') =>
                match connectedStreets with
                | [] =>
                    (set_reachedDestination true updatedCar,
                     routingDecisions')
                | _ :: _ =>
                    (uTurnInPlace nextLocationId 0.95%Q 0.05%Q updatedCar,
                     routingDecisions')
                end
            | (Some nextStreetInfo, routingDecisions') =>
                (set_turnSignalStartTime None
                   (enterStreet now nextLocationId
                      (rd_street nextStreetInfo)
                      (rd_direction nextStreetInfo)
                      (Some (rd_turn nextStreetInfo)) updatedCar),
                 routingDecisions')
            end
      end
  end.

(** What the first half of [updateCar] works out before it touches the
    car: the target speed, whether the car has to stop, whether it
    waits to turn left, whether it slows down for a turn, and the car
    ahead and the cross traffic found. *)
Record Drive := mkDrive {
  targetSpeed : Q;
  shouldStop : bool;
  waitsToTurnLeft : bool;
  isApproachingTurn : bool;
  carAhead : option Car;
  crossTrafficAnalysis : option CrossTraffic
}.

Definition assess (draws : Draws) (car : Car) (streets : list Street)
    (locations : list Location) (trafficLights : list TrafficLight.Light)
    (allCars : list Car) (currentStreet : Street)
    (fromLocation toLocation : Location) : Drive :=
  let targetSpeed0 := cruisingSpeed car in
  let carAhead := findCarAhead car allCars in
  let crossTrafficAnalysis :=
    findCrossTrafficCar car allCars streets locations in
  (* car following *)
  let '(targetSpeed1, shouldStop1) :=
    match carAhead with
    | Some ahead =>
        let collisionAnalysis :=
          analyzeCarCollision car ahead streets locations in
        let CAR_LENGTH := 28%Q in
        let SAFE_FOLLOWING_DISTANCE := (CAR_LENGTH * 2.0)%Q in
        let MINIMUM_DISTANCE := (CAR_LENGTH * 1.1)%Q in
        match distance collisionAnalysis with
        | Some d =>
            if JS.ltb d SAFE_FOLLOWING_DISTANCE
               && car1MovingToward collisionAnalysis
            then
              let speedReduction :=
                Qmax 0 ((SAFE_FOLLOWING_DISTANCE - d)
                        / SAFE_FOLLOWING_DISTANCE) in
              if JS.ltb d MINIMUM_DISTANCE then (0%Q, true)
              else
                (Qmin targetSpeed0
                   (speed ahead * (1 - speedReduction * 0.5)),
                 false)
            else (targetSpeed0, false)
        | None => (targetSpeed0, false)
        end
    | None => (targetSpeed0, false)
    end in
  (* cross traffic *)
  let crossStops :=
    match crossTrafficAnalysis with
    | Some ct => ct_shouldStop ct && car1MovingToward (ct_analysis ct)
    | None => false
    end in
  let targetSpeed2 := if crossStops then 0%Q else targetSpeed1 in
  let shouldStop2 := crossStops || shouldStop1 in
  let crossTrafficBlocking2 := crossStops in
  (* deadlock override *)
  let override :=
    if shouldStop2 || JS.ltb (speed car) 0.01 then
      let deadlockAnalysis :=
        detectAndResolveDeadlock (drawPriority draws)
          (drawOtherPriority draws) car allCars streets locations in
      hasDeadlock deadlockAnalysis && shouldProceed deadlockAnalysis
    else false in
  let targetSpeed3 :=
    if override then cruisingSpeed car else targetSpeed2 in
  let shouldStop3 := if override then false else shouldStop2 in
  let crossTrafficBlocking :=
    if override then false else crossTrafficBlocking2 in
  (* traffic lights *)
  let relevantLights :=
    filter (fun light =>
              TrafficLight.streetId light = currentStreetId car
              /\ TrafficLight.locationId light
                 = match direction car with
                   | forward => to currentStreet
                   | backward => from currentStreet
                   end)
      trafficLights in
  let '(shouldStopForLight, waitingToTurnLeft') :=
    if crossTrafficBlocking then (false, false)
    else
      match filter (fun v : bool * bool => v.1 = true)
              (map (stopsForLight car allCars fromLocation toLocation)
                 relevantLights) with
      | v :: _ => v
      | [] => (false, false)
      end in
  let targetSpeed4 := if shouldStopForLight then 0%Q else targetSpeed3 in
  let shouldStop := shouldStopForLight || shouldStop3 in
  (* slowing down for a turn *)
  let isApproachingTurn :=
    (bool_decide (nextTurn car = Some left)
     || bool_decide (nextTurn car = Some right))
    && JS.ltb (distanceToEnd car) 0.2 in
  let targetSpeed :=
    if isApproachingTurn
    then Qmin targetSpeed4 (preferredSpeed car * 0.6)
    else targetSpeed4 in
  mkDrive targetSpeed shouldStop waitingToTurnLeft' isApproachingTurn
    carAhead crossTrafficAnalysis.

(** The new speed: towards the target speed, at the rate that applies. *)
Definition newSpeed (car : Car) (drive : Drive) (deltaTime : Q) : Q :=
  let ACCELERATION := 1.2%Q in
  let DECELERATION := 2.4%Q in
  let EMERGENCY_DECELERATION := 5.0%Q in
  let TURN_DECELERATION := 3.0%Q in
  let useEmergencyBraking :=
    shouldStop drive && JS.gtb (speed car) (targetSpeed drive + 0.2) in
  let useApproachingTurnDeceleration :=
    isApproachingTurn drive && negb (shouldStop drive) in
  let deceleration :=
    if useEmergencyBraking then EMERGENCY_DECELERATION
    else if useApproachingTurnDeceleration then TURN_DECELERATION
    else DECELERATION in
  if JS.ltb (speed car) (targetSpeed drive)
  then Qmin (speed car + ACCELERATION * deltaTime) (targetSpeed drive)
  else if JS.gtb (speed car) (targetSpeed drive)
  then Qmax (speed car - deceleration * deltaTime)
         (Qmax 0 (targetSpeed drive))
  else speed car.

(** The second half of [updateCar] up to the end-of-street test: the
    car [updatedCar] with its new speed, counters and progress. *)
Definition advance (now : Z) (car : Car) (drive : Drive) (deltaTime : Q)
  : Car :=
  let updatedCar0 :=
    set_lastSpeed (speed car)
      (set_waitingToTurnLeft (waitsToTurnLeft drive) car) in
  let wasMoving := JS.gtb (speed car) 0.1 in
  let speed' := newSpeed car drive deltaTime in
  let updatedCar1 := set_speed speed' updatedCar0 in
  let isNowStopped := JS.ltb speed' 0.1 in
  let updatedCar2 :=
    if wasMoving && isNowStopped && shouldStop drive
    then set_lastStopTime (Some now)
           (set_stops (stops car + 1)%Z updatedCar1)
    else updatedCar1 in
  let updatedCar3 :=
    if isNowStopped then
      set_timeNotMoving (timeNotMoving car + deltaTime)%Q
        (if JS.truthyZ (timeNotMovingStart car) then updatedCar2
         else set_timeNotMovingStart (Some now) updatedCar2)
    else set_timeNotMovingStart None updatedCar2 in
  let progressChange := (speed' * deltaTime * 0.08)%Q in
  let distanceTraveled := (speed' * deltaTime)%Q in
  let updatedCar4 :=
    set_totalDistance (totalDistance car + distanceTraveled)%Q
      updatedCar3 in
  let updatedCar5 :=
    set_progress
      (match direction car with
       | forward => (progress car + progressChange)%Q
       | backward => (progress car - progressChange)%Q
       end)
      updatedCar4 in
  let progressFromStart :=
    match direction car with
    | forward => progress updatedCar5
    | backward => (1 - progress updatedCar5)%Q
    end in
  if JS.geb progressFromStart 0.5
     && (bool_decide (nextTurn car = Some left)
         || bool_decide (nextTurn car = Some right))
     && negb (JS.truthyZ (turnSignalStartTime car))
  then set_turnSignalStartTime (Some now) updatedCar5
  else updatedCar5.

(** The test that guards the end-of-street logic: the car is at or
    beyond the end it drives towards, it is moving, and it is not held
    by a stop while a car ahead or cross traffic has been found. *)
Definition leavesStreet (updatedCar : Car) (drive : Drive) : bool :=
  let isActuallyAtEnd :=
    match direction updatedCar with
    | forward => JS.geb (progress updatedCar) 1
    | backward => JS.leb (progress updatedCar) 0
    end in
  let isMoving := JS.gtb (speed updatedCar) 0.01 in
  let isStoppedForCollision :=
    shouldStop drive
    && (bool_decide (is_Some (crossTrafficAnalysis drive))
        || bool_decide (is_Some (carAhead drive))) in
  isActuallyAtEnd && isMoving && negb isStoppedForCollision.

(** [updateCar]; the result is the updated car and the routing cache
    after the call. *)
Definition updateCar (routingDecisions : gmap string RoutingDecision)
    (draws : Draws) (now : Z) (car : Car) (streets : list Street)
    (locations : list Location) (trafficLights : list TrafficLight.Light)
    (deltaTime : Q) (allCars : list Car)
  : Car * gmap string RoutingDecision :=
  if reachedDestination car then (car, routingDecisions)
  else
    match findStreet (currentStreetId car) streets with
    | None => (set_reachedDestination true car, routingDecisions)
    | Some currentStreet =>
        match findLocation (from currentStreet) locations,
              findLocation (to currentStreet) locations with
        | Some fromLocation, Some toLocation =>
            let drive :=
              assess draws car streets locations trafficLights allCars
                currentStreet fromLocation toLocation in
            let updatedCar := advance now car drive deltaTime in
            if leavesStreet updatedCar drive then
              let nextLocationId :=
                match direction updatedCar with
                | forward => to currentStreet
                | backward => from currentStreet
                end in
              arriveAt routingDecisions draws now car updatedCar
                nextLocationId streets locations
            else (updatedCar, routingDecisions)
        | _, _ => (set_reachedDestination true car, routingDecisions)
        end
    end.

(** [simulateTraffic]: every car is updated against the cars and lights
    as they were passed in; the routing cache is threaded through the
    calls in order. [draws i] and [clock i] are the random draws and
    [Date.now()] during the update of car [i]. *)
Definition simulateTraffic (routingDecisions : gmap string RoutingDecision)
    (draws : nat -> Draws) (clock : nat -> Z) (cars : list Car)
    (streets : list Street) (locations : list Location)
    (trafficLights : list TrafficLight.Light) (deltaTime : Q)
    (isSmartControl : bool)
  : list Car * gmap string RoutingDecision :=
  let cappedDeltaTime := Qmin deltaTime 0.1 in
  foldl (fun (acc : list Car * gmap string RoutingDecision) ic =>
           let '(done, rd) := acc in
           let '(car', rd') :=
             updateCar rd (draws ic.1) (clock ic.1) ic.2 streets locations
               trafficLights cappedDeltaTime cars in
           (done ++ [car'], rd'))
    ([], routingDecisions) (imap (fun i c => (i, c)) cars).

(** [clearRoutingCache] *)
Definition clearRoutingCache (routingDecisions : gmap string RoutingDecision)
  : gmap string RoutingDecision := ∅.

End Geometry.

End CarManager.

(** ** The tick driver (the animation loop of the Canvas component) *)

Module Canvas.
Import TrafficLight CarManager.

(** Light objects are shared between arrays: [updateTrafficLights] mutates
    the objects of the array it is given and returns a new array of the
    same objects. The objects live in a heap, and an array of lights is a
    list of addresses. *)
Abbreviation Heap := (list Light).
Abbreviation LightArray := (list nat).

(** The lights an array holds, as they are now. *)
Definition deref (heap : Heap) (lights : LightArray) : list Light :=
  omap (fun a => heap !! a) lights.

(** The objects of [lights] receive the values [vals]. *)
Definition store (heap : Heap) (lights : LightArray) (vals : list Light)
  : Heap :=
  foldl (fun h (av : nat * Light) => <[av.1 := av.2]> h) heap
    (zip lights vals).

Section Driver.

Variables (hypot atan2 : Q -> Q -> Q) (cos sin : Q -> Q) (PI : Q).
Variable collectApproachingCarsData :
  string -> list Car -> list Street -> list Location -> list Light
  -> list ApproachingCar.

(** [updateTrafficLights] on an array of light objects: the objects are
    updated in place and the array returned holds the same objects. *)
Definition updateTrafficLightsInPlace (clock : nat -> Z) (heap : Heap)
    (lights : LightArray) (deltaTime : Q) (isSmartControl : bool)
    (cars : list Car) (streets : list Street) (locations : list Location)
  : Heap * LightArray :=
  (store heap lights
     (updateTrafficLights collectApproachingCarsData clock
        (deref heap lights) deltaTime isSmartControl cars streets
        locations),
   lights).

(** What the closure [runSimulation] has captured from the render in
    which its effect ran. *)
Record Closure := mkClosure {
  trafficLights : LightArray;
  localCars : list Car;
  isSmartControl : bool;
  streets : list Street;
  locations : list Location
}.

(** What one frame takes from outside: the elapsed time, the clocks and
    the random draws. *)
Record Frame := mkFrame {
  deltaTime : Q;
  now : Z;
  lightClock : nat -> Z;
  carClock : nat -> Z;
  carDraws : nat -> Draws
}.

(** The updater passed to [setTrafficLights]. *)
Definition updateLights (cl : Closure) (fr : Frame) (heap : Heap)
    (prevLights : LightArray) : Heap * LightArray :=
  match prevLights with
  | [] => (heap, prevLights)
  | _ :: _ =>
      updateTrafficLightsInPlace (lightClock fr) heap prevLights
        (deltaTime fr) (isSmartControl cl) (localCars cl) (streets cl)
        (locations cl)
  end.

(** The lights [simulateTraffic] is given: the array the closure has
    captured, with the objects as they are when the updater runs. *)
Definition lightsSeenByCars (cl : Closure) (heap : Heap) : list Light :=
  deref heap (trafficLights cl).

(** The updater passed to [setLocalCars]: the cars are simulated, the
    completed ones marked as counted, the stuck and the old ones
    removed. (The metrics it reports are computed from the result and
    handed to the metrics panel.) *)
Definition updateCars (cl : Closure) (fr : Frame) (heap : Heap)
    (routingDecisions : gmap string RoutingDecision)
    (prevCars : list Car)
  : list Car * gmap string RoutingDecision :=
  match prevCars with
  | [] => (prevCars, routingDecisions)
  | _ :: _ =>
      let '(updatedCars0, routingDecisions') :=
        simulateTraffic hypot atan2 cos sin PI routingDecisions
          (carDraws fr) (carClock fr) prevCars (streets cl)
          (locations cl) (lightsSeenByCars cl heap) (deltaTime fr)
          (isSmartControl cl) in
      let updatedCars :=
        map (fun car => if reachedDestination car && negb (counted car)
                        then set_counted true car else car)
          updatedCars0 in
      let STUCK_THRESHOLD := 30%Q in
      let stuckCars :=
        filter (fun car => reachedDestination car = false
                           /\ (STUCK_THRESHOLD < timeNotMoving car)%Q
                           /\ (speed car < 0.01)%Q)
          updatedCars in
      let carsAfterStuckRemoval :=
        filter (fun car => ~ Exists (fun stuckCar =>
                                       car_id stuckCar = car_id car)
                               stuckCars)
          updatedCars in
      let MAX_CAR_LIFETIME := 300000%Z in
      let cleanedCars :=
        filter (fun car => (now fr - createdAt car <= MAX_CAR_LIFETIME)%Z)
          carsAfterStuckRemoval in
      (cleanedCars, routingDecisions')
  end.

(** One frame of [runSimulation], the two updaters run in the order in
    which they are queued: first the lights, then the cars.
    [prevLights] and [prevCars] are the states the updaters are handed;
    they are the captured [trafficLights] and [localCars] unless
    another update of the state is pending. *)
Definition runSimulation (cl : Closure) (fr : Frame) (heap : Heap)
    (routingDecisions : gmap string RoutingDecision)
    (prevLights : LightArray) (prevCars : list Car)
  : Heap * LightArray * list Car * gmap string RoutingDecision :=
  let '(heap', newLights) := updateLights cl fr heap prevLights in
  let '(newCars, routingDecisions') :=
    updateCars cl fr heap' routingDecisions prevCars in
  (heap', newLights, newCars, routingDecisions').

End Driver.

End Canvas.

(** ** Concrete intersections used to exercise the engine *)

Module Scenarios.
Import TrafficLight.

(** A light as [createIntersectionTrafficLights] leaves it, at the
    intersection "X". *)
Definition lightAt (name group : string) (s : LightState) (t : Q) : Light :=
  mkLight ("light-" +:+ name) "X" ("street-" +:+ name) s t 0%Q (Some group)
    (Some ("crossing-X-" +:+ group)) None None 0%Z.

(** Four streets towards the north, east, south and west: the greedy
    pairing yields the two groups opposite-X-0 and opposite-X-1. *)
Definition fourWay : list Light :=
  [ lightAt "n" "opposite-X-0" green 0.3%Q;
    lightAt "e" "opposite-X-1" red 1.5%Q;
    lightAt "s" "opposite-X-0" green 1.1%Q;
    lightAt "w" "opposite-X-1" red 0.2%Q ].

(** Five streets, towards (0,1), (2,1), (1,0), (0,-1) and (-2,-1) seen
    from the intersection: streets 0 and 3 are opposite, streets 1 and 4
    are opposite, and street 2 keeps the group "east-west" it received
    from its angle. The group of the first light starts green. *)
Definition fiveWay : list Light :=
  [ lightAt "a" "opposite-X-0" green 0.3%Q;
    lightAt "b" "opposite-X-1" red 1.5%Q;
    lightAt "c" "east-west" red 0.7%Q;
    lightAt "d" "opposite-X-0" green 1.1%Q;
    lightAt "e" "opposite-X-1" red 0.2%Q ].

(** A four-way intersection at which every light has been red for five
    seconds. *)
Definition fourWayAllRed : list Light :=
  [ lightAt "n" "opposite-X-0" red 5%Q;
    lightAt "e" "opposite-X-1" red 5%Q;
    lightAt "s" "opposite-X-0" red 5%Q;
    lightAt "w" "opposite-X-1" red 5%Q ].

(** The five-street intersection, its unpaired street pointing north,
    with every light red for five seconds. *)
Definition fiveWayAllRed : list Light :=
  [ lightAt "a" "opposite-X-0" red 5%Q;
    lightAt "b" "opposite-X-1" red 5%Q;
    lightAt "c" "north-south" red 5%Q;
    lightAt "d" "opposite-X-0" red 5%Q;
    lightAt "e" "opposite-X-1" red 5%Q ].

(** A light that has been yellow for 0.45 s, at an intersection whose
    last smart evaluation took place at 1000 ms. *)
Definition yellowLight : Light :=
  set_lastSmartUpdate (Some 1000%Z)
    (lightAt "n" "opposite-X-0" yellow 0.45%Q).

(** No car approaches any intersection. *)
Definition noCars : string -> unit -> unit -> unit -> list Light
                    -> list ApproachingCar :=
  fun _ _ _ _ _ => [].

(** A tick of a tenth of a second under fixed-timer control. *)
Definition fixedTick : Tick unit unit unit :=
  mkTick unit unit unit (fun _ => 0%Z) 0.1%Q false tt tt tt.

(** A tick of a tenth of a second under smart control, [ms] milliseconds
    after the epoch. *)
Definition smartTick (ms : Z) : Tick unit unit unit :=
  mkTick unit unit unit (fun _ => ms) 0.1%Q true tt tt tt.

(** A hundred ticks under smart control, a tenth of a second apart. *)
Definition tenSmartSeconds : list (Tick unit unit unit) :=
  map (fun k => smartTick (100 * Z.of_nat k)) (seq 1 100).

(** A T-junction: the streets to the north and to the south are paired,
    the street to the east keeps the group it received from its angle.
    The paired lights have been green for 9.95 s. *)
Definition threeWay : list Light :=
  [ lightAt "n" "opposite-X-0" green 9.95%Q;
    lightAt "e" "east-west" red 9.95%Q;
    lightAt "s" "opposite-X-0" green 9.95%Q ].

(** A T-junction whose unpaired street points north, with every light red
    for five seconds. *)
Definition threeWayAllRed : list Light :=
  [ lightAt "e" "opposite-X-0" red 5%Q;
    lightAt "n" "north-south" red 5%Q;
    lightAt "w" "opposite-X-0" red 5%Q ].

(** A hundred and one cars approach on one street, a second apart. *)
Definition manyCars : list ApproachingCar :=
  map (fun k => mkApproachingCar ("car-" +:+ pretty k) "street-n" 1%Q
                  (inject_Z (Z.of_nat k)))
    (seq 1 101).

(** Three cars, two of them expected at the same time. *)
Definition threeCars : list ApproachingCar :=
  [ mkApproachingCar "car-1" "street-n" 1%Q 4%Q;
    mkApproachingCar "car-2" "street-e" 1%Q 2.5%Q;
    mkApproachingCar "car-3" "street-s" 1%Q 4%Q ].

Import CarManager.

(** The geometry functions on the directions of the axes, with 3.14159
    for pi: all the streets below run along an axis. *)
Definition PIq : Q := 3.14159%Q.

Definition axisHypot (x y : Q) : Q := (Qabs x + Qabs y)%Q.

Definition axisAtan2 (y x : Q) : Q :=
  if Qeq_bool y 0 then (if Qle_bool 0 x then 0%Q else PIq)
  else if Qle_bool 0 y then (PIq / 2)%Q else (- (PIq / 2))%Q.

Definition axisCos (a : Q) : Q :=
  if Qeq_bool a 0 then 1%Q
  else if Qeq_bool a PIq || Qeq_bool a (- PIq) then (-1)%Q else 0%Q.

Definition axisSin (a : Q) : Q :=
  if Qeq_bool a (PIq / 2) then 1%Q
  else if Qeq_bool a (- (PIq / 2)) || Qeq_bool a (PIq + PIq / 2)
  then (-1)%Q else 0%Q.

(** Two towns and the street between them. *)
Definition twoTowns : list Location :=
  [ mkLocation "west" 0%Q 0%Q; mkLocation "east" 1000%Q 0%Q ].

Definition mainStreet : list Street := [ mkStreet "main" "west" "east" ].

(** A car on the main street, driving east, at [p] with speed [v]. *)
Definition carOn (id : string) (p v : Q) : Car :=
  mkCar id "west" "east" "main" forward p v 1%Q 1%Q 0%Z false false 0%Z
    0%Q None [] None false 0%Z 0%Q 0%Z None 0%Q 0%Z 0%Q None None.

Definition noDraws : Draws := mkDraws 0%Q 0%Q 0%Q 0%Q 0%Q 0%Q.

(** A car about to reach the east end, close behind a car that stands
    there. *)
Definition follower : Car := carOn "car-1" 0.999%Q 1%Q.
Definition leader : Car := carOn "car-2" 0.9995%Q 0%Q.

(** A free car in the middle of the street. *)
Definition cruiser : Car := carOn "car-4" 0.5%Q 0.5%Q.

(** A car that has been standing for five seconds in the middle of the
    street. *)
Definition standing : Car := set_timeNotMoving 5%Q (carOn "car-3" 0.5%Q 0%Q).

(** A crossroads. *)
Definition crossroads : list Location :=
  [ mkLocation "X" 0%Q 0%Q; mkLocation "N" 0%Q 100%Q;
    mkLocation "E" 100%Q 0%Q; mkLocation "S" 0%Q (-100)%Q;
    mkLocation "W" (-100)%Q 0%Q ].

Definition crossStreets : list Street :=
  [ mkStreet "street-n" "X" "N"; mkStreet "street-e" "X" "E";
    mkStreet "street-s" "S" "X"; mkStreet "street-w" "W" "X" ].

Import Canvas.

(** Nobody approaches any intersection. *)
Definition nobodyApproaches
  : string -> list Car -> list Street -> list Location -> list Light
    -> list ApproachingCar :=
  fun _ _ _ _ _ => [].

(** A frame of a tenth of a second at 1000 ms. *)
Definition aFrame : Frame :=
  mkFrame 0.1%Q 1000%Z (fun _ => 1000%Z) (fun _ => 1000%Z)
    (fun _ => noDraws).

(** The light objects of the T-junction "X" (addresses 0 to 2), and the
    four objects created when a fourth street was connected to it
    (addresses 3 to 6). *)
Definition rebuiltHeap : Heap := threeWay ++ fourWay.

(** The closure of a render in which the state held the three old
    lights. *)
Definition oldClosure : Closure :=
  mkClosure [0; 1; 2] [] false crossStreets crossroads.

(** The closure of a render in which the state held the four new
    lights. *)
Definition newClosure : Closure :=
  mkClosure [3; 4; 5; 6] [] false crossStreets crossroads.

End Scenarios.

(** ** The notions the properties are stated with *)

Module LightNotions.
Import TrafficLight.

(** A light that is not red: green, yellow or waiting. *)
Definition active (l : Light) : Prop := state l ≠ red.

(** No two lights of the store have the same id. *)
Definition UniqueIds (ls : list Light) : Prop :=
  ∀ i j a b, ls !! i = Some a → ls !! j = Some b →
             light_id a = light_id b → i = j.

(** Every light has its opposite group. *)
Definition Grouped (ls : list Light) : Prop :=
  ∀ i a, ls !! i = Some a → JS.truthy (oppositeGroupId a) = true.

(** The lights of every location fall into at most two opposite groups. *)
Definition TwoGroups (ls : list Light) : Prop :=
  ∀ i j k a b c,
    ls !! i = Some a → ls !! j = Some b → ls !! k = Some c →
    locationId a = locationId b → locationId a = locationId c →
    oppositeGroupId a = oppositeGroupId b
    ∨ oppositeGroupId a = oppositeGroupId c
    ∨ oppositeGroupId b = oppositeGroupId c.

(** The phase invariant: the lights of one location that are not red
    belong to one group and are in one state. *)
Definition Agree (ls : list Light) : Prop :=
  ∀ i j a b, ls !! i = Some a → ls !! j = Some b →
             locationId a = locationId b → active a → active b →
             oppositeGroupId a = oppositeGroupId b ∧ state a = state b.

(** Every light at [loc] is red. *)
Definition AllRedAt (loc : string) (ls : list Light) : Prop :=
  ∀ k a, ls !! k = Some a → locationId a = loc → state a = red.

(** [a'] is the light [a] at a later time: the fields no update writes
    once the group is set. *)
Definition sameStatic (a a' : Light) : Prop :=
  light_id a' = light_id a ∧ locationId a' = locationId a
  ∧ oppositeGroupId a' = oppositeGroupId a.

Definition Static (ls ls' : list Light) : Prop := Forall2 sameStatic ls ls'.

(** A step that changes neither a static field nor a state. *)
Definition Quiet (a a' : Light) : Prop := sameStatic a a' ∧ state a' = state a.

(** The lights at [loc] in state [from] move to [to]. *)
Definition moveAt (loc : string) (from to : LightState)
    (l : string) (s : LightState) : LightState :=
  if bool_decide (l = loc ∧ s = from) then to else s.

(** The bundle of invariants; [two] records whether the lights of every
    location are known to fall into at most two groups. *)
Definition Inv (two : bool) (ls : list Light) : Prop :=
  UniqueIds ls ∧ Grouped ls ∧ Agree ls ∧ (two = true → TwoGroups ls).

(** The store once [updateTrafficLight] has advanced the timer of light
    [i] and set its group if it had none. *)
Definition prepared (i : nat) (dt : Q) (light0 : Light) (ls : list Light)
  : list Light :=
  let s1 := alter (λ l, set_timer (timer l + dt)%Q l) i ls in
  if negb (JS.truthy (oppositeGroupId light0))
     && bool_decide (0 < length (intersectionLightsOf (locationId light0) s1))
  then alter (λ l, set_oppositeGroupId (fallbackGroup (angle l)) l) i s1
  else s1.

(** [g] is a group with the highest score, and that score is positive. *)
Definition IsHighest (pairScores : list (string * Z)) (g : string) : Prop :=
  ∃ s, (g, s) ∈ pairScores ∧ (0 < s)%Z
       ∧ ∀ g' s', (g', s') ∈ pairScores → (s' ≤ s)%Z.

Definition NoPositiveScore (pairScores : list (string * Z)) : Prop :=
  ∀ g s, (g, s) ∈ pairScores → (s ≤ 0)%Z.

(** The lights at [loc] are four or more and one of them belongs to the
    group "north-south". *)
Definition Validated (loc : string) (ls : list Light) : Prop :=
  4 ≤ length (intersectionLightsOf loc ls)
  ∧ ∃ k l, ls !! k = Some l ∧ locationId l = loc
           ∧ oppositeGroupId l = Some "north-south".

(** Some light at [loc] is not red, or has been red for 3 seconds at
    most. *)
Definition Live (loc : string) (ls : list Light) : Prop :=
  ∃ k l, ls !! k = Some l ∧ locationId l = loc
         ∧ (state l ≠ red ∨ (timer l <= 3)%Q).

(** What every step keeps of a light: its location, and its group once it
    is "north-south". *)
Definition keepsNorthSouth (a a' : Light) : Prop :=
  locationId a' = locationId a
  ∧ (oppositeGroupId a = Some "north-south"
     → oppositeGroupId a' = Some "north-south").

(** [a] is expected no later than [b]. *)
Definition arrivesBy (a b : ApproachingCar) : Prop :=
  (estimatedArrivalTime a <= estimatedArrivalTime b)%Q.

(** The number of cars of [l] expected strictly earlier than [c]. *)
Definition earlier (c : ApproachingCar) (l : list ApproachingCar) : nat :=
  length (filter (λ d, (estimatedArrivalTime d < estimatedArrivalTime c)%Q) l).

(** The points the ranked cars on street [sid] add up to. *)
Definition contributions (sid : string) (rankedCars : list RankedCar) : Z :=
  foldr (λ c acc, (carScore c + acc)%Z) 0%Z
    (filter (λ c, car_streetId (carData c) = sid) rankedCars).

End LightNotions.

Module CarNotions.
Import CarManager.

(** A value [Math.random()] can return. *)
Definition isDraw (r : Q) : Prop := (0 <= r)%Q ∧ (r < 1)%Q.

(** The car is held at the end of its street: it is at or beyond the end
    it drives towards, on the same street, and it is either (almost)
    standing or another car was found ahead of it or crossing. *)
Definition HeldAtEnd (hypot atan2 : Q → Q → Q) (cos sin : Q → Q) (PI : Q)
    (car car' : Car) (allCars : list Car) (streets : list Street)
    (locations : list Location) : Prop :=
  currentStreetId car' = currentStreetId car
  ∧ direction car' = direction car
  ∧ match direction car with
    | forward => (1 <= progress car')%Q
    | backward => (progress car' <= 0)%Q
    end
  ∧ ((speed car' <= 0.01)%Q
     ∨ is_Some (findCarAhead car allCars)
     ∨ is_Some (findCrossTrafficCar hypot atan2 cos sin PI car allCars
                  streets locations)).

End CarNotions.

Module CanvasNotions.
Import TrafficLight CarManager Canvas.

(** The light states a frame's [updateTrafficLights] produces from the
    array the light updater is handed. *)
Definition produced
    (collectApproachingCarsData :
       string → list Car → list Street → list Location → list Light
       → list ApproachingCar)
    (cl : Closure) (fr : Frame) (heap : list Light)
    (prevLights : list nat) : list Light :=
  match prevLights with
  | [] => []
  | _ :: _ =>
      updateTrafficLights collectApproachingCarsData (lightClock fr)
        (deref heap prevLights) (deltaTime fr) (isSmartControl cl)
        (localCars cl) (streets cl) (locations cl)
  end.

End CanvasNotions.

(** ** Further notions about the lights *)

Module MoreLightNotions.
Import TrafficLight.

(** [a'] is the light [a] after some updates: its id, location, street,
    angle and crossing group are those of [a], and so is its opposite
    group if [a] has one. *)
Definition keepsIdentity (a a' : Light) : Prop :=
  light_id a' = light_id a ∧ locationId a' = locationId a
  ∧ streetId a' = streetId a ∧ angle a' = angle a
  ∧ crossingGroupId a' = crossingGroupId a
  ∧ (JS.truthy (oppositeGroupId a) = true
     → oppositeGroupId a' = oppositeGroupId a).

(** A timer that is not negative stays so. *)
Definition keepsTimerSign (a a' : Light) : Prop :=
  (0 <= timer a)%Q → (0 <= timer a')%Q.

(** The number of green lights at [loc]. *)
Definition greensAt (loc : string) (ls : list Light) : nat :=
  length (filter (λ l, state l = green) (intersectionLightsOf loc ls)).

(** Some light at [loc] is not red. *)
Definition SomeNotRedAt (loc : string) (ls : list Light) : Prop :=
  Exists (λ l, state l ≠ red) (intersectionLightsOf loc ls).

(** At most two lights are green at [loc], or every green light there
    belongs to the group "north-south". *)
Definition greensLimited (loc : string) (ls : list Light) : Prop :=
  greensAt loc ls ≤ 2
  ∨ Forall (λ l, state l = green → oppositeGroupId l = Some "north-south")
      (intersectionLightsOf loc ls).

(** The group of the first green light, [null] if no light is green
    ([currentGreenGroup] in [makeTrafficLightDecision]). *)
Definition firstGreenGroup (ls : list Light) : option string :=
  match filter (λ l, state l = green) ls with
  | l :: _ => oppositeGroupId l
  | [] => None
  end.

(** Cars approach, fewer than a hundred, and only on streets whose
    lights belong to the group [g]. *)
Definition DemandOnlyOn (g : string) (approaching : list ApproachingCar)
    (ls : list Light) : Prop :=
  approaching ≠ [] ∧ length approaching < 100
  ∧ ∀ c, c ∈ approaching →
         (∃ l, l ∈ ls ∧ streetId l = car_streetId c)
         ∧ ∀ l, l ∈ ls → streetId l = car_streetId c
                → oppositeGroupId l = Some g.

End MoreLightNotions.

(** ** Building the lights of an intersection (trafficLightManager.js) *)

Module LightConstruction.
Import TrafficLight CarManager.

Definition set_crossingGroupId (g : option string) (l : Light) : Light :=
  mkLight (light_id l) (locationId l) (streetId l) (state l) (timer l)
    (angle l) (oppositeGroupId l) g (smartSwitchTarget l)
    (lastSmartUpdate l) (lastStateChange l).

(** [`light-${Date.now()}-${Math.floor(Math.random() * 10000)}`] *)
Definition lightId (now : Z) (r : Q) : string :=
  "light-" +:+ pretty now +:+ "-" +:+ pretty (Qfloor (r * 10000)).

(** [createTrafficLight]: [nowId] and [nowChange] are the two readings
    of [Date.now()] and [r] is the draw of [Math.random()]. The fields
    the engine never reads (the default durations and the coordinates)
    are left out, as they are in [Light]. *)
Definition createTrafficLight (nowId nowChange : Z) (r : Q)
    (locationId streetId : string) (angle : Q) : Light :=
  mkLight (lightId nowId r) locationId streetId red 0%Q angle None None
    None None nowChange.

(** The end of [street] that is not [locationId]. *)
Definition otherEnd (locationId : string) (street : Street) : string :=
  if decide (from street = locationId) then to street else from street.

(** A pair of streets by their indices, with how far the pair is from
    being opposite. *)
Record Pair := mkPair {
  pair_i : nat;
  pair_j : nat;
  oppositeScore : Q
}.

(** [pairs.sort((a, b) => a.oppositeScore - b.oppositeScore)]: a stable
    sort, so the result is the one of a stable insertion sort. *)
Fixpoint insertPair (p : Pair) (l : list Pair) : list Pair :=
  match l with
  | [] => [p]
  | q :: r =>
      if JS.leb (oppositeScore p) (oppositeScore q)
      then p :: q :: r
      else q :: insertPair p r
  end.

Fixpoint sortPairs (l : list Pair) : list Pair :=
  match l with
  | [] => []
  | p :: r => insertPair p (sortPairs r)
  end.

(** The state of the loop that selects the pairs: the groups chosen so
    far, the indices used, and whether the loop has reached its
    [break]. *)
Record Selection := mkSelection {
  oppositeGroups : list (nat * nat);
  usedIndices : list nat;
  stopped : bool
}.

(** The body of [for (const pair of pairs)] for [n] streets. *)
Definition takePair (n : nat) (acc : Selection) (p : Pair) : Selection :=
  if stopped acc then acc
  else if bool_decide (pair_i p ∈ usedIndices acc
                       ∨ pair_j p ∈ usedIndices acc)
  then acc
  else
    let used := usedIndices acc ++ [pair_i p; pair_j p] in
    mkSelection (oppositeGroups acc ++ [(pair_i p, pair_j p)]) used
      (bool_decide (n ≤ length used)).

(** [`opposite-${intersection.id}-${groupIndex}`] *)
Definition oppositeGroupName (locationId : string) (groupIndex : nat)
  : string :=
  "opposite-" +:+ locationId +:+ "-" +:+ pretty groupIndex.

(** The lights of the streets of one group receive the group's id; an
    index beyond the lights is skipped. *)
Definition assignGroup (locationId : string) (lights : list Light)
    (groupIndex : nat) (group : nat * nat) : list Light :=
  let groupId := Some (oppositeGroupName locationId groupIndex) in
  alter (set_oppositeGroupId groupId) group.2
    (alter (set_oppositeGroupId groupId) group.1 lights).

(** [a'] is [a] with its opposite group kept or replaced by the name of
    a selected group of the intersection [locationId]. *)
Definition regrouped (locationId : string) (a a' : Light) : Prop :=
  exists g, a' = set_oppositeGroupId g a
            /\ (g = oppositeGroupId a
                \/ exists gi, g = Some (oppositeGroupName locationId gi)).

(** [a'] is [a] after [assignTrafficLightGroups]: regrouped, and with
    its crossing group kept or set. *)
Definition grouped (locationId : string) (a a' : Light) : Prop :=
  exists b, regrouped locationId a b
            /\ (a' = b \/ exists c, a' = set_crossingGroupId c b).

Section Construction.

Variables (atan2 : Q -> Q -> Q) (PI : Q).

(** The angle from the intersection to the other end of [street];
    [None] when that location is not known. *)
Definition angleTo (location : Location) (locations : list Location)
    (street : Street) : option Q :=
  otherLocation ← findLocation (otherEnd (loc_id location) street) locations;
  Some (atan2 (loc_y otherLocation - loc_y location)
              (loc_x otherLocation - loc_x location)).

(** How close two directions are to being opposite. *)
Definition oppositeScoreOf (angle1 angle2 : Q) : Q :=
  let angleDiff := Qabs (angle1 - angle2) in
  let normalizedDiff := Qmin angleDiff (2 * PI - angleDiff) in
  Qabs (normalizedDiff - PI).

(** The two nested loops over [i < j]. *)
Definition allPairs (streetAngles : list Q) : list Pair :=
  let n := length streetAngles in
  flat_map
    (fun i =>
       map (fun j =>
              mkPair i j
                (oppositeScoreOf (default 0%Q (streetAngles !! i))
                   (default 0%Q (streetAngles !! j))))
         (seq (S i) (n - S i)))
    (seq 0 n).

(** [assignTrafficLightGroups] *)
Definition assignTrafficLightGroups (lights : list Light)
    (streets : list Street) (intersection : Location)
    (locations : list Location) : list Light :=
  let streetAngles :=
    map (fun street => default 0%Q (angleTo intersection locations street))
      streets in
  let pairs := sortPairs (allPairs streetAngles) in
  let selection :=
    foldl (takePair (length streetAngles)) (mkSelection [] [] false) pairs in
  let lights1 :=
    foldl (fun ls (ig : nat * (nat * nat)) =>
             assignGroup (loc_id intersection) ls ig.1 ig.2)
      lights (imap (fun i g => (i, g)) (oppositeGroups selection)) in
  map (fun light =>
         if bool_decide
              (Exists (fun otherLight =>
                         oppositeGroupId otherLight <> oppositeGroupId light)
                 lights1)
         then set_crossingGroupId
                (Some ("crossing-" +:+ loc_id intersection +:+ "-"
                       +:+ groupKey (oppositeGroupId light)))
                light
         else light)
    lights1.

(** The light of the [k]-th connected street; no light is made for a
    street whose other end is not known. *)
Definition lightFor (nowId nowChange : nat -> Z) (idDraw : nat -> Q)
    (location : Location) (locations : list Location) (k : nat)
    (street : Street) : option Light :=
  angle ← angleTo location locations street;
  let lightAngle := (angle + PI / 2)%Q in
  let light :=
    createTrafficLight (nowId k) (nowChange k) (idDraw k) (loc_id location)
      (street_id street) (lightAngle * 180 / PI) in
  let normalizedAngle := JS.rem (angle * 180 / PI + 360) 360 in
  Some (set_oppositeGroupId
          (Some (if isNorthSouth normalizedAngle
                 then "north-south" else "east-west"))
          light).

(** [createIntersectionTrafficLights]. [nowId k], [nowChange k] and
    [idDraw k] are the readings of the clock and the draw while the light
    of street [k] is made; [timerDraw k] is the draw for the timer of
    light [k]. *)
Definition createIntersectionTrafficLights (nowId nowChange : nat -> Z)
    (idDraw timerDraw : nat -> Q) (location : Location)
    (connectedStreets : list Street) (locations : list Location)
  : list Light :=
  if bool_decide (length connectedStreets <= 2) then []
  else
    let lights0 :=
      omap id (imap (lightFor nowId nowChange idDraw location locations)
                 connectedStreets) in
    let lights1 :=
      if bool_decide (2 <= length lights0)
      then assignTrafficLightGroups lights0 connectedStreets location
             locations
      else lights0 in
    match lights1 with
    | [] => []
    | first :: _ =>
        let greenGroupId := oppositeGroupId first in
        imap (fun k light =>
                set_timer (timerDraw k * 2)%Q
                  (set_state
                     (if decide (oppositeGroupId light = greenGroupId)
                      then green else red)
                     light))
          lights1
    end.

(** The groups [assignTrafficLightGroups] selects for the streets. *)
Definition selectedGroups (streets : list Street) (intersection : Location)
    (locations : list Location) : list (nat * nat) :=
  let streetAngles :=
    map (fun street => default 0%Q (angleTo intersection locations street))
      streets in
  oppositeGroups
    (foldl (takePair (length streetAngles)) (mkSelection [] [] false)
       (sortPairs (allPairs streetAngles))).

(** The other end of every connected street is a known location. *)
Definition AllEndsKnown (location : Location) (streets : list Street)
    (locations : list Location) : Prop :=
  Forall (fun s => is_Some (findLocation (otherEnd (loc_id location) s)
                              locations))
    streets.

End Construction.

End LightConstruction.

Module MoreScenarios.
Import TrafficLight CarManager LightConstruction Scenarios.

(** Clock readings and draws for the lights of one intersection: the
    clock stands at 1000 ms, the id draws differ, the timers start at a
    quarter of their range. *)
Definition idDraws (k : nat) : Q := (inject_Z (Z.of_nat k) / 10)%Q.
Definition steadyClock (k : nat) : Z := 1000%Z.
Definition quarterDraws (k : nat) : Q := 0.25%Q.

(** The lights of the crossroads "X" of [crossroads]. *)
Definition crossroadsLights : list Light :=
  createIntersectionTrafficLights axisAtan2 PIq steadyClock steadyClock
    idDraws quarterDraws (mkLocation "X" 0%Q 0%Q) crossStreets crossroads.

(** A car approaches the crossroads from the east, and nobody else. *)
Definition eastCars : list ApproachingCar :=
  [ mkApproachingCar "car-2" "street-e" 1%Q 2.5%Q ].

Definition eastDemand : string -> unit -> unit -> unit -> list Light
                        -> list ApproachingCar :=
  fun _ _ _ _ _ => eastCars.

(** A block of four streets around the corners "A", "B", "C" and "D",
    with a spur from "A" to the only parking lot "P". *)
Definition blockWithSpur : list Location :=
  [ mkLocation "A" 0%Q 0%Q; mkLocation "B" 100%Q 0%Q;
    mkLocation "C" 100%Q 100%Q; mkLocation "D" 0%Q 100%Q;
    mkLocation "P" (-100)%Q 0%Q ].

Definition spurStreets : list Street :=
  [ mkStreet "street-ab" "A" "B"; mkStreet "street-bc" "B" "C";
    mkStreet "street-cd" "C" "D"; mkStreet "street-da" "D" "A";
    mkStreet "street-p" "A" "P" ].

(** A car about to reach the parking lot at the end of the spur. *)
Definition lastCar : Car :=
  mkCar "car-9" "A" "P" "street-p" forward 0.999%Q 1%Q 1%Q 1%Q 0%Z false
    false 0%Z 0%Q None [] None false 0%Z 0%Q 0%Z None 0%Q 0%Z 0%Q None None.

(** Cars around the crossroads "X": one comes from the south, a slower
    one stands ahead of it, one drives away to the east, one has
    arrived. *)
Definition carAt (id street : string) (dir : Direction) (p v : Q)
    (arrived : bool) : Car :=
  mkCar id "S" "N" street dir p v 1%Q 1%Q 0%Z arrived false 0%Z 0%Q None []
    None false 0%Z 0%Q 0%Z None 0%Q 0%Z 0%Q None None.

Definition crossCars : list Car :=
  [ carAt "car-1" "street-s" forward 0.5%Q 1%Q false;
    carAt "car-2" "street-s" forward 0.7%Q 0%Q false;
    carAt "car-3" "street-e" forward 0.5%Q 1%Q false;
    carAt "car-4" "street-n" backward 0.5%Q 1%Q true ].

End MoreScenarios.

(** ** Notions for the vehicle engine *)

Module MoreCarNotions.
Import CarManager.

(** [other] is another active car on the street of [car], driving in the
    same direction and strictly further along it. *)
Definition aheadOf (car other : Car) : Prop :=
  car_id other <> car_id car
  /\ currentStreetId other = currentStreetId car
  /\ direction other = direction car
  /\ reachedDestination other = false
  /\ match direction car with
     | forward => (progress car < progress other)%Q
     | backward => (progress other < progress car)%Q
     end.

(** How far apart two cars are along the street, as a share of it. *)
Definition gap (car other : Car) : Q := Qabs (progress other - progress car).

(** A speed between standstill and the larger of the cruising speed and
    the speed 0.1 at which a car enters a street. *)
Definition SpeedInRange (c : Car) : Prop :=
  (0 <= speed c)%Q /\ (speed c <= Qmax (cruisingSpeed c) 0.1)%Q.

(** [c'] is the car [c]: the fields that identify a car and its make
    are the same. *)
Definition sameCar (c c' : Car) : Prop :=
  car_id c' = car_id c /\ originalId c' = originalId c
  /\ createdAt c' = createdAt c /\ maxSpeed c' = maxSpeed c
  /\ preferredSpeed c' = preferredSpeed c.

(** A car the tick driver takes for stuck. *)
Definition stuck (c : Car) : Prop :=
  reachedDestination c = false /\ (30 < timeNotMoving c)%Q
  /\ (speed c < 0.01)%Q.

(** The locations with exactly one street other than [locationId]: the
    parking lots a car leaving the parking lot [locationId] can be sent
    to. *)
Definition otherParkingLots (locationId : string) (streets : list Street)
    (locations : list Location) : list Location :=
  filter (fun loc => length (connectedTo (loc_id loc) streets) = 1
                     /\ loc_id loc <> locationId)
    locations.

End MoreCarNotions.

(** ** The cars a smart intersection takes into account
    (trafficLightManager.js) *)

Module SmartTraffic.
Import TrafficLight CarManager.

(** What [isCarApproachingIntersection] returns when it has found the
    street of the car and both its ends. *)
Record Approach := mkApproach {
  approaching : bool;
  hasEnteredIntersection : bool;
  distanceToIntersection : Q;
  distanceInPixels : Q;
  approach_locationId : string
}.

(** [slowingCars.sort(...)] by the distance to the intersection in the
    direction of the car: a stable sort, so the result is the one of a
    stable insertion sort. *)
Definition distanceAlong (dir : Direction) (c : Car) : Q :=
  match dir with
  | forward => (1 - progress c)%Q
  | backward => progress c
  end.

Fixpoint insertByDistance (dir : Direction) (c : Car) (l : list Car)
  : list Car :=
  match l with
  | [] => [c]
  | d :: r =>
      if JS.leb (distanceAlong dir c) (distanceAlong dir d)
      then c :: d :: r
      else d :: insertByDistance dir c r
  end.

Fixpoint sortByDistance (dir : Direction) (l : list Car) : list Car :=
  match l with
  | [] => []
  | c :: r => insertByDistance dir c (sortByDistance dir r)
  end.

(** [findSlowingCars] (its arguments [street] and [approach] are only
    logged). *)
Definition findSlowingCars (car : Car) (allCars : list Car) : list Car :=
  let carsOnSameStreet :=
    filter (fun otherCar =>
              car_id otherCar <> car_id car
              /\ currentStreetId otherCar = currentStreetId car
              /\ direction otherCar = direction car
              /\ reachedDestination otherCar = false)
      allCars in
  let slowingCars :=
    filter (fun otherCar =>
              let isCarBetween :=
                match direction car with
                | forward =>
                    JS.gtb (progress otherCar) (progress car)
                    && JS.ltb (progress otherCar) 1
                | backward =>
                    JS.ltb (progress otherCar) (progress car)
                    && JS.gtb (progress otherCar) 0
                end in
              isCarBetween
              && (JS.ltb (speed otherCar) (speed car)
                  || JS.ltb (speed otherCar) 0.1) = true)
      carsOnSameStreet in
  sortByDistance (direction car) slowingCars.

(** [Math.min(...speeds)] of a list that is not empty, given by its
    first element and the others. *)
Definition minimum (first : Q) (others : list Q) : Q :=
  foldl Qmin first others.

Section Approaching.

Variable hypot : Q -> Q -> Q.

(** [isCarApproachingIntersection]; [None] is [{ approaching: false }],
    returned when the street or one of its ends is not found. *)
Definition isCarApproachingIntersection (car : Car) (streets : list Street)
    (locations : list Location) : option Approach :=
  street ← findStreet (currentStreetId car) streets;
  let approachingLocationId :=
    match direction car with
    | forward => to street
    | backward => from street
    end in
  approachingLocation ← findLocation approachingLocationId locations;
  let otherEndId :=
    match direction car with
    | forward => from street
    | backward => to street
    end in
  otherLocation ← findLocation otherEndId locations;
  let distanceToIntersection := distanceToEnd car in
  let streetLength :=
    hypot (loc_x approachingLocation - loc_x otherLocation)
          (loc_y approachingLocation - loc_y otherLocation) in
  let distanceInPixels := (distanceToIntersection * streetLength)%Q in
  let LOCATION_RADIUS := 20%Q in
  let hasEnteredIntersection := JS.ltb distanceInPixels LOCATION_RADIUS in
  let isApproaching := JS.ltb distanceToIntersection 0.9 in
  Some (mkApproach isApproaching hasEnteredIntersection
          distanceToIntersection distanceInPixels approachingLocationId).

(** [calculateEnhancedEstimatedArrivalTime]; [None] is [Infinity]. *)
Definition calculateEnhancedEstimatedArrivalTime (car : Car)
    (approach : Approach) (streets : list Street)
    (locations : list Location) (slowingCars : list Car) : option Q :=
  if JS.leb (distanceToIntersection approach) 0 then Some 0%Q
  else
    match findStreet (currentStreetId car) streets with
    | None => None
    | Some street =>
        match findLocation (from street) locations,
              findLocation (to street) locations with
        | Some fromLocation, Some toLocation =>
            let streetLength :=
              hypot (loc_x toLocation - loc_x fromLocation)
                    (loc_y toLocation - loc_y fromLocation) in
            let distanceInPixels :=
              (distanceToIntersection approach * streetLength)%Q in
            let effectiveSpeed := Qmax (speed car) 0.1 in
            let estimatedTime :=
              (distanceInPixels / (effectiveSpeed * 20))%Q in
            match map (fun c => Qmax (speed c) 0.05) slowingCars with
            | [] => Some estimatedTime
            | first :: others =>
                let slowestCarSpeed := minimum first others in
                if JS.ltb slowestCarSpeed effectiveSpeed then
                  let delayedSpeed := Qmax slowestCarSpeed 0.05 in
                  Some (distanceInPixels / (delayedSpeed * 20)
                        + inject_Z (Z.of_nat (length slowingCars)) * 0.5)%Q
                else Some estimatedTime
            end
        | _, _ => None
        end
    end.

(** What [collectApproachingCarsData] records for [car], if it records
    it. (The arrival time is a number here, never [Infinity]: the street
    and its ends have been found by [isCarApproachingIntersection].) *)
Definition approachingCarData (intersectionId : string) (cars : list Car)
    (streets : list Street) (locations : list Location)
    (intersectionStreets : list string) (car : Car)
  : option ApproachingCar :=
  if reachedDestination car then None
  else if negb (bool_decide (currentStreetId car ∈ intersectionStreets))
  then None
  else
    match isCarApproachingIntersection car streets locations with
    | None => None
    | Some approach =>
        if negb (approaching approach)
           || negb (bool_decide (approach_locationId approach
                                 = intersectionId))
        then None
        else
          match findStreet (currentStreetId car) streets with
          | None => None
          | Some street =>
              let slowingCars := findSlowingCars car cars in
              estimatedArrivalTime0 ←
                calculateEnhancedEstimatedArrivalTime car approach streets
                  locations slowingCars;
              let estimatedArrivalTime1 :=
                if JS.ltb (speed car) 0.1
                then (estimatedArrivalTime0 + 1)%Q
                else estimatedArrivalTime0 in
              let estimatedArrivalTime2 :=
                if bool_decide (nextTurn car = Some right)
                then (estimatedArrivalTime1 + 1)%Q
                else estimatedArrivalTime1 in
              Some (mkApproachingCar (car_id car) (currentStreetId car)
                      (speed car) estimatedArrivalTime2)
          end
    end.

(** [collectApproachingCarsData] *)
Definition collectApproachingCarsData (intersectionId : string)
    (cars : list Car) (streets : list Street) (locations : list Location)
    (intersectionLights : list Light) : list ApproachingCar :=
  let intersectionStreets := map streetId intersectionLights in
  omap (approachingCarData intersectionId cars streets locations
          intersectionStreets)
    cars.

(** [shouldStopAtLight] *)
Definition shouldStopAtLight (car : Car) (trafficLights : list Light)
    (streets : list Street) (locations : list Location) : bool :=
  let relevantLights :=
    filter (fun light => streetId light = currentStreetId car)
      trafficLights in
  match relevantLights with
  | [] => false
  | _ :: _ =>
      match isCarApproachingIntersection car streets locations with
      | None => false
      | Some approach =>
          if negb (approaching approach) then false
          else
            existsb
              (fun light =>
                 if negb (bool_decide (locationId light
                                       = approach_locationId approach))
                 then false
                 else if state_is red light
                 then negb (hasEnteredIntersection approach)
                 else if state_is yellow light
                 then negb (hasEnteredIntersection approach)
                 else false)
              relevantLights
      end
  end.

End Approaching.

End SmartTraffic.

(** ** Notions for the cars a smart intersection takes into account *)

Module SmartTrafficNotions.
Import TrafficLight CarManager SmartTraffic.

(** An active car on a street that has a light among [lights], driving
    towards the location [intersectionId] at the end of a street whose
    two ends are known, with less than nine tenths of the street to
    go. *)
Definition Approaches (intersectionId : string) (streets : list Street)
    (locations : list Location) (lights : list Light) (car : Car) : Prop :=
  reachedDestination car = false
  /\ currentStreetId car ∈ map streetId lights
  /\ exists street,
       findStreet (currentStreetId car) streets = Some street
       /\ is_Some (findLocation (from street) locations)
       /\ is_Some (findLocation (to street) locations)
       /\ match direction car with
          | forward => to street
          | backward => from street
          end = intersectionId
       /\ (distanceToEnd car < 0.9)%Q.

Global Instance Approaches_dec intersectionId streets locations lights car :
  Decision (Approaches intersectionId streets locations lights car).
Proof.
  unfold Approaches.
  destruct (findStreet (currentStreetId car) streets) as [street |] eqn:E.
  - destruct (decide (reachedDestination car = false
                      /\ currentStreetId car ∈ map streetId lights
                      /\ is_Some (findLocation (from street) locations)
                      /\ is_Some (findLocation (to street) locations)
                      /\ match direction car with
                         | forward => to street
                         | backward => from street
                         end = intersectionId
                      /\ (distanceToEnd car < 0.9)%Q)) as [H | H].
    + left. destruct H as (H1 & H2 & H3). split; [exact H1 |].
      split; [exact H2 |]. exists street. split; [reflexivity | exact H3].
    + right. intros (H1 & H2 & s & Hs & H3). apply H.
      injection Hs as <-. split; [exact H1 |]. split; [exact H2 | exact H3].
  - right. intros (_ & _ & s & Hs & _). discriminate Hs.
Defined.

End SmartTrafficNotions.

(** ** Helpers of the editor (helpers.js) *)

Module Helpers.
Import CarManager.

Record Point := mkPoint {
  pt_x : Q;
  pt_y : Q
}.

(** [getLineIntersection]; [None] is [null]. *)
Definition getLineIntersection (p1 p2 p3 p4 : Point) : option Point :=
  let a1 := (pt_y p2 - pt_y p1)%Q in
  let b1 := (pt_x p1 - pt_x p2)%Q in
  let c1 := (a1 * pt_x p1 + b1 * pt_y p1)%Q in
  let a2 := (pt_y p4 - pt_y p3)%Q in
  let b2 := (pt_x p3 - pt_x p4)%Q in
  let c2 := (a2 * pt_x p3 + b2 * pt_y p3)%Q in
  let determinant := (a1 * b2 - a2 * b1)%Q in
  if Qeq_bool determinant 0 then None
  else
    let x := ((b2 * c1 - b1 * c2) / determinant)%Q in
    let y := ((a1 * c2 - a2 * c1) / determinant)%Q in
    let onSegment1 :=
      JS.leb (Qmin (pt_x p1) (pt_x p2)) x
      && JS.leb x (Qmax (pt_x p1) (pt_x p2))
      && JS.leb (Qmin (pt_y p1) (pt_y p2)) y
      && JS.leb y (Qmax (pt_y p1) (pt_y p2)) in
    let onSegment2 :=
      JS.leb (Qmin (pt_x p3) (pt_x p4)) x
      && JS.leb x (Qmax (pt_x p3) (pt_x p4))
      && JS.leb (Qmin (pt_y p3) (pt_y p4)) y
      && JS.leb y (Qmax (pt_y p3) (pt_y p4)) in
    if onSegment1 && onSegment2 then Some (mkPoint x y) else None.

(** [`${baseName} ${counter}`] *)
Definition numberedName (baseName : string) (counter : nat) : string :=
  baseName +:+ " " +:+ pretty counter.

(** The loop of [generateUniqueName], entered with [counter]; [fuel]
    bounds the number of names it tries, and [None] stands for a loop
    that has not come to its end within that bound. *)
Fixpoint generateUniqueNameFrom (fuel : nat) (baseName : string)
    (existingNames : list string) (counter : nat) : option string :=
  match fuel with
  | 0 => None
  | S fuel' =>
      let newName := numberedName baseName counter in
      if bool_decide (newName ∈ existingNames)
      then generateUniqueNameFrom fuel' baseName existingNames (S counter)
      else Some newName
  end.

(** [generateUniqueName] *)
Definition generateUniqueName (fuel : nat) (baseName : string)
    (existingNames : list string) : option string :=
  generateUniqueNameFrom fuel baseName existingNames 1.

(** The characters of ['ABCDEFGHIJKLMNOPQRSTUVWXYZ'] and of
    ['0123456789']. *)
Definition letters : list string :=
  [ "A"; "B"; "C"; "D"; "E"; "F"; "G"; "H"; "I"; "J"; "K"; "L"; "M"; "N";
    "O"; "P"; "Q"; "R"; "S"; "T"; "U"; "V"; "W"; "X"; "Y"; "Z" ].

Definition digits : list string :=
  [ "0"; "1"; "2"; "3"; "4"; "5"; "6"; "7"; "8"; "9" ].

Definition allCombinations : list string :=
  flat_map (fun letter => map (fun digit => letter +:+ digit) digits)
    letters.

(** [generateUniqueLocationLabel]; [r] is the draw of [Math.random()].
    (An index outside the list, which a draw in [0, 1) never gives,
    yields [undefined], here [None].) *)
Definition generateUniqueLocationLabel (r : Q) (existingNames : list string)
  : option string :=
  let availableCombinations :=
    filter (fun label => label ∉ existingNames) allCombinations in
  match availableCombinations with
  | [] => None
  | _ :: _ =>
      availableCombinations
        !! randomIndex r (length availableCombinations)
  end.

End Helpers.

(** ** Notions for the helpers *)

Module HelperNotions.
Import Helpers.

(** The point [p] lies on the segment from [a] to [b]. *)
Definition onSegment (p a b : Point) : Prop :=
  exists t : Q,
    (0 <= t)%Q /\ (t <= 1)%Q
    /\ (pt_x p == pt_x a + t * (pt_x b - pt_x a))%Q
    /\ (pt_y p == pt_y a + t * (pt_y b - pt_y a))%Q.

(** The lines through [p1], [p2] and through [p3], [p4] are parallel,
    or one of the pairs is a single point. *)
Definition parallel (p1 p2 p3 p4 : Point) : Prop :=
  ((pt_y p2 - pt_y p1) * (pt_x p3 - pt_x p4)
   - (pt_y p4 - pt_y p3) * (pt_x p1 - pt_x p2) == 0)%Q.

End HelperNotions.

(** * Proofs *)

(** ** Facts about the comparisons *)

Module JSFacts.
Import JS.

Lemma ltb_lt a b : ltb a b = true <-> (a < b)%Q.
Proof.
  unfold ltb. rewrite negb_true_iff.
  destruct (Qle_bool b a) eqn:E.
  - apply Qle_bool_iff in E. split; [discriminate | intros H; exfalso; lra].
  - split; [intros _ | reflexivity].
    destruct (Qlt_le_dec a b) as [H | H]; [exact H |].
    apply Qle_bool_iff in H. congruence.
Qed.

Lemma ltb_ge a b : ltb a b = false <-> (b <= a)%Q.
Proof.
  unfold ltb. rewrite negb_false_iff. apply Qle_bool_iff.
Qed.

Lemma leb_le a b : leb a b = true <-> (a <= b)%Q.
Proof. apply Qle_bool_iff. Qed.

Lemma leb_gt a b : leb a b = false <-> (b < a)%Q.
Proof.
  unfold leb. destruct (Qle_bool a b) eqn:E.
  - apply Qle_bool_iff in E. split; [discriminate | intros H; exfalso; lra].
  - split; [intros _ | reflexivity].
    destruct (Qlt_le_dec b a) as [H | H]; [exact H |].
    apply Qle_bool_iff in H. congruence.
Qed.

Lemma geb_ge a b : geb a b = true <-> (b <= a)%Q.
Proof. apply leb_le. Qed.

Lemma geb_lt a b : geb a b = false <-> (a < b)%Q.
Proof. apply leb_gt. Qed.

Lemma gtb_gt a b : gtb a b = true <-> (b < a)%Q.
Proof. apply ltb_lt. Qed.

Lemma gtb_le a b : gtb a b = false <-> (a <= b)%Q.
Proof. apply ltb_ge. Qed.

Lemma truthy_Some o : truthy o = true <-> exists s, o = Some s /\ s <> EmptyString.
Proof.
  destruct o as [s |]; simpl.
  - rewrite negb_true_iff. split.
    + intros H. exists s. split; [reflexivity |].
      intros ->. discriminate.
    + intros (s' & [= <-] & Hne). apply String.eqb_neq. exact Hne.
  - split; [discriminate | intros (s & H & _); discriminate].
Qed.

End JSFacts.
(** ** Invariants of the light engine *)

Module LightInvariants.
Import TrafficLight LightNotions.

Lemma sameStatic_refl a : sameStatic a a.
Proof. by repeat split. Qed.

Lemma sameStatic_trans a b c : sameStatic a b → sameStatic b c → sameStatic a c.
Proof. intros (? & ? & ?) (? & ? & ?). repeat split; congruence. Qed.

Lemma Static_refl ls : Static ls ls.
Proof. apply Forall2_same_length_lookup. split; [done |].
  intros i x y ? ?. simplify_eq. apply sameStatic_refl. Qed.

Lemma Static_trans ls1 ls2 ls3 : Static ls1 ls2 → Static ls2 ls3 → Static ls1 ls3.
Proof.
  intros H12 H23. apply Forall2_same_length_lookup. split.
  - rewrite (Forall2_length _ _ _ H12). apply (Forall2_length _ _ _ H23).
  - intros i x z Hx Hz.
    destruct (Forall2_lookup_l _ _ _ _ _ H12 Hx) as (y & Hy & Hxy).
    destruct (Forall2_lookup_l _ _ _ _ _ H23 Hy) as (z' & Hz' & Hyz).
    simplify_eq. eapply sameStatic_trans; eauto.
Qed.

Lemma lookup_map (f : Light → Light) ls k : map f ls !! k = f <$> ls !! k.
Proof. apply list_lookup_fmap. Qed.

Lemma length_map' (f : Light → Light) ls : length (map f ls) = length ls.
Proof. apply length_fmap. Qed.

(** Pointwise description of a [map]. *)
Lemma Forall2_map (R : Light → Light → Prop) f ls :
  (∀ k a, ls !! k = Some a → R a (f a)) → Forall2 R ls (map f ls).
Proof.
  intros H. apply Forall2_same_length_lookup. split.
  - by rewrite length_map'.
  - intros i x y Hx. rewrite lookup_map, Hx. intros [= <-]. eauto.
Qed.

(** Pointwise description of an update at one index. *)
Lemma Forall2_alter_at (R : Light → Light → Prop) f i ls :
  (∀ k a, ls !! k = Some a → k ≠ i → R a a) →
  (∀ a, ls !! i = Some a → R a (f a)) →
  Forall2 R ls (alter f i ls).
Proof.
  intros Hne Heq. apply Forall2_same_length_lookup. split.
  - by rewrite length_alter.
  - intros k x y Hx. rewrite list_lookup_alter.
    destruct (decide (i = k)) as [-> | Hik].
    + rewrite Hx. intros [= <-]. eauto.
    + rewrite Hx. intros [= <-]. eauto.
Qed.

Lemma Forall2_compose (R1 R2 R : Light → Light → Prop) ls1 ls2 ls3 :
  Forall2 R1 ls1 ls2 → Forall2 R2 ls2 ls3 →
  (∀ a b c, R1 a b → R2 b c → R a c) → Forall2 R ls1 ls3.
Proof.
  intros H12 H23 HR. apply Forall2_same_length_lookup. split.
  - rewrite (Forall2_length _ _ _ H12). apply (Forall2_length _ _ _ H23).
  - intros i x z Hx Hz.
    destruct (Forall2_lookup_l _ _ _ _ _ H12 Hx) as (y & Hy & Hxy).
    destruct (Forall2_lookup_l _ _ _ _ _ H23 Hy) as (z' & Hz' & Hyz).
    simplify_eq. eauto.
Qed.

(** The static properties travel along [Static]. *)
Lemma UniqueIds_static ls ls' : Static ls ls' → UniqueIds ls → UniqueIds ls'.
Proof.
  intros HS HU i j a' b' Ha' Hb' Hid.
  destruct (Forall2_lookup_r _ _ _ _ _ HS Ha') as (a & Ha & (Ea & _)).
  destruct (Forall2_lookup_r _ _ _ _ _ HS Hb') as (b & Hb & (Eb & _)).
  apply (HU i j a b Ha Hb). congruence.
Qed.

Lemma Grouped_static ls ls' : Static ls ls' → Grouped ls → Grouped ls'.
Proof.
  intros HS HG i a' Ha'.
  destruct (Forall2_lookup_r _ _ _ _ _ HS Ha') as (a & Ha & (_ & _ & Eg)).
  rewrite Eg. eauto.
Qed.

Lemma TwoGroups_static ls ls' : Static ls ls' → TwoGroups ls → TwoGroups ls'.
Proof.
  intros HS HT i j k a' b' c' Ha' Hb' Hc' Hab Hac.
  destruct (Forall2_lookup_r _ _ _ _ _ HS Ha') as (a & Ha & (_ & La & Ga)).
  destruct (Forall2_lookup_r _ _ _ _ _ HS Hb') as (b & Hb & (_ & Lb & Gb)).
  destruct (Forall2_lookup_r _ _ _ _ _ HS Hc') as (c & Hc & (_ & Lc & Gc)).
  rewrite Ga, Gb, Gc. apply (HT i j k a b c); congruence.
Qed.

(** *** Three ways in which a step keeps the phase invariant *)

(** The new state is a function of the location and the old state that
    leaves red lights red. *)
Lemma Agree_uniform (g : string → LightState → LightState) ls ls' :
  Forall2 (λ a a', sameStatic a a' ∧ state a' = g (locationId a) (state a))
    ls ls' →
  (∀ loc, g loc red = red) →
  Agree ls → Agree ls'.
Proof.
  intros HF Hg HA i j a' b' Ha' Hb' Hloc Hact Hbct.
  destruct (Forall2_lookup_r _ _ _ _ _ HF Ha') as (a & Ha & (_ & La & Ga) & Sa).
  destruct (Forall2_lookup_r _ _ _ _ _ HF Hb') as (b & Hb & (_ & Lb & Gb) & Sb).
  assert (Hab : locationId a = locationId b) by congruence.
  assert (Aa : active a).
  { intros E. apply Hact. rewrite Sa, E. apply Hg. }
  assert (Ab : active b).
  { intros E. apply Hbct. rewrite Sb, E. apply Hg. }
  destruct (HA i j a b Ha Hb Hab Aa Ab) as [Eg Es].
  split; [congruence |]. rewrite Sa, Sb, Es, Hab. reflexivity.
Qed.

(** Lights stay as they are or are forced to red. *)
Lemma Agree_shrink ls ls' :
  Forall2 (λ a a', sameStatic a a' ∧ (state a' = state a ∨ state a' = red))
    ls ls' →
  Agree ls → Agree ls'.
Proof.
  intros HF HA i j a' b' Ha' Hb' Hloc Hact Hbct.
  destruct (Forall2_lookup_r _ _ _ _ _ HF Ha') as (a & Ha & (_ & La & Ga) & Sa).
  destruct (Forall2_lookup_r _ _ _ _ _ HF Hb') as (b & Hb & (_ & Lb & Gb) & Sb).
  unfold active in *.
  destruct Sa as [Sa | Sa]; [| congruence].
  destruct Sb as [Sb | Sb]; [| congruence].
  assert (Hab : locationId a = locationId b) by congruence.
  assert (Aa : state a ≠ red) by congruence.
  assert (Ab : state b ≠ red) by congruence.
  destruct (HA i j a b Ha Hb Hab Aa Ab) as [Eg Es].
  split; congruence.
Qed.

(** At a location where every light is red, the lights selected by [p],
    which share one group, all move to the state [s]. *)
Lemma Agree_activate (loc : string) (p : Light → bool) (s : LightState)
    ls ls' :
  Forall2 (λ a a', sameStatic a a'
                   ∧ state a' = if at_location loc a && p a
                                then s else state a)
    ls ls' →
  AllRedAt loc ls →
  (∀ i j a b, ls !! i = Some a → ls !! j = Some b →
              locationId a = loc → locationId b = loc →
              p a = true → p b = true →
              oppositeGroupId a = oppositeGroupId b) →
  Agree ls → Agree ls'.
Proof.
  intros HF Hred Hp HA i j a' b' Ha' Hb' Hloc Hact Hbct.
  destruct (Forall2_lookup_r _ _ _ _ _ HF Ha') as (a & Ha & (_ & La & Ga) & Sa).
  destruct (Forall2_lookup_r _ _ _ _ _ HF Hb') as (b & Hb & (_ & Lb & Gb) & Sb).
  assert (Hab : locationId a = locationId b) by congruence.
  unfold active, at_location in *.
  destruct (decide (locationId a = loc)) as [El | Nl].
  - assert (El' : locationId b = loc) by congruence.
    rewrite (bool_decide_eq_true_2 _ El) in Sa.
    rewrite (bool_decide_eq_true_2 _ El') in Sb. simpl in Sa, Sb.
    destruct (p a) eqn:Pa.
    2:{ exfalso. apply Hact. rewrite Sa. eapply Hred; eauto. }
    destruct (p b) eqn:Pb.
    2:{ exfalso. apply Hbct. rewrite Sb. eapply Hred; eauto. }
    split; [| congruence].
    rewrite Ga, Gb. eapply Hp; eauto.
  - assert (Nl' : locationId b ≠ loc) by congruence.
    rewrite (bool_decide_eq_false_2 _ Nl) in Sa.
    rewrite (bool_decide_eq_false_2 _ Nl') in Sb. simpl in Sa, Sb.
    rewrite Ga, Gb, Sa, Sb.
    apply (HA i j a b Ha Hb Hab); unfold active; congruence.
Qed.

Lemma Agree_MutualExclusion ls : Agree ls → MutualExclusion ls.
Proof.
  intros HA a b Ha Hb Hloc Hg [Ga Gb].
  apply list_elem_of_lookup in Ha as [i Hi].
  apply list_elem_of_lookup in Hb as [j Hj].
  destruct (HA i j a b Hi Hj Hloc) as [Eg _]; [| | done].
  - intros E. destruct Ga; congruence.
  - intros E. destruct Gb; congruence.
Qed.

(** *** The elementary updates *)

Lemma Quiet_refl a : Quiet a a.
Proof. split; [apply sameStatic_refl | done]. Qed.

Lemma Quiet_Static ls ls' : Forall2 Quiet ls ls' → Static ls ls'.
Proof. intros H. eapply Forall2_impl; [exact H |]. by intros a b [? _]. Qed.

Lemma Agree_quiet ls ls' : Forall2 Quiet ls ls' → Agree ls → Agree ls'.
Proof.
  intros HF. apply (Agree_uniform (λ _ s, s)); [| done].
  eapply Forall2_impl; [exact HF |]. by intros a b [? ?].
Qed.

Lemma Quiet_markSmartUpdate now loc a : Quiet a (markSmartUpdate now loc a).
Proof. unfold markSmartUpdate. destruct (at_location loc a); by repeat split. Qed.

Lemma Quiet_keepGreenOne now loc g a : Quiet a (keepGreenOne now loc g a).
Proof.
  unfold keepGreenOne.
  destruct (at_location loc a && in_group g a && state_is green a);
    by repeat split.
Qed.

Lemma Quiet_clearTargetOne loc a : Quiet a (clearTargetOne loc a).
Proof. unfold clearTargetOne. destruct (at_location loc a); by repeat split. Qed.

Lemma moveAt_red loc from to l : from ≠ red → moveAt loc from to l red = red.
Proof.
  intros H. unfold moveAt. rewrite bool_decide_eq_false_2; [done |].
  intros [_ E]. by apply H.
Qed.

Lemma switchOne_spec now loc g a :
  sameStatic a (switchOne now loc g a)
  ∧ state (switchOne now loc g a)
    = moveAt loc green yellow (locationId a) (state a).
Proof.
  unfold switchOne, at_location, state_is, moveAt.
  destruct (decide (locationId a = loc)) as [El | Nl].
  - rewrite (bool_decide_eq_true_2 _ El).
    destruct (decide (state a = green)) as [Es | Ns].
    + rewrite (bool_decide_eq_true_2 _ Es), bool_decide_eq_true_2 by done.
      by repeat split.
    + rewrite (bool_decide_eq_false_2 _ Ns), bool_decide_eq_false_2
        by (intros [_ ?]; done).
      by repeat split.
  - rewrite (bool_decide_eq_false_2 _ Nl), bool_decide_eq_false_2
      by (intros [? _]; done).
    by repeat split.
Qed.

Lemma Inv_step two ls ls' : Inv two ls → Static ls ls' → Agree ls' → Inv two ls'.
Proof.
  intros (HU & HG & _ & HT) HS HA. split; [| split; [| split]].
  - eapply UniqueIds_static; eauto.
  - eapply Grouped_static; eauto.
  - exact HA.
  - intros E. eapply TwoGroups_static; eauto.
Qed.

Lemma Inv_quiet two ls ls' : Inv two ls → Forall2 Quiet ls ls' → Inv two ls'.
Proof.
  intros HI HQ. eapply Inv_step; [exact HI | by apply Quiet_Static |].
  eapply Agree_quiet; [exact HQ |]. apply HI.
Qed.

Lemma Inv_quiet_map two f ls :
  (∀ a, Quiet a (f a)) → Inv two ls → Inv two (map f ls).
Proof. intros Hf HI. eapply Inv_quiet; [exact HI |]. apply Forall2_map. eauto. Qed.

Lemma Inv_quiet_alter two f i ls :
  (∀ a, Quiet a (f a)) → Inv two ls → Inv two (alter f i ls).
Proof.
  intros Hf HI. eapply Inv_quiet; [exact HI |].
  apply Forall2_alter_at; intros; [apply Quiet_refl | apply Hf].
Qed.

Lemma applySmartDecision_Inv two d now loc ls :
  Inv two ls → Inv two (applySmartDecision d now loc ls).
Proof.
  intros HI. unfold applySmartDecision. destruct (action d).
  - assert (HF : Forall2 (λ a a', sameStatic a a'
               ∧ state a' = moveAt loc green yellow (locationId a) (state a))
               ls (map (switchOne now loc (targetGroup d)) ls)).
    { apply Forall2_map. intros k a _. apply switchOne_spec. }
    eapply Inv_step; [exact HI | |].
    + eapply Forall2_impl; [exact HF |]. by intros a b [? _].
    + eapply Agree_uniform; [exact HF | | apply HI].
      intros l. by apply moveAt_red.
  - destruct (JS.truthy (targetGroup d)); [| exact HI].
    apply Inv_quiet_map; [| exact HI]. apply Quiet_keepGreenOne.
Qed.

(** *** Synchronising a group *)

Lemma syncOne_self from to now light s :
  syncOne from to now light (set_state s light) = set_state s light.
Proof.
  unfold syncOne. simpl. rewrite String.eqb_refl. simpl.
  by rewrite !andb_false_r.
Qed.

Lemma sync_spec from to now light i ls :
  from ≠ red → UniqueIds ls → Agree ls →
  ls !! i = Some light → state light = from →
  Forall2 (λ a a', sameStatic a a'
                   ∧ state a' = moveAt (locationId light) from to
                                  (locationId a) (state a))
    ls (syncGroup from to now light (alter (set_state to) i ls)).
Proof.
  intros Hfrom HU HA Hi Hst.
  apply Forall2_same_length_lookup. split.
  { unfold syncGroup. by rewrite length_map', length_alter. }
  intros k a a' Ha. unfold syncGroup.
  rewrite lookup_map, list_lookup_alter.
  destruct (decide (i = k)) as [<- | Hik].
  - rewrite Hi. simpl. intros [= <-]. assert (a = light) as -> by congruence.
    rewrite syncOne_self. simpl. split; [by repeat split |].
    unfold moveAt. by rewrite bool_decide_eq_true_2.
  - rewrite Ha. simpl. intros [= <-].
    unfold syncOne, at_location, in_group, state_is, moveAt.
    destruct (String.eqb_spec (light_id a) (light_id light)) as [Eid | Nid].
    { exfalso. apply Hik. symmetry. eapply HU; eauto. }
    destruct (decide (locationId a = locationId light ∧ state a = from))
      as [[El Es] | N].
    + destruct (HA k i a light Ha Hi El) as [Eg _];
        [unfold active; congruence | unfold active; congruence |].
      rewrite !bool_decide_eq_true_2 by done. simpl.
      by repeat split.
    + rewrite (bool_decide_eq_false_2 _ N).
      split; [| by repeat case_bool_decide; simpl; try done; exfalso; auto].
      repeat case_bool_decide; simpl; by repeat split.
Qed.

Lemma sync_Inv two from to now light i ls :
  from ≠ red → Inv two ls → ls !! i = Some light → state light = from →
  Inv two (syncGroup from to now light (alter (set_state to) i ls)).
Proof.
  intros Hfrom HI Hi Hst.
  pose proof (sync_spec from to now light i ls Hfrom
                (proj1 HI) (proj1 (proj2 (proj2 HI))) Hi Hst) as HF.
  eapply Inv_step; [exact HI | |].
  - eapply Forall2_impl; [exact HF |]. by intros a b [? _].
  - eapply Agree_uniform; [exact HF | | apply HI].
    intros l. by apply moveAt_red.
Qed.

(** *** Yellow to red *)

Lemma yellow_sync_AllRed now light i ls :
  UniqueIds ls → Agree ls → ls !! i = Some light → state light = yellow →
  AllRedAt (locationId light)
    (syncGroup yellow red now light (alter (set_state red) i ls)).
Proof.
  intros HU HA Hi Hst k a' Ha' El.
  assert (Hy : yellow ≠ red) by done.
  pose proof (sync_spec yellow red now light i ls Hy HU HA Hi Hst) as HF.
  destruct (Forall2_lookup_r _ _ _ _ _ HF Ha') as (a & Ha & (_ & La & _) & Sa).
  rewrite Sa. unfold moveAt. case_bool_decide as C; [done |].
  destruct (decide (state a = red)) as [| Na]; [done |].
  exfalso. apply C. split; [congruence |].
  destruct (HA k i a light Ha Hi) as [_ Es]; unfold active; congruence.
Qed.

Lemma perpendicular_Inv two now light light' i ls :
  Inv two ls → two = true →
  ls !! i = Some light' → sameStatic light light' →
  AllRedAt (locationId light) ls →
  Inv two (perpendicularToWaiting now light ls).
Proof.
  intros HI Htwo Hi (_ & Ll & Gl) Hred.
  pose proof HI as (HU & HG & HA & HT). specialize (HT Htwo).
  assert (HF : Forall2 (λ a a', sameStatic a a'
             ∧ state a' = if at_location (locationId light) a
                             && negb (in_group (oppositeGroupId light) a)
                          then waiting else state a)
             ls (perpendicularToWaiting now light ls)).
  { apply Forall2_map. intros k a Ha. unfold perpendicularOne.
    destruct (at_location (locationId light) a) eqn:El; simpl;
      [| by repeat split].
    destruct (in_group (oppositeGroupId light) a); simpl;
      [by repeat split |].
    apply bool_decide_eq_true_1 in El.
    unfold state_is. rewrite bool_decide_eq_true_2 by (eapply Hred; eauto).
    by repeat split. }
  eapply Inv_step.
  - exact HI.
  - eapply Forall2_impl; [exact HF |]. by intros a b [? _].
  - eapply (Agree_activate (locationId light)
              (λ a, negb (in_group (oppositeGroupId light) a)));
      [exact HF | exact Hred | | exact HA].
    intros j k a b Ha Hb La Lb Pa Pb.
    apply negb_true_iff, bool_decide_eq_false_1 in Pa.
    apply negb_true_iff, bool_decide_eq_false_1 in Pb.
    destruct (HT i j k light' a b Hi Ha Hb) as [E | [E | E]];
      try congruence.
Qed.

Lemma target_Inv two now light ls :
  Inv two ls → AllRedAt (locationId light) ls →
  Inv two (targetToWaiting now light ls).
Proof.
  intros HI Hred. unfold targetToWaiting.
  destruct (JS.truthy (smartSwitchTarget light)); [| exact HI].
  set (loc := locationId light). set (tg := smartSwitchTarget light).
  assert (HF : Forall2 (λ a a', sameStatic a a'
             ∧ state a' = if at_location loc a && in_group tg a
                          then waiting else state a)
             ls (map (targetOne now loc tg) ls)).
  { apply Forall2_map. intros k a Ha. unfold targetOne.
    destruct (at_location loc a) eqn:El; simpl; [| by repeat split].
    destruct (in_group tg a); simpl; [| by repeat split].
    apply bool_decide_eq_true_1 in El.
    unfold state_is. rewrite bool_decide_eq_true_2 by (eapply Hred; eauto).
    by repeat split. }
  assert (HI1 : Inv two (map (targetOne now loc tg) ls)).
  { eapply Inv_step; [exact HI | |].
    - eapply Forall2_impl; [exact HF |]. by intros a b [? _].
    - eapply (Agree_activate loc (in_group tg));
        [exact HF | exact Hred | | apply HI].
      intros j k a b Ha Hb La Lb Pa Pb.
      apply bool_decide_eq_true_1 in Pa. apply bool_decide_eq_true_1 in Pb.
      congruence. }
  match goal with |- context [forallb ?f ?l] => destruct (forallb f l) end;
    [| exact HI1].
  apply Inv_quiet_map; [| exact HI1]. apply Quiet_clearTargetOne.
Qed.

Lemma advanceState_Inv two now i isSmartControl ls :
  Inv two ls → (isSmartControl = false → two = true) →
  Inv two (advanceState now i isSmartControl ls).
Proof.
  intros HI Hmode. unfold advanceState.
  destruct (ls !! i) as [light |] eqn:Hi; [| exact HI].
  destruct (state light) eqn:Hst.
  - exact HI.
  - (* yellow *)
    pose proof HI as (HU & HG & HA & HT).
    assert (HI2 : Inv two (syncGroup yellow red now light
                             (alter (set_state red) i ls)))
      by (by apply sync_Inv).
    pose proof (yellow_sync_AllRed now light i ls HU HA Hi Hst) as Hred.
    destruct isSmartControl.
    + by apply target_Inv.
    + assert (HF := sync_spec yellow red now light i ls
                      ltac:(done) HU HA Hi Hst).
      destruct (Forall2_lookup_l _ _ _ _ _ HF Hi) as (light' & Hi' & HS & _).
      eapply perpendicular_Inv; eauto.
  - by apply sync_Inv.
  - by apply sync_Inv.
Qed.

(** *** One light, the validator, and a whole tick *)

Section Steps.

Context {Cars Streets Locations : Type}.
Variable collect :
  string → Cars → Streets → Locations → list Light → list ApproachingCar.

Lemma smartControlStep_Inv two now i cars streets locations ls :
  Inv two ls →
  Inv two (smartControlStep collect now i cars streets locations ls).
Proof.
  intros HI. unfold smartControlStep.
  destruct (ls !! i) as [light |]; [| exact HI].
  match goal with |- context [if ?c then _ else _] => destruct c end;
    [| exact HI].
  apply applySmartDecision_Inv.
  apply Inv_quiet_map; [| exact HI]. apply Quiet_markSmartUpdate.
Qed.

Lemma updateTrafficLight_Inv two now i deltaTime isSmartControl
    cars streets locations ls :
  Inv two ls → (isSmartControl = false → two = true) →
  Inv two (updateTrafficLight collect now i deltaTime isSmartControl
             cars streets locations ls).
Proof.
  intros HI Hmode. unfold updateTrafficLight.
  destruct (ls !! i) as [light0 |] eqn:Hi; [| exact HI].
  assert (Hg : JS.truthy (oppositeGroupId light0) = true)
    by (destruct HI as (_ & HG & _); eauto).
  rewrite Hg. simpl.
  set (s1 := alter _ i ls).
  assert (HI1 : Inv two s1).
  { apply Inv_quiet_alter; [| exact HI]. intros a. by repeat split. }
  set (s3 := if isSmartControl then _ else s1).
  assert (HI3 : Inv two s3).
  { subst s3. destruct isSmartControl; [| exact HI1].
    by apply smartControlStep_Inv. }
  destruct (s3 !! i) as [light |]; [| exact HI3].
  destruct (JS.geb_inf _ _); [| exact HI3].
  apply advanceState_Inv; [| exact Hmode].
  apply Inv_quiet_alter; [| exact HI3]. intros a. by repeat split.
Qed.

Lemma forceExtraGreens_spec loc n ls :
  Forall2 (λ a a', sameStatic a a' ∧ (state a' = state a ∨ state a' = red))
    ls (forceExtraGreens loc n ls).
Proof.
  revert n. induction ls as [| l r IH]; intros n; simpl; [constructor |].
  destruct (at_location loc l && state_is green l).
  - constructor; [| apply IH].
    destruct (bool_decide _); simpl; split;
      try (by repeat split); auto.
  - constructor; [| apply IH]. split; [by repeat split | auto].
Qed.

Lemma filter_length_all {A} (P : A → Prop) `{!∀ x, Decision (P x)}
    (l : list A) :
  length (filter P l) = length l → Forall P l.
Proof.
  induction l as [| x l IH]; [constructor |].
  rewrite filter_cons. destruct (decide (P x)) as [Hx | Hx]; simpl.
  - intros [= E]. constructor; auto.
  - intros E. pose proof (length_filter P l). lia.
Qed.

Lemma validateIntersection_Inv two loc ls :
  Inv two ls → Inv two (validateIntersection loc ls).
Proof.
  intros HI. unfold validateIntersection.
  case_bool_decide as Hlen; [exact HI |].
  set (s1 := if bool_decide (_ < _)%nat then forceExtraGreens loc 0 ls else ls).
  assert (HF1 : Forall2 (λ a a', sameStatic a a'
              ∧ (state a' = state a ∨ state a' = red)) ls s1).
  { subst s1. case_bool_decide; [apply forceExtraGreens_spec |].
    apply Forall2_same_length_lookup. split; [done |].
    intros k a a' ? ?. simplify_eq. split; [apply sameStatic_refl | auto]. }
  assert (HI1 : Inv two s1).
  { eapply Inv_step; [exact HI | |].
    - eapply Forall2_impl; [exact HF1 |]. by intros a b [? _].
    - eapply Agree_shrink; [exact HF1 | apply HI]. }
  case_bool_decide as Hred; [| exact HI1].
  match goal with |- context [if ?c then _ else _] => destruct c end;
    [| exact HI1].
  assert (Hall : AllRedAt loc s1).
  { apply filter_length_all in Hred.
    intros k a' Ha' El.
    destruct (Forall2_lookup_r _ _ _ _ _ HF1 Ha')
      as (a & Ha & (_ & La & _) & Sa).
    assert (Ra : state a = red).
    { rewrite Forall_forall in Hred. apply Hred.
      unfold intersectionLightsOf. apply list_elem_of_filter.
      split; [congruence |]. eapply list_elem_of_lookup_2; eauto. }
    destruct Sa; congruence. }
  assert (HF : Forall2 (λ a a', sameStatic a a'
             ∧ state a' = if at_location loc a
                             && in_group (Some "north-south") a
                          then green else state a)
             s1 (map (forceNorthSouthOne loc) s1)).
  { apply Forall2_map. intros k a _. unfold forceNorthSouthOne.
    destruct (at_location loc a && in_group (Some "north-south") a);
      by repeat split. }
  eapply Inv_step; [exact HI1 | |].
  - eapply Forall2_impl; [exact HF |]. by intros a b [? _].
  - eapply (Agree_activate loc (in_group (Some "north-south")));
      [exact HF | exact Hall | | apply HI1].
    intros j k a b Ha Hb La Lb Pa Pb.
    apply bool_decide_eq_true_1 in Pa. apply bool_decide_eq_true_1 in Pb.
    congruence.
Qed.

Lemma validateIntersectionSafety_Inv two ls :
  Inv two ls → Inv two (validateIntersectionSafety ls).
Proof.
  unfold validateIntersectionSafety.
  generalize (firstOccurrences (map locationId ls)). intros locs.
  revert ls. induction locs as [| loc locs IH]; intros ls HI; simpl;
    [exact HI |].
  apply IH. by apply validateIntersection_Inv.
Qed.

Lemma updateAll_Inv two clock deltaTime isSmartControl cars streets
    locations ls :
  Inv two ls → (isSmartControl = false → two = true) →
  Inv two (updateAll collect clock deltaTime isSmartControl cars streets
             locations ls).
Proof.
  intros HI Hmode. unfold updateAll.
  generalize (seq 0 (length ls)). intros idx.
  revert ls HI. induction idx as [| i idx IH]; intros ls HI; simpl;
    [exact HI |].
  apply IH. by apply updateTrafficLight_Inv.
Qed.

Lemma updateTrafficLights_Inv two clock ls deltaTime isSmartControl
    cars streets locations :
  Inv two ls → (isSmartControl = false → two = true) →
  Inv two (updateTrafficLights collect clock ls deltaTime isSmartControl
             cars streets locations).
Proof.
  intros HI Hmode. unfold updateTrafficLights.
  apply validateIntersectionSafety_Inv. by apply updateAll_Inv.
Qed.

End Steps.

(** *** From the initial lights to every later tick *)

Lemma AtMostTwoGroups_TwoGroups ls : AtMostTwoGroups ls → TwoGroups ls.
Proof.
  intros H i j k a b c Ha Hb Hc.
  unfold AtMostTwoGroups in H.
  rewrite Forall_lookup in H. specialize (H i a Ha).
  rewrite Forall_lookup in H. specialize (H j b Hb).
  rewrite Forall_lookup in H. exact (H k c Hc).
Qed.

Lemma InitialIntersection_Inv two ls :
  InitialIntersection ls → (two = true → AtMostTwoGroups ls) → Inv two ls.
Proof.
  unfold InitialIntersection. destruct ls as [| first rest]; [done |].
  intros (_ & Hnd & Hall) Htwo.
  rewrite Forall_lookup in Hall.
  split; [| split; [| split]].
  - intros i j a b Ha Hb Hid.
    eapply (NoDup_lookup _ i j (light_id a)); [exact Hnd | |].
    + change (map light_id (first :: rest)) with (light_id <$> first :: rest).
      by rewrite list_lookup_fmap, Ha.
    + change (map light_id (first :: rest)) with (light_id <$> first :: rest).
      by rewrite list_lookup_fmap, Hb, Hid.
  - intros i a Ha. by destruct (Hall i a Ha) as (_ & ? & _).
  - intros i j a b Ha Hb _ Aa Ab.
    destruct (Hall i a Ha) as (_ & _ & Sa & _).
    destruct (Hall j b Hb) as (_ & _ & Sb & _).
    unfold active in *.
    destruct (decide (oppositeGroupId a = oppositeGroupId first));
      [| done].
    destruct (decide (oppositeGroupId b = oppositeGroupId first));
      [| done].
    split; congruence.
  - intros E. apply AtMostTwoGroups_TwoGroups. auto.
Qed.

Section Runs.

Context {Cars Streets Locations : Type}.
Variable collect :
  string → Cars → Streets → Locations → list Light → list ApproachingCar.

Lemma runTicks_Inv two (ticks : list (Tick Cars Streets Locations)) ls :
  Inv two ls →
  Forall (λ t, isSmartControl t = false → two = true) ticks →
  Inv two (runTicks collect ticks ls).
Proof.
  unfold runTicks. intros HI HF. revert ls HI.
  induction HF as [| t ticks Ht HF IH]; intros ls HI; simpl; [exact HI |].
  apply IH. by apply updateTrafficLights_Inv.
Qed.

End Runs.

End LightInvariants.

(** ** The properties of the traffic-light engine *)

Module LightProperties.
Import TrafficLight LightNotions LightInvariants Scenarios.




(** *** One light, one call *)

Section OneLight.

Context {Cars Streets Locations : Type}.
Variable collect :
  string → Cars → Streets → Locations → list Light → list ApproachingCar.

Lemma prepared_lookup i dt light ls :
  ls !! i = Some light →
  ∃ light2, prepared i dt light ls !! i = Some light2
            ∧ state light2 = state light
            ∧ timer light2 = (timer light + dt)%Q
            ∧ locationId light2 = locationId light
            ∧ light_id light2 = light_id light
            ∧ lastSmartUpdate light2 = lastSmartUpdate light.
Proof.
  intros Hi. unfold prepared.
  destruct (_ && _).
  - eexists. rewrite !list_lookup_alter_eq, Hi. simpl.
    split; [reflexivity |]. by repeat split.
  - eexists. rewrite list_lookup_alter_eq, Hi. simpl.
    split; [reflexivity |]. by repeat split.
Qed.

Lemma prepared_other i dt light ls k :
  k ≠ i → prepared i dt light ls !! k = ls !! k.
Proof.
  intros Hk. unfold prepared.
  destruct (_ && _); by rewrite !list_lookup_alter_ne.
Qed.

Lemma perpendicularOne_own now light s :
  perpendicularOne now light (set_state s light) = set_state s light.
Proof.
  unfold perpendicularOne, in_group. simpl.
  rewrite (bool_decide_eq_true_2 (oppositeGroupId light = oppositeGroupId light))
    by done.
  simpl. by rewrite andb_false_r.
Qed.

(** C5. Under fixed-timer control one call of [updateTrafficLight]
    moves a green light to yellow exactly when its timer has reached 10
    seconds, a yellow light to red at 2 seconds and a waiting light to
    green at 0.5 seconds; a red light stays red whatever its timer;
    and when a yellow light turns red, every red light of the
    intersection in another opposite group is set to waiting with its
    timer at 0. *)
Theorem fixed_timer_cycle now i dt cars streets locations ls light :
  ls !! i = Some light →
  let ls' := updateTrafficLight collect now i dt false cars streets
               locations ls in
  ∃ light',
    ls' !! i = Some light'
    ∧ (state light = green →
       ((10 <= timer light + dt)%Q → state light' = yellow)
       ∧ ((timer light + dt < 10)%Q → state light' = green))
    ∧ (state light = yellow →
       ((2 <= timer light + dt)%Q → state light' = red)
       ∧ ((timer light + dt < 2)%Q → state light' = yellow))
    ∧ (state light = waiting →
       ((0.5 <= timer light + dt)%Q → state light' = green)
       ∧ ((timer light + dt < 0.5)%Q → state light' = waiting))
    ∧ (state light = red → state light' = red)
    ∧ (state light = yellow → (2 <= timer light + dt)%Q →
       ∀ k o, ls !! k = Some o →
              locationId o = locationId light →
              oppositeGroupId o ≠ oppositeGroupId light' →
              state o = red →
              ∃ o', ls' !! k = Some o' ∧ state o' = waiting
                    ∧ timer o' = 0%Q).
Proof.
  intros Hi ls'. subst ls'. unfold updateTrafficLight. rewrite Hi.
  fold (prepared i dt light ls).
  destruct (prepared_lookup i dt light ls Hi)
    as (light2 & H2 & S2 & T2 & L2 & I2 & _).
  pose proof (prepared_other i dt light ls) as Hother.
  set (s2 := prepared i dt light ls) in *.
  cbv zeta. rewrite H2.
  unfold advanceState.
  set (s4 := alter (λ l, set_lastStateChange now (set_timer 0%Q l)) i s2).
  assert (H4 : s4 !! i
               = Some (set_lastStateChange now (set_timer 0%Q light2)))
    by (subst s4; by rewrite list_lookup_alter_eq, H2).
  assert (Hother4 : ∀ k, k ≠ i → s4 !! k = ls !! k).
  { intros k Hk. subst s4. rewrite list_lookup_alter_ne by done. auto. }
  set (light4 := set_lastStateChange now (set_timer 0%Q light2)) in *.
  rewrite H4. change (state light4) with (state light2).
  rewrite S2, T2. unfold cycleDuration, JS.geb_inf.
  destruct (state light) eqn:Hs.
  - (* red *)
    exists (if JS.geb (timer light + dt) 12 then light4 else light2).
    destruct (JS.geb (timer light + dt) 12).
    + split; [done |]. split_and!; try done.
    + split; [done |]. split_and!; try done.
  - (* yellow *)
    destruct (JS.geb (timer light + dt) 2) eqn:Hgeb.
    + apply JSFacts.geb_ge in Hgeb.
      exists (set_state red light4). split.
      { unfold perpendicularToWaiting, syncGroup.
        rewrite !lookup_map, list_lookup_alter_eq, H4. simpl.
        by rewrite syncOne_self, perpendicularOne_own. }
      split_and!; try done.
      { intros _. split; [done | intros; exfalso; lra]. }
      intros _ _ k o Hk Lo Go Ro.
      destruct (decide (k = i)) as [-> | Hki]; [congruence |].
      exists (switch_to waiting now o).
      split; [| by split].
      unfold perpendicularToWaiting, syncGroup.
      rewrite !lookup_map, list_lookup_alter_ne, Hother4, Hk by done.
      simpl. f_equal.
      assert (Hg : in_group (oppositeGroupId light4) o = false).
      { unfold in_group. apply bool_decide_eq_false_2. exact Go. }
      unfold syncOne. rewrite Hg, andb_false_r. simpl.
      unfold perpendicularOne, at_location, state_is. rewrite Hg. simpl.
      rewrite !bool_decide_eq_true_2; [done | done |].
      subst light4. simpl. congruence.
    + apply JSFacts.geb_lt in Hgeb.
      exists light2. split; [done |]. split_and!; try done.
      * intros _. split; [intros; exfalso; lra | intros; congruence].
      * intros _ Hle. exfalso. lra.
  - (* green *)
    destruct (JS.geb (timer light + dt) 10) eqn:Hgeb.
    + apply JSFacts.geb_ge in Hgeb.
      exists (set_state yellow light4). split.
      { unfold syncGroup.
        rewrite lookup_map, list_lookup_alter_eq, H4. simpl.
        by rewrite syncOne_self. }
      split_and!; try done.
      intros _. split; [done | intros; exfalso; lra].
    + apply JSFacts.geb_lt in Hgeb.
      exists light2. split; [done |]. split_and!; try done.
      intros _. split; [intros; exfalso; lra | intros; congruence].
  - (* waiting *)
    destruct (JS.geb (timer light + dt) 0.5) eqn:Hgeb.
    + apply JSFacts.geb_ge in Hgeb.
      exists (set_state green light4). split.
      { unfold syncGroup.
        rewrite lookup_map, list_lookup_alter_eq, H4. simpl.
        by rewrite syncOne_self. }
      split_and!; try done.
      intros _. split; [done | intros; exfalso; lra].
    + apply JSFacts.geb_lt in Hgeb.
      exists light2. split; [done |]. split_and!; try done.
      intros _. split; [intros; exfalso; lra | intros; congruence].
Qed.

Lemma smartControlStep_closed now i cars streets locations ls light t :
  ls !! i = Some light → lastSmartUpdate light = Some t → t ≠ 0%Z →
  (now - t < 1000)%Z →
  smartControlStep collect now i cars streets locations ls = ls.
Proof.
  intros Hi Ht H0 Hlt. unfold smartControlStep. rewrite Hi, Ht. simpl.
  rewrite (proj2 (Z.eqb_neq t 0) H0). simpl.
  by rewrite (proj2 (Z.leb_gt 1000 (now - t)) Hlt).
Qed.

(** C4 (as amended). Under smart control, between two smart evaluations
    of the intersection (the last one less than a second ago), one call
    of [updateTrafficLight] keeps a green light green and a red light
    red whatever their timers, moves a waiting light to green exactly
    when its timer has reached 0.5 seconds, as under fixed-timer
    control, and moves a yellow light out of yellow exactly when its
    timer has reached 0.5 seconds (not the 2 seconds of fixed-timer
    control): to red, or on to waiting when the pending switch target
    is the light's own group. *)
Theorem adaptive_phase_durations now i dt cars streets locations ls
    light t :
  ls !! i = Some light →
  lastSmartUpdate light = Some t → t ≠ 0%Z → (now - t < 1000)%Z →
  let ls' := updateTrafficLight collect now i dt true cars streets
               locations ls in
  ∃ light',
    ls' !! i = Some light'
    ∧ (state light = green → state light' = green)
    ∧ (state light = red → state light' = red)
    ∧ (state light = waiting →
       ((0.5 <= timer light + dt)%Q → state light' = green)
       ∧ ((timer light + dt < 0.5)%Q → state light' = waiting))
    ∧ (state light = yellow →
       ((0.5 <= timer light + dt)%Q →
        state light'
        = if JS.truthy (smartSwitchTarget light)
             && in_group (smartSwitchTarget light) light'
          then waiting else red)
       ∧ ((timer light + dt < 0.5)%Q → state light' = yellow)).
Proof.
  intros Hi Ht H0 Hlt ls'. subst ls'. unfold updateTrafficLight.
  rewrite Hi. fold (prepared i dt light ls).
  destruct (prepared_lookup i dt light ls Hi)
    as (light2 & H2 & S2 & T2 & L2 & I2 & U2).
  set (s2 := prepared i dt light ls) in *.
  cbv zeta.
  rewrite (smartControlStep_closed now i cars streets locations s2 light2 t)
    by (done || congruence).
  rewrite H2. unfold advanceState.
  set (s4 := alter (λ l, set_lastStateChange now (set_timer 0%Q l)) i s2).
  assert (H4 : s4 !! i
               = Some (set_lastStateChange now (set_timer 0%Q light2)))
    by (subst s4; by rewrite list_lookup_alter_eq, H2).
  set (light4 := set_lastStateChange now (set_timer 0%Q light2)) in *.
  rewrite H4. change (state light4) with (state light2).
  rewrite S2, T2. unfold cycleDuration, JS.geb_inf.
  destruct (state light) eqn:Hs.
  - exists light2. split; [done |]. split_and!; try done.
  - (* yellow *)
    destruct (JS.geb (timer light + dt) 0.5) eqn:Hgeb.
    + apply JSFacts.geb_ge in Hgeb.
      set (s5 := syncGroup yellow red now light4
                   (alter (set_state red) i s4)).
      assert (H5 : s5 !! i = Some (set_state red light4)).
      { subst s5. unfold syncGroup.
        rewrite lookup_map, list_lookup_alter_eq, H4. simpl.
        by rewrite syncOne_self. }
      unfold targetToWaiting.
      change (smartSwitchTarget light4) with (smartSwitchTarget light2).
      change (locationId light4) with (locationId light2).
      change (oppositeGroupId light4) with (oppositeGroupId light2).
      assert (Etg : smartSwitchTarget light2 = smartSwitchTarget light).
      { clear -Hi H2. subst s2. unfold prepared in H2.
        destruct (_ && _);
          rewrite ?list_lookup_alter_eq, Hi in H2; simpl in H2;
          by injection H2 as <-. }
      rewrite Etg.
      destruct (JS.truthy (smartSwitchTarget light)) eqn:Htg.
      * set (one := targetOne now (locationId light2)
                      (smartSwitchTarget light) (set_state red light4)).
        assert (Hone : state one
                       = if in_group (smartSwitchTarget light) one
                         then waiting else red).
        { subst one. unfold targetOne, at_location, state_is, in_group.
          simpl. rewrite bool_decide_eq_true_2 by done. simpl.
          case_bool_decide; simpl.
          - by rewrite bool_decide_eq_true_2.
          - by rewrite bool_decide_eq_false_2. }
        match goal with
        | |- context [forallb ?f ?l] => destruct (forallb f l)
        end.
        -- exists (clearTargetOne (locationId light2) one). split.
           { rewrite !lookup_map, H5. reflexivity. }
           split_and!; try done.
           intros _. split; [| intros; exfalso; lra]. intros _.
           assert (E1 : state (clearTargetOne (locationId light2) one)
                        = state one)
             by (unfold clearTargetOne; by destruct (at_location _ _)).
           assert (E2 : in_group (smartSwitchTarget light)
                          (clearTargetOne (locationId light2) one)
                        = in_group (smartSwitchTarget light) one)
             by (unfold clearTargetOne; by destruct (at_location _ _)).
           rewrite E1, E2. exact Hone.
        -- exists one. split; [rewrite lookup_map, H5; reflexivity |].
           split_and!; try done.
           intros _. split; [| intros; exfalso; lra]. by intros _.
      * exists (set_state red light4). split; [done |].
        split_and!; try done.
        intros _. split; [done | intros; exfalso; lra].
    + apply JSFacts.geb_lt in Hgeb.
      exists light2. split; [done |]. split_and!; try done.
      intros _. split; [intros; exfalso; lra | intros; congruence].
  - exists light2. split; [done |]. split_and!; try done.
  - (* waiting *)
    destruct (JS.geb (timer light + dt) 0.5) eqn:Hgeb.
    + apply JSFacts.geb_ge in Hgeb.
      exists (set_state green light4). split.
      { unfold syncGroup.
        rewrite lookup_map, list_lookup_alter_eq, H4. simpl.
        by rewrite syncOne_self. }
      split_and!; try done.
      intros _. split; [done | intros; exfalso; lra].
    + apply JSFacts.geb_lt in Hgeb.
      exists light2. split; [done |]. split_and!; try done.
      intros _. split; [intros; exfalso; lra | intros; congruence].
Qed.

End OneLight.

(** C5 at the north light of [fourWay]: green for 0.3 s, it is still
    green a tenth of a second later. *)
Lemma fixed_timer_cycle_witness :
  ∃ light',
    updateTrafficLight noCars 0%Z 0 0.1%Q false tt tt tt fourWay !! 0%nat
    = Some light'
    ∧ state light' = green.
Proof.
  destruct (fixed_timer_cycle noCars 0%Z 0 0.1%Q tt tt tt fourWay _ eq_refl)
    as (light' & Hl & Hgreen & _).
  exists light'. split; [exact Hl |].
  apply Hgreen; [reflexivity | vm_compute; reflexivity].
Defined.

(** C4 at a yellow light that is 0.45 s into its phase, half a second
    after the last smart evaluation: a tenth of a second later it is
    red. *)
Lemma adaptive_phase_durations_witness :
  ∃ light',
    updateTrafficLight noCars 1500%Z 0 0.1%Q true tt tt tt [yellowLight]
      !! 0%nat = Some light'
    ∧ state light' = red.
Proof.
  destruct (adaptive_phase_durations noCars 1500%Z 0 0.1%Q tt tt tt
              [yellowLight] yellowLight 1000%Z eq_refl eq_refl
              ltac:(discriminate) ltac:(reflexivity))
    as (light' & Hl & _ & _ & _ & Hyellow).
  exists light'. split; [exact Hl |].
  destruct (Hyellow eq_refl) as [Hred _].
  rewrite Hred by (vm_compute; discriminate). reflexivity.
Defined.

(** C4 as stated fails: the yellow light [yellowLight], 0.45 s into its
    phase, is red a tenth of a second later under smart control, while
    under fixed-timer control it is still yellow (and stays so until 2
    s). *)
Lemma adaptive_yellow_is_not_two_seconds :
  state <$> updateTrafficLight noCars 1500%Z 0 0.1%Q true tt tt tt
              [yellowLight] !! 0%nat = Some red
  ∧ state <$> updateTrafficLight noCars 1500%Z 0 0.1%Q false tt tt tt
                [yellowLight] !! 0%nat = Some yellow.
Proof. split; vm_compute; reflexivity. Qed.

(** *** The switching decision *)

Lemma findHighest_app ps e :
  findHighest (ps ++ [e]) = highestStep (findHighest ps) e.
Proof. unfold findHighest. by rewrite foldl_app. Qed.

Lemma findHighest_spec ps :
  (∀ g s, (g, s) ∈ ps → (s ≤ (findHighest ps).1)%Z)
  ∧ match (findHighest ps).2 with
    | None => (findHighest ps).1 = 0%Z
    | Some g => (g, (findHighest ps).1) ∈ ps ∧ (0 < (findHighest ps).1)%Z
    end.
Proof.
  induction ps as [| e ps [IH1 IH2]] using rev_ind.
  - simpl. split; [| done]. intros g s H. by inversion H.
  - rewrite findHighest_app. unfold highestStep.
    destruct (findHighest ps) as [hs hg]. simpl in *.
    destruct (Z.ltb_spec hs e.2) as [Hlt | Hge]; simpl.
    + split.
      * intros g s [H | H]%elem_of_app.
        -- specialize (IH1 g s H). lia.
        -- apply list_elem_of_singleton in H. subst e. simpl. lia.
      * split.
        -- apply elem_of_app. right. apply list_elem_of_singleton.
           by destruct e.
        -- destruct hg as [g |]; [destruct IH2; lia | lia].
    + split.
      * intros g s [H | H]%elem_of_app; [by apply (IH1 g) |].
        apply list_elem_of_singleton in H. subst e. simpl in Hge. lia.
      * destruct hg as [g |]; [| done].
        destruct IH2. split; [| done]. apply elem_of_app. by left.
  Qed.

Lemma foldl_Qmax_ge (r : list Light) (init : Q) :
  (init <= foldl (λ m x, Qmax m (timer x)) init r)%Q.
Proof.
  revert init. induction r as [| x r IH]; intros init; simpl.
  - apply Qle_refl.
  - eapply Qle_trans; [| apply IH]. apply Q.le_max_l.
Qed.

Lemma firstOccurrences_elem (k : string) (l : list string) :
  k ∈ firstOccurrences l → k ∈ l.
Proof.
  revert k. induction l as [| x l IH]; intros k; simpl; [done |].
  intros [-> | H]%elem_of_cons; [by left |].
  apply list_elem_of_filter in H as [_ H]. right. by apply IH.
Qed.

Lemma combine_keys streetScores ls g s :
  (g, s) ∈ combineOppositeStreetScores streetScores ls →
  ∃ l, l ∈ ls ∧ g = groupKey (oppositeGroupId l).
Proof.
  unfold combineOppositeStreetScores. intros H.
  apply list_elem_of_fmap in H as (k & [= -> _] & Hk).
  apply firstOccurrences_elem, list_elem_of_fmap in Hk as (l & -> & Hl).
  eauto.
Qed.

(** C7. When every light of a (non-empty) intersection light set is red
    with a timer above 2 seconds, the decision is SWITCH, for the reason
    DEADLOCK_PREVENTION_ALL_RED, and its target is a group with the
    highest (positive) combined score or, when no group has a positive
    score, the group of the first light. *)
Theorem all_red_deadlock_escape (streetScores : gmap string Z)
    (ls : list Light) :
  ls ≠ [] →
  Forall (λ l, state l = red ∧ (2 < timer l)%Q
               ∧ JS.truthy (oppositeGroupId l) = true) ls →
  let pairScores := combineOppositeStreetScores streetScores ls in
  let decision := makeTrafficLightDecision pairScores ls in
  action decision = SWITCH
  ∧ reason decision = DEADLOCK_PREVENTION_ALL_RED
  ∧ ((∃ g, IsHighest pairScores g ∧ targetGroup decision = Some g)
     ∨ (NoPositiveScore pairScores
        ∧ targetGroup decision = head ls ≫= oppositeGroupId)).
Proof.
  intros Hne Hall pairScores decision. subst decision.
  destruct ls as [| first rest]; [done |].
  unfold makeTrafficLightDecision.
  pose proof (findHighest_spec pairScores) as [Hmax Hhg].
  destruct (findHighest pairScores) as [hs hg]. simpl in Hmax, Hhg.
  assert (Hred : forallb (state_is red) (first :: rest) = true).
  { apply forallb_forall. intros l Hl. apply list_elem_of_In in Hl.
    rewrite Forall_forall in Hall.
    unfold state_is. apply bool_decide_eq_true_2. by destruct (Hall l Hl). }
  rewrite Hred.
  pose proof (Forall_inv Hall) as (_ & Ht & Hg).
  assert (Hgt : JS.gtb (foldl (λ m x, Qmax m (timer x)) (timer first) rest) 2
                = true).
  { apply JSFacts.gtb_gt. eapply Qlt_le_trans; [exact Ht |].
    apply foldl_Qmax_ge. }
  unfold maxTimer. rewrite Hgt.
  destruct hg as [g |].
  - destruct Hhg as [Hin Hpos].
    assert (Htr : JS.truthy (Some g) = true).
    { destruct (combine_keys _ _ _ _ Hin) as (l & Hl & ->).
      rewrite Forall_forall in Hall. destruct (Hall l Hl) as (_ & _ & Hl').
      destruct (oppositeGroupId l); [exact Hl' | discriminate]. }
    unfold JS.orElse. rewrite Htr. rewrite Htr.
    split; [done |]. split; [done |]. left. exists g. split; [| done].
    exists hs. split; [done |]. split; [done |]. exact Hmax.
  - unfold JS.orElse. simpl. rewrite Hg.
    split; [done |]. split; [done |]. right. split; [| done].
    intros g s Hin. specialize (Hmax g s Hin). lia.
Qed.

(** C7 at the four-way intersection whose lights have all been red for
    five seconds, with no car approaching: the target is the group of
    the first light. *)
Lemma all_red_deadlock_escape_witness :
  let decision :=
    makeTrafficLightDecision
      (combineOppositeStreetScores (calculateStreetScores [] fourWayAllRed)
         fourWayAllRed)
      fourWayAllRed in
  action decision = SWITCH ∧ reason decision = DEADLOCK_PREVENTION_ALL_RED.
Proof.
  destruct (all_red_deadlock_escape
              (calculateStreetScores [] fourWayAllRed) fourWayAllRed)
    as (Ha & Hr & _).
  - discriminate.
  - repeat constructor; vm_compute; reflexivity.
  - split; [exact Ha | exact Hr].
Defined.

(** *** The safety validator *)

Lemma Static_keeps ls ls' : Static ls ls' → Forall2 keepsNorthSouth ls ls'.
Proof.
  intros H. eapply Forall2_impl; [exact H |].
  intros a b (_ & L & G). split; [done | congruence].
Qed.

Lemma keeps_trans ls1 ls2 ls3 :
  Forall2 keepsNorthSouth ls1 ls2 → Forall2 keepsNorthSouth ls2 ls3 →
  Forall2 keepsNorthSouth ls1 ls3.
Proof.
  intros H1 H2. eapply Forall2_compose; [exact H1 | exact H2 |].
  intros a b c [L1 G1] [L2 G2]. split; [congruence | auto].
Qed.

Lemma Static_map f ls : (∀ a, sameStatic a (f a)) → Static ls (map f ls).
Proof. intros H. apply Forall2_map. eauto. Qed.

Lemma Static_alter f i ls : (∀ a, sameStatic a (f a)) → Static ls (alter f i ls).
Proof.
  intros H. apply Forall2_alter_at; intros; [apply sameStatic_refl | apply H].
Qed.

Lemma sameStatic_syncOne from to now light a :
  sameStatic a (syncOne from to now light a).
Proof. unfold syncOne. destruct (_ && _); by repeat split. Qed.

Lemma sameStatic_perpendicularOne now light a :
  sameStatic a (perpendicularOne now light a).
Proof. unfold perpendicularOne. destruct (_ && _); by repeat split. Qed.

Lemma sameStatic_targetOne now loc tg a : sameStatic a (targetOne now loc tg a).
Proof. unfold targetOne. destruct (_ && _); by repeat split. Qed.

Lemma sameStatic_forceNorthSouthOne loc a :
  sameStatic a (forceNorthSouthOne loc a).
Proof. unfold forceNorthSouthOne. destruct (_ && _); by repeat split. Qed.

Lemma targetToWaiting_Static now light ls :
  Static ls (targetToWaiting now light ls).
Proof.
  unfold targetToWaiting. destruct (JS.truthy _); [| apply Static_refl].
  match goal with |- context [forallb ?f ?l] => destruct (forallb f l) end.
  - eapply Static_trans; apply Static_map.
    + apply sameStatic_targetOne.
    + intros a. apply Quiet_clearTargetOne.
  - apply Static_map, sameStatic_targetOne.
Qed.

Lemma advanceState_Static now i isSmartControl ls :
  Static ls (advanceState now i isSmartControl ls).
Proof.
  unfold advanceState. destruct (ls !! i) as [light |]; [| apply Static_refl].
  destruct (state light).
  - apply Static_refl.
  - eapply Static_trans; [apply (Static_alter (set_state red)) |].
    { intros a. by repeat split. }
    eapply Static_trans;
      [apply Static_map, (sameStatic_syncOne yellow red) |].
    destruct isSmartControl.
    + apply targetToWaiting_Static.
    + apply Static_map, sameStatic_perpendicularOne.
  - eapply Static_trans; [apply (Static_alter (set_state yellow)) |].
    { intros a. by repeat split. }
    apply Static_map, sameStatic_syncOne.
  - eapply Static_trans; [apply (Static_alter (set_state green)) |].
    { intros a. by repeat split. }
    apply Static_map, sameStatic_syncOne.
Qed.

Lemma applySmartDecision_Static d now loc ls :
  Static ls (applySmartDecision d now loc ls).
Proof.
  unfold applySmartDecision. destruct (action d).
  - apply Static_map. intros a. apply switchOne_spec.
  - destruct (JS.truthy _); [| apply Static_refl].
    apply Static_map. intros a. apply Quiet_keepGreenOne.
Qed.

Lemma filter_location_length loc ls ls' :
  Forall2 (λ a a', locationId a' = locationId a) ls ls' →
  length (intersectionLightsOf loc ls') = length (intersectionLightsOf loc ls).
Proof.
  unfold intersectionLightsOf.
  induction 1 as [| a a' ls ls' Ha _ IH]; [done |].
  rewrite !filter_cons, Ha.
  destruct (decide (locationId a = loc)); simpl; congruence.
Qed.

Lemma Validated_keeps loc ls ls' :
  Forall2 keepsNorthSouth ls ls' → Validated loc ls → Validated loc ls'.
Proof.
  intros HF [Hlen (k & l & Hk & Hl & Hg)]. split.
  - rewrite (filter_location_length loc ls ls'); [done |].
    eapply Forall2_impl; [exact HF |]. by intros a b [? _].
  - destruct (Forall2_lookup_l _ _ _ _ _ HF Hk) as (l' & Hk' & L & G).
    exists k, l'. split; [done |]. split; [congruence | auto].
Qed.

Section Validator.

Context {Cars Streets Locations : Type}.
Variable collect :
  string → Cars → Streets → Locations → list Light → list ApproachingCar.

Lemma updateTrafficLight_keeps now i dt isSmartControl cars streets
    locations ls :
  Forall2 keepsNorthSouth ls
    (updateTrafficLight collect now i dt isSmartControl cars streets
       locations ls).
Proof.
  unfold updateTrafficLight.
  destruct (ls !! i) as [light0 |] eqn:Hi;
    [| apply Static_keeps, Static_refl].
  set (s1 := alter _ i ls).
  assert (H1 : Static ls s1).
  { apply Static_alter. intros a. by repeat split. }
  assert (Hi1 : ∀ a, s1 !! i = Some a
                     → oppositeGroupId a = oppositeGroupId light0).
  { intros a. subst s1. rewrite list_lookup_alter_eq, Hi. simpl.
    by intros [= <-]. }
  set (s2 := if _ && _ then _ else s1).
  assert (H2 : Forall2 keepsNorthSouth s1 s2).
  { subst s2. destruct (JS.truthy (oppositeGroupId light0)) eqn:Hg; simpl;
      [apply Static_keeps, Static_refl |].
    destruct (bool_decide _); [| apply Static_keeps, Static_refl].
    apply Forall2_alter_at.
    - intros k a _ _. by split.
    - intros a Ha. split; [done |]. rewrite (Hi1 a Ha). intros E.
      rewrite E in Hg. discriminate. }
  set (s3 := if isSmartControl then _ else s2).
  assert (H3 : Static s2 s3).
  { subst s3. destruct isSmartControl; [| apply Static_refl].
    unfold smartControlStep.
    destruct (s2 !! i); [| apply Static_refl].
    destruct (_ || _); [| apply Static_refl].
    eapply Static_trans; [| apply applySmartDecision_Static].
    apply Static_map. intros a. apply Quiet_markSmartUpdate. }
  assert (H4 : Forall2 keepsNorthSouth ls s3).
  { eapply keeps_trans; [apply Static_keeps, H1 |].
    eapply keeps_trans; [exact H2 | apply Static_keeps, H3]. }
  destruct (s3 !! i); [| exact H4].
  destruct (JS.geb_inf _ _); [| exact H4].
  eapply keeps_trans; [exact H4 |]. apply Static_keeps.
  eapply Static_trans; [| apply advanceState_Static].
  apply Static_alter. intros a. by repeat split.
Qed.

Lemma updateAll_keeps clock dt isSmartControl cars streets locations ls :
  Forall2 keepsNorthSouth ls
    (updateAll collect clock dt isSmartControl cars streets locations ls).
Proof.
  unfold updateAll. generalize (seq 0 (length ls)). intros idx.
  revert ls. induction idx as [| i idx IH]; intros ls; simpl.
  - apply Static_keeps, Static_refl.
  - eapply keeps_trans; [| apply IH]. apply updateTrafficLight_keeps.
Qed.

End Validator.

Lemma firstOccurrences_complete (k : string) (l : list string) :
  k ∈ l → k ∈ firstOccurrences l.
Proof.
  induction l as [| x l IH]; simpl; [done |].
  destruct (decide (k = x)) as [-> | Hne]; [intros _; by left |].
  intros [-> | H]%elem_of_cons; [done |].
  right. apply list_elem_of_filter. split; [done | by apply IH].
Qed.

Lemma foldl_Qmin_attained (r : list Light) (init : Q) :
  (init <= foldl (λ m x, Qmin m (timer x)) init r)%Q
  ∨ ∃ x, x ∈ r ∧ (timer x <= foldl (λ m x, Qmin m (timer x)) init r)%Q.
Proof.
  revert init. induction r as [| y r IH]; intros init; simpl.
  - left. apply Qle_refl.
  - destruct (IH (Qmin init (timer y))) as [H | (x & Hx & H)].
    + destruct (Q.min_dec init (timer y)) as [E | E].
      * left. eapply Qle_trans; [| exact H]. rewrite E. apply Qle_refl.
      * right. exists y. split; [by left |].
        eapply Qle_trans; [| exact H]. rewrite E. apply Qle_refl.
    + right. exists x. split; [by right | done].
Qed.

Lemma minTimer_attained ls t :
  minTimer ls = Some t → ∃ x, x ∈ ls ∧ (timer x <= t)%Q.
Proof.
  destruct ls as [| l r]; [done |]. simpl. intros [= <-].
  destruct (foldl_Qmin_attained r (timer l)) as [H | (x & Hx & H)].
  - exists l. split; [by left | done].
  - exists x. split; [by right | done].
Qed.

Lemma filter_length_some {A} (P : A → Prop) `{!∀ x, Decision (P x)}
    (l : list A) :
  length (filter P l) ≠ length l → ∃ x, x ∈ l ∧ ¬ P x.
Proof.
  induction l as [| x l IH]; [done |].
  rewrite filter_cons. destruct (decide (P x)) as [Hx | Hx]; simpl.
  - intros Hlen. destruct IH as (y & Hy & Hny); [congruence |].
    exists y. split; [by right | done].
  - intros _. exists x. split; [by left | done].
Qed.

(** [forceExtraGreens] leaves the first two green lights of the
    intersection green, and every light that is not green as it is. *)
Lemma forceExtraGreens_keeps_one loc n ls :
  n < 2 →
  (∃ k l, ls !! k = Some l ∧ locationId l = loc ∧ state l ≠ red) →
  ∃ k l, forceExtraGreens loc n ls !! k = Some l ∧ locationId l = loc
         ∧ state l ≠ red.
Proof.
  intros Hn. induction ls as [| x ls IH]; intros (k & l & Hk & Hl & Hs);
    [done |].
  simpl. destruct (at_location loc x && state_is green x) eqn:Hx.
  - apply andb_true_iff in Hx as [Hx1 Hx2].
    apply bool_decide_eq_true_1 in Hx1. apply bool_decide_eq_true_1 in Hx2.
    exists 0, x. rewrite bool_decide_eq_false_2 by lia.
    split; [done |]. split; [done | congruence].
  - destruct k as [| k].
    + exists 0, x. simpl in Hk. by simplify_eq.
    + destruct IH as (k' & l' & Hk' & Hl' & Hs'); [by exists k, l |].
      by exists (S k'), l'.
Qed.

Lemma forceExtraGreens_frame loc loc' n ls :
  loc' ≠ loc →
  Forall2 (λ a a', locationId a = loc → a' = a) ls
    (forceExtraGreens loc' n ls).
Proof.
  intros Hne. revert n. induction ls as [| x ls IH]; intros n; simpl;
    [constructor |].
  destruct (at_location loc' x && state_is green x) eqn:Hx.
  - constructor; [| apply IH]. intros Hl.
    apply andb_true_iff in Hx as [Hx1 _].
    apply bool_decide_eq_true_1 in Hx1. congruence.
  - constructor; [done | apply IH].
Qed.

Lemma validateIntersection_Static loc ls :
  Static ls (validateIntersection loc ls).
Proof.
  unfold validateIntersection.
  case_bool_decide; [apply Static_refl |].
  set (s1 := if bool_decide (_ < _) then forceExtraGreens loc 0 ls else ls).
  assert (H1 : Static ls s1).
  { subst s1. case_bool_decide; [| apply Static_refl].
    eapply Forall2_impl; [apply forceExtraGreens_spec |].
    by intros a b [? _]. }
  case_bool_decide; [| exact H1].
  match goal with |- context [if ?c then _ else _] => destruct c end;
    [| exact H1].
  eapply Static_trans; [exact H1 |].
  apply Static_map, sameStatic_forceNorthSouthOne.
Qed.

(** The validator of another intersection does not touch the lights at
    [loc]. *)
Lemma validateIntersection_frame loc loc' ls :
  loc' ≠ loc →
  Forall2 (λ a a', locationId a = loc → a' = a) ls
    (validateIntersection loc' ls).
Proof.
  intros Hne. unfold validateIntersection.
  assert (Hrefl : ∀ l : list Light,
             Forall2 (λ a a', locationId a = loc → a' = a) l l).
  { intros l. apply Forall2_same_length_lookup. split; [done |].
    intros ? ? ? ? ? ?. by simplify_eq. }
  case_bool_decide; [apply Hrefl |].
  set (s1 := if bool_decide (_ < _) then forceExtraGreens loc' 0 ls else ls).
  assert (H1 : Forall2 (λ a a', locationId a = loc → a' = a) ls s1).
  { subst s1. case_bool_decide; [| apply Hrefl].
    by apply forceExtraGreens_frame. }
  case_bool_decide; [| exact H1].
  match goal with |- context [if ?c then _ else _] => destruct c end;
    [| exact H1].
  eapply Forall2_compose; [exact H1 | |].
  - apply (Forall2_map (λ a a', locationId a = loc → a' = a)).
    intros k a _ Hl. unfold forceNorthSouthOne, at_location.
    rewrite bool_decide_eq_false_2 by congruence. done.
  - simpl. intros a b c Hab Hbc Hl. rewrite Hbc; rewrite Hab; auto.
Qed.

Lemma Live_frame loc loc' ls :
  loc' ≠ loc → Live loc ls → Live loc (validateIntersection loc' ls).
Proof.
  intros Hne (k & l & Hk & Hl & H).
  destruct (Forall2_lookup_l _ _ _ _ _
              (validateIntersection_frame loc loc' ls Hne) Hk)
    as (l' & Hk' & E).
  rewrite (E Hl) in Hk'. by exists k, l.
Qed.

(** The validator of the intersection itself. *)
Lemma validateIntersection_Live loc ls :
  Validated loc ls → Live loc (validateIntersection loc ls).
Proof.
  intros [Hlen (kn & ln & Hkn & Hln & Hgn)]. unfold validateIntersection.
  rewrite bool_decide_eq_false_2 by lia.
  set (s1 := if bool_decide (_ < _) then forceExtraGreens loc 0 ls else ls).
  assert (H1 : Static ls s1).
  { subst s1. case_bool_decide; [| apply Static_refl].
    eapply Forall2_impl; [apply forceExtraGreens_spec |].
    by intros a b [? _]. }
  case_bool_decide as Hred.
  - match goal with |- context [if ?c then _ else _] => destruct c eqn:Hmin end.
    + (* the north-south lights are forced to green *)
      destruct (Forall2_lookup_l _ _ _ _ _ H1 Hkn) as (l1 & Hk1 & _ & L1 & G1).
      exists kn, (forceNorthSouthOne loc l1).
      split; [by rewrite lookup_map, Hk1 |].
      unfold forceNorthSouthOne, at_location, in_group.
      rewrite !bool_decide_eq_true_2 by congruence. simpl.
      split; [congruence | by left].
    + (* some light has been red for 3 seconds at most *)
      destruct (minTimer (intersectionLightsOf loc s1)) as [t |] eqn:Ht;
        [| done].
      apply JSFacts.gtb_le in Hmin.
      destruct (minTimer_attained _ _ Ht) as (x & Hx & Hle).
      apply list_elem_of_filter in Hx as [Lx Hx].
      apply list_elem_of_lookup in Hx as [k Hk].
      exists k, x. split; [done |]. split; [done |]. right.
      eapply Qle_trans; eauto.
  - (* some light of the intersection is not red *)
    unfold intersectionLightsOf in Hred.
    destruct (filter_length_some _ _ Hred) as (x & Hx & Hnr).
    apply list_elem_of_filter in Hx as [Lx Hx].
    apply list_elem_of_lookup in Hx as [k Hk].
    assert (Hex : ∃ k l, s1 !! k = Some l ∧ locationId l = loc
                         ∧ state l ≠ red).
    { subst s1. case_bool_decide; [| by exists k, x].
      apply forceExtraGreens_keeps_one; [lia | by exists k, x]. }
    destruct Hex as (k' & l' & Hk' & Hl' & Hs').
    exists k', l'. split; [done |]. split; [done | by left].
Qed.

Lemma validateIntersectionSafety_Live loc ls :
  Validated loc ls → Live loc (validateIntersectionSafety ls).
Proof.
  intros HV. unfold validateIntersectionSafety.
  assert (Hin : loc ∈ firstOccurrences (map locationId ls)).
  { apply firstOccurrences_complete.
    destruct HV as [_ (k & l & Hk & Hl & _)].
    apply list_elem_of_fmap. exists l. split; [done |].
    eapply list_elem_of_lookup_2; eauto. }
  revert Hin. generalize (firstOccurrences (map locationId ls)).
  intros locs Hin.
  assert (Hgen : ∀ s, Validated loc s → Live loc s ∨ loc ∈ locs →
                      Live loc (foldl (λ s l, validateIntersection l s) s locs)).
  { clear. induction locs as [| l' locs IH]; intros s HV [HL | Hin]; simpl.
    - done.
    - by inversion Hin.
    - apply IH.
      + eapply Validated_keeps; [| exact HV].
        apply Static_keeps, validateIntersection_Static.
      + destruct (decide (l' = loc)) as [-> | Hne].
        * left. by apply validateIntersection_Live.
        * left. by apply Live_frame.
    - apply IH.
      + eapply Validated_keeps; [| exact HV].
        apply Static_keeps, validateIntersection_Static.
      + destruct (decide (l' = loc)) as [-> | Hne].
        * left. by apply validateIntersection_Live.
        * right. apply elem_of_cons in Hin as [-> | Hin]; done. }
  apply Hgen; [exact HV | by right].
Qed.




(** *** Ranking and scoring *)

Lemma insertByArrival_perm c l : insertByArrival c l ≡ₚ c :: l.
Proof.
  induction l as [| d r IH]; simpl; [done |].
  destruct (JS.leb _ _); [done |].
  rewrite IH. apply Permutation_swap.
Qed.

Lemma sortByArrival_perm l : sortByArrival l ≡ₚ l.
Proof.
  induction l as [| c r IH]; simpl; [done |].
  rewrite insertByArrival_perm. by rewrite IH.
Qed.

Lemma insertByArrival_sorted c l :
  StronglySorted arrivesBy l → StronglySorted arrivesBy (insertByArrival c l).
Proof.
  induction 1 as [| d r Hr IH Hd]; simpl.
  - repeat constructor.
  - destruct (JS.leb _ _) eqn:E.
    + apply JSFacts.leb_le in E. constructor; [by constructor |].
      constructor; [exact E |].
      eapply Forall_impl; [exact Hd |]. intros x Hx.
      unfold arrivesBy in *. lra.
    + apply JSFacts.leb_gt in E. constructor; [exact IH |].
      rewrite insertByArrival_perm. constructor; [| exact Hd].
      unfold arrivesBy. lra.
Qed.

Lemma sortByArrival_sorted l : StronglySorted arrivesBy (sortByArrival l).
Proof.
  induction l as [| c r IH]; simpl; [constructor |].
  by apply insertByArrival_sorted.
Qed.

Lemma earlier_perm c l l' : l ≡ₚ l' → earlier c l = earlier c l'.
Proof. intros H. unfold earlier. by rewrite H. Qed.

Lemma earlier_same_time c d l :
  (estimatedArrivalTime c == estimatedArrivalTime d)%Q →
  earlier c l = earlier d l.
Proof.
  intros E. unfold earlier. f_equal. apply list_filter_iff.
  intros x. rewrite E. reflexivity.
Qed.

Lemma earlier_none c l :
  Forall (arrivesBy c) l → earlier c l = 0.
Proof.
  intros H. unfold earlier.
  induction H as [| x l Hx _ IH]; [done |].
  rewrite filter_cons. destruct (decide _) as [Hlt | _]; [| exact IH].
  unfold arrivesBy in Hx. lra.
Qed.

Lemma earlier_all c l :
  Forall (λ d, (estimatedArrivalTime d < estimatedArrivalTime c)%Q) l →
  earlier c l = length l.
Proof.
  intros H. unfold earlier.
  induction H as [| x l Hx _ IH]; [done |].
  rewrite filter_cons. destruct (decide _) as [_ | Hn]; [| done].
  simpl. by rewrite IH.
Qed.

Lemma earlier_app c l1 l2 : earlier c (l1 ++ l2) = earlier c l1 + earlier c l2.
Proof. unfold earlier. by rewrite filter_app, length_app. Qed.

Lemma sorted_tail_not_earlier pre c rest :
  StronglySorted arrivesBy (pre ++ c :: rest) → earlier c (c :: rest) = 0.
Proof.
  intros H. apply StronglySorted_app_1_r in H.
  apply earlier_none. inversion H as [| ? ? _ Hall]; subst.
  constructor; [unfold arrivesBy; lra | exact Hall].
Qed.

(** The invariant of the ranking loop, on the sorted list [whole] split
    at the loop index: [currentRank] is the rank of the car before the
    index, one more than the number of cars expected strictly earlier. *)
Lemma assignRanks_spec whole :
  StronglySorted arrivesBy whole →
  ∀ l pre prev currentRank,
    whole = pre ++ l →
    match last pre with
    | None => prev = None ∧ currentRank = 1%Z
    | Some p => prev = Some (estimatedArrivalTime p)
                ∧ currentRank = (1 + Z.of_nat (earlier p whole))%Z
    end →
    Forall (λ rc, rank rc = (1 + Z.of_nat (earlier (carData rc) whole))%Z)
      (assignRanks (length pre) prev currentRank l)
    ∧ map carData (assignRanks (length pre) prev currentRank l) = l.
Proof.
  intros Hsorted l.
  induction l as [| c rest IH]; intros pre prev cr Hwhole Hinv; simpl;
    [by split |].
  assert (Htail : earlier c (c :: rest) = 0)
    by (rewrite Hwhole in Hsorted; eapply sorted_tail_not_earlier; eauto).
  set (cr' := match prev with
              | Some p => if JS.gtb (estimatedArrivalTime c) p
                          then (Z.of_nat (length pre) + 1)%Z else cr
              | None => cr
              end).
  assert (Hcr' : cr' = (1 + Z.of_nat (earlier c whole))%Z).
  { subst cr'. destruct (last pre) as [p |] eqn:Hlast.
    - destruct Hinv as [-> ->].
      apply last_Some in Hlast as [pre0 ->].
      assert (Hp : arrivesBy p c).
      { rewrite Hwhole in Hsorted.
        eapply StronglySorted_app_1_elem_of; [exact Hsorted | |].
        - apply elem_of_app. right. by left.
        - by left. }
      destruct (JS.gtb _ _) eqn:E.
      + apply JSFacts.gtb_gt in E.
        rewrite Hwhole, earlier_app, Htail, Nat.add_0_r.
        rewrite earlier_all; [lia |].
        apply Forall_forall. intros x Hx.
        assert (arrivesBy x p).
        { apply elem_of_app in Hx as [Hx | Hx].
          - rewrite Hwhole in Hsorted.
            apply StronglySorted_app_1_l in Hsorted.
            eapply StronglySorted_app_1_elem_of; [exact Hsorted | done |].
            by left.
          - apply list_elem_of_singleton in Hx as ->.
            unfold arrivesBy. lra. }
        unfold arrivesBy in *. lra.
      + apply JSFacts.gtb_le in E. f_equal. f_equal.
        apply earlier_same_time. unfold arrivesBy in Hp. lra.
    - destruct Hinv as [-> ->].
      apply last_None in Hlast as ->.
      simpl in Hwhole. by rewrite Hwhole, Htail. }
  destruct (IH (pre ++ [c]) (Some (estimatedArrivalTime c)) cr') as [IH1 IH2].
  { by rewrite <- app_assoc. }
  { rewrite last_snoc. by split. }
  rewrite length_app in IH1, IH2. simpl in IH1, IH2.
  rewrite Nat.add_1_r in IH1, IH2.
  split; [constructor; [exact Hcr' | exact IH1] | by rewrite IH2].
Qed.

Lemma rankCars_spec cars :
  let ranked := rankCarsByArrivalTime cars in
  map carData ranked = sortByArrival cars
  ∧ Forall (λ rc, rank rc = (1 + Z.of_nat (earlier (carData rc) cars))%Z)
      ranked.
Proof.
  unfold rankCarsByArrivalTime.
  destruct (assignRanks_spec (sortByArrival cars) (sortByArrival_sorted cars)
              (sortByArrival cars) [] None 1%Z eq_refl) as [H1 H2];
    [by split |].
  split; [exact H2 |].
  eapply Forall_impl; [exact H1 |]. simpl. intros rc ->.
  by rewrite (earlier_perm _ _ _ (sortByArrival_perm cars)).
Qed.

(** Street scores. *)
Lemma initial_scores sid (ls : list Light) (m : gmap string Z) :
  m !! sid = Some 0%Z ∨ sid ∈ map streetId ls →
  foldl (λ m l, <[streetId l := 0%Z]> m) m ls !! sid = Some 0%Z.
Proof.
  revert m. induction ls as [| l ls IH]; intros m [H | H]; simpl.
  - done.
  - by inversion H.
  - apply IH. left. destruct (decide (streetId l = sid)) as [<- | Hne].
    + apply lookup_insert_eq.
    + by rewrite lookup_insert_ne.
  - apply IH. destruct (decide (streetId l = sid)) as [<- | Hne].
    + left. apply lookup_insert_eq.
    + right. apply elem_of_cons in H as [-> | H]; done.
Qed.

Lemma added_scores sid (rcs : list RankedCar) (m : gmap string Z) :
  foldl (λ m c, alter (λ s, (s + carScore c)%Z) (car_streetId (carData c)) m)
    m rcs !! sid
  = (λ v, (v + contributions sid rcs)%Z) <$> m !! sid.
Proof.
  revert m. induction rcs as [| c rcs IH]; intros m; simpl.
  - unfold contributions. simpl. destruct (m !! sid); simpl; [| done].
    f_equal. lia.
  - rewrite IH. unfold contributions. rewrite filter_cons.
    destruct (decide (car_streetId (carData c) = sid)) as [E | Hne].
    + rewrite E, lookup_alter_eq. destruct (m !! sid); simpl; [| done].
      f_equal. lia.
    + by rewrite lookup_alter_ne.
Qed.

(** C6 (as amended). [rankCarsByArrivalTime] returns the approaching cars
    in ascending order of estimated arrival time; the rank of a car is
    one more than the number of cars expected strictly earlier, so cars
    with equal arrival times share a rank; the score of every street of
    the intersection is the sum of 100 - rank over the cars on it; and
    100 - rank is not negative when at most 100 cars approach. *)
Theorem adaptive_scoring (approachingCarsData : list ApproachingCar)
    (intersectionLights : list Light) :
  let rankedCars := rankCarsByArrivalTime approachingCarsData in
  map carData rankedCars ≡ₚ approachingCarsData
  ∧ StronglySorted arrivesBy (map carData rankedCars)
  ∧ Forall (λ rc, rank rc
                  = (1 + Z.of_nat (earlier (carData rc) approachingCarsData))%Z)
      rankedCars
  ∧ (∀ a b, a ∈ rankedCars → b ∈ rankedCars →
            (estimatedArrivalTime (carData a)
             == estimatedArrivalTime (carData b))%Q →
            rank a = rank b)
  ∧ (∀ sid, sid ∈ map streetId intersectionLights →
            calculateStreetScores rankedCars intersectionLights !! sid
            = Some (contributions sid rankedCars))
  ∧ (length approachingCarsData ≤ 100 →
     Forall (λ rc, (0 ≤ carScore rc)%Z) rankedCars).
Proof.
  intros rankedCars.
  destruct (rankCars_spec approachingCarsData) as [Hmap Hrank].
  fold rankedCars in Hmap, Hrank.
  assert (Hperm : map carData rankedCars ≡ₚ approachingCarsData)
    by (rewrite Hmap; apply sortByArrival_perm).
  split; [exact Hperm |].
  split; [rewrite Hmap; apply sortByArrival_sorted |].
  split; [exact Hrank |].
  rewrite Forall_forall in Hrank.
  split; [| split].
  - intros a b Ha Hb E. rewrite (Hrank a Ha), (Hrank b Hb).
    by rewrite (earlier_same_time _ _ _ E).
  - intros sid Hsid. unfold calculateStreetScores.
    rewrite added_scores, (initial_scores sid) by (by right).
    simpl. f_equal.
  - intros Hlen. apply Forall_forall. intros rc Hrc.
    unfold carScore. rewrite (Hrank rc Hrc).
    assert (Hin : carData rc ∈ approachingCarsData).
    { rewrite <- Hperm. apply list_elem_of_fmap. by exists rc. }
    assert (earlier (carData rc) approachingCarsData
            < length approachingCarsData).
    { unfold earlier. eapply length_filter_lt; [exact Hin |]. lra. }
    lia.
Qed.

(** C6 on three cars, two of which are expected at the same time. *)
Lemma adaptive_scoring_witness :
  length threeCars ≤ 100
  ∧ Forall (λ rc, (0 ≤ carScore rc)%Z) (rankCarsByArrivalTime threeCars).
Proof.
  split; [simpl; lia |].
  pose proof (adaptive_scoring threeCars []) as (_ & _ & _ & _ & _ & H).
  apply H. simpl. lia.
Defined.

(** C6 as stated fails: of the hundred and one cars of [manyCars], the
    last to arrive has rank 101 and contributes -1. *)
Lemma contribution_can_be_negative :
  last (map (λ rc, (carId (carData rc), rank rc, carScore rc))
          (rankCarsByArrivalTime manyCars))
  = Some ("car-101", 101%Z, (-1)%Z).
Proof. vm_compute. reflexivity. Qed.

End LightProperties.

(** ** The properties of the vehicle engine *)

Module CarProperties.
Import CarManager CarNotions Scenarios.

Lemma randomIndex_lt r n : isDraw r → 0 < n → randomIndex r n < n.
Proof.
  intros [H0 H1] Hn. unfold randomIndex.
  set (x := (r * inject_Z (Z.of_nat n))%Q).
  assert (Hn' : (0 < inject_Z (Z.of_nat n))%Q).
  { change 0%Q with (inject_Z 0). rewrite <- Zlt_Qlt. lia. }
  assert (Hx0 : (0 <= x)%Q) by (subst x; nra).
  assert (Hx1 : (x < inject_Z (Z.of_nat n))%Q) by (subst x; nra).
  assert (Hf0 : (0 <= Qfloor x)%Z).
  { change 0%Z with (Qfloor (inject_Z 0)). by apply Qfloor_resp_le. }
  assert (Hf1 : (Qfloor x < Z.of_nat n)%Z).
  { rewrite Zlt_Qlt. eapply Qle_lt_trans; [apply Qfloor_le | exact Hx1]. }
  lia.
Qed.

Section Routing.

Variables (atan2 : Q → Q → Q) (PI : Q).

(** The decision computed on a cache miss does not depend on the draw
    when it is [None]: it is [None] only at a location without
    streets. *)
Lemma findBestNextStreet_None rd r r' loc dest dest' prev streets
    locations g :
  isDraw r → isDraw r' →
  (findBestNextStreet atan2 PI rd r loc dest prev streets locations g).1
  = None →
  (findBestNextStreet atan2 PI rd r' loc dest' prev streets locations g).1
  = None.
Proof.
  intros Hr Hr'. unfold findBestNextStreet.
  destruct (if JS.truthy g then _ else None) as [c |]; [done |].
  destruct (connectedTo loc streets) as [| s1 [| s2 [| s3 rest]]]; simpl.
  - done.
  - by destruct (JS.truthy g).
  - destruct (filter _ streets); by destruct (JS.truthy g).
  - set (cs := filter _ streets).
    destruct cs as [| c0 cs'] eqn:Ecs; [by destruct (JS.truthy g) |].
    assert (Hlt : ∀ q, isDraw q →
              is_Some ((c0 :: cs') !! randomIndex q (length (c0 :: cs')))).
    { intros q Hq. apply lookup_lt_is_Some.
      apply randomIndex_lt; [done | simpl; lia]. }
    destruct (Hlt r Hr) as [x Hx]. rewrite Hx.
    by destruct (JS.truthy g).
Qed.


End Routing.

(** *** One car, one tick *)

Section OneCar.

Variables (hypot atan2 : Q → Q → Q) (cos sin : Q → Q) (PI : Q).

Lemma newSpeed_nonneg car drive dt :
  (0 <= speed car)%Q → (0 <= dt)%Q → (0 <= newSpeed car drive dt)%Q.
Proof.
  intros Hv Hdt. unfold newSpeed.
  destruct (JS.ltb (speed car) (targetSpeed drive)) eqn:E1.
  - apply JSFacts.ltb_lt in E1. apply Q.min_glb; lra.
  - destruct (JS.gtb (speed car) (targetSpeed drive)); [| exact Hv].
    eapply Qle_trans; [| apply Q.le_max_r]. apply Q.le_max_l.
Qed.

(** What [advance] does to the fields the properties are about. *)
Lemma advance_fields now car drive dt :
  let u := advance now car drive dt in
  speed u = newSpeed car drive dt
  ∧ direction u = direction car
  ∧ currentStreetId u = currentStreetId car
  ∧ reachedDestination u = reachedDestination car
  ∧ progress u
    = match direction car with
      | forward => (progress car + newSpeed car drive dt * dt * 0.08)%Q
      | backward => (progress car - newSpeed car drive dt * dt * 0.08)%Q
      end
  ∧ (stops u = stops car ∨ stops u = (stops car + 1)%Z)
  ∧ (timeNotMoving u = timeNotMoving car
     ∨ timeNotMoving u = (timeNotMoving car + dt)%Q)
  ∧ totalDistance u = (totalDistance car + newSpeed car drive dt * dt)%Q
  ∧ streetsTraveled u = streetsTraveled car
  ∧ totalTravelTime u = totalTravelTime car
  ∧ currentStreetStartTime u = currentStreetStartTime car.
Proof.
  unfold advance. cbv zeta.
  generalize (newSpeed car drive dt). intros v.
  destruct (_ && _ && negb _); destruct (_ && _ && shouldStop drive);
    destruct (JS.ltb v 0.1); destruct (JS.truthyZ (timeNotMovingStart car));
    simpl; split_and!; auto.
Qed.

(** What [arriveAt] does to them. *)
Lemma arriveAt_fields rd draws now car u next streets locations :
  let r := (arriveAt atan2 PI rd draws now car u next streets locations).1 in
  stops r = stops u
  ∧ timeNotMoving r = timeNotMoving u
  ∧ totalDistance r = totalDistance u
  ∧ (streetsTraveled r = streetsTraveled u
     ∨ streetsTraveled r = (streetsTraveled u + 1)%Z)
  ∧ (totalTravelTime r = totalTravelTime u
     ∨ totalTravelTime r = (totalTravelTime u + secondsOnStreet now u)%Q)
  ∧ (reachedDestination r = true
     ∨ progress r = 0.05%Q ∨ progress r = 0.95%Q
     ∨ progress r = 0.99%Q ∨ progress r = 0.01%Q).
Proof.
  unfold arriveAt.
  destruct (findLocation next locations); [| simpl; split_and!; auto].
  destruct (connectedTo next streets) as [| s1 [| s2 rest]] eqn:Hc.
  - case_bool_decide;
      destruct (findBestNextStreet _ _ _ _ _ _ _ _ _ _) as [[d |] rd'];
      simpl; try destruct (rd_direction d); try destruct (direction u);
      simpl; split_and!; auto.
  - destruct (_ !! _) as [newDestination |]; simpl;
      [| split_and!; auto].
    unfold leaving. destruct (decide _); simpl; split_and!; auto.
  - case_bool_decide;
      destruct (findBestNextStreet _ _ _ _ _ _ _ _ _ _) as [[d |] rd'];
      simpl; try destruct (rd_direction d); try destruct (direction u);
      simpl; split_and!; auto.
Qed.

Lemma secondsOnStreet_nonneg now c :
  (currentStreetStartTime c <= now)%Z → (0 <= secondsOnStreet now c)%Q.
Proof.
  intros H. unfold secondsOnStreet.
  set (start := if (currentStreetStartTime c =? 0)%Z then now
                else currentStreetStartTime c).
  assert (Hs : (0 <= now - start)%Z) by (subst start; destruct (_ =? _)%Z; lia).
  assert (Hq : (0 <= inject_Z (now - start))%Q).
  { change 0%Q with (inject_Z 0). by rewrite <- Zle_Qle. }
  apply Qle_shift_div_l; lra.
Qed.

(** C10 (as amended). For a time step that is not negative, a car whose
    speed is not negative and a clock that is not before the time the
    car entered its street, the counters [stops], [timeNotMoving],
    [totalDistance], [streetsTraveled] and [totalTravelTime] of the car
    [updateCar] returns are each at least what they were, whatever the
    other cars, the lights, the graph, the random draws and the geometry
    functions. *)
Theorem counters_monotone rd draws now car streets locations lights dt
    allCars :
  (0 <= dt)%Q → (0 <= speed car)%Q →
  (currentStreetStartTime car <= now)%Z →
  let car' := (updateCar hypot atan2 cos sin PI rd draws now car streets
                 locations lights dt allCars).1 in
  (stops car <= stops car')%Z
  ∧ (timeNotMoving car <= timeNotMoving car')%Q
  ∧ (totalDistance car <= totalDistance car')%Q
  ∧ (streetsTraveled car <= streetsTraveled car')%Z
  ∧ (totalTravelTime car <= totalTravelTime car')%Q.
Proof.
  intros Hdt Hv Hnow car'. subst car'. unfold updateCar.
  assert (Hsame : (stops car <= stops car)%Z
                  ∧ (timeNotMoving car <= timeNotMoving car)%Q
                  ∧ (totalDistance car <= totalDistance car)%Q
                  ∧ (streetsTraveled car <= streetsTraveled car)%Z
                  ∧ (totalTravelTime car <= totalTravelTime car)%Q)
    by (split_and!; (lia || lra)).
  destruct (reachedDestination car); [exact Hsame |].
  destruct (findStreet _ _) as [currentStreet |]; [| exact Hsame].
  destruct (findLocation (from currentStreet) locations)
    as [fromLocation |]; [| exact Hsame].
  destruct (findLocation (to currentStreet) locations)
    as [toLocation |]; [| exact Hsame].
  cbv zeta.
  set (drive := assess _ _ _ _ _ _ _ _ _ _ _ _ _ _).
  pose proof (advance_fields now car drive dt)
    as (Hsp & _ & _ & _ & _ & Hst & Htn & Htd & Hsv & Htt & Hcs).
  pose proof (newSpeed_nonneg car drive dt Hv Hdt) as Hns.
  set (u := advance now car drive dt) in *.
  assert (Hu : (stops car <= stops u)%Z
               ∧ (timeNotMoving car <= timeNotMoving u)%Q
               ∧ (totalDistance car <= totalDistance u)%Q
               ∧ (streetsTraveled car <= streetsTraveled u)%Z
               ∧ (totalTravelTime car <= totalTravelTime u)%Q).
  { split_and!.
    - destruct Hst as [-> | ->]; lia.
    - destruct Htn as [-> | ->]; lra.
    - rewrite Htd. nra.
    - rewrite Hsv. lia.
    - rewrite Htt. lra. }
  destruct (leavesStreet u drive); [| exact Hu].
  match goal with
  | |- context [arriveAt ?a ?p ?r ?d ?n ?c ?v ?x ?s ?l] =>
      pose proof (arriveAt_fields r d n c v x s l)
        as (Rst & Rtn & Rtd & Rsv & Rtt & _)
  end.
  destruct Hu as (U1 & U2 & U3 & U4 & U5).
  pose proof (secondsOnStreet_nonneg now u) as Hsec.
  rewrite Hcs in Hsec. specialize (Hsec Hnow).
  split_and!.
  - rewrite Rst. exact U1.
  - rewrite Rtn. exact U2.
  - rewrite Rtd. exact U3.
  - destruct Rsv as [-> | ->]; lia.
  - destruct Rtt as [-> | ->]; lra.
Qed.

Lemma assess_found draws car streets locations lights allCars
    currentStreet fromLocation toLocation :
  let drive := assess hypot atan2 cos sin PI draws car streets locations
                 lights allCars currentStreet fromLocation toLocation in
  carAhead drive = findCarAhead car allCars
  ∧ crossTrafficAnalysis drive
    = findCrossTrafficCar hypot atan2 cos sin PI car allCars streets
        locations.
Proof.
  unfold assess. cbv zeta.
  repeat match goal with
         | |- context [let '(_, _) := ?x in _] => destruct x
         end.
  by split.
Qed.


End OneCar.

(** C10 on a free car in the middle of a street. *)
Lemma counters_monotone_witness :
  (0 <= 0.1)%Q ∧ (0 <= speed cruiser)%Q
  ∧ (currentStreetStartTime cruiser <= 1000)%Z
  ∧ let car' := (updateCar axisHypot axisAtan2 axisCos axisSin PIq ∅
                   noDraws 1000%Z cruiser mainStreet twoTowns [] 0.1%Q
                   [cruiser]).1 in
    (stops cruiser <= stops car')%Z
    ∧ (timeNotMoving cruiser <= timeNotMoving car')%Q
    ∧ (totalDistance cruiser <= totalDistance car')%Q
    ∧ (streetsTraveled cruiser <= streetsTraveled car')%Z
    ∧ (totalTravelTime cruiser <= totalTravelTime car')%Q.
Proof.
  assert (H1 : (0 <= 0.1)%Q) by lra.
  assert (H2 : (0 <= speed cruiser)%Q) by (simpl; lra).
  assert (H3 : (currentStreetStartTime cruiser <= 1000)%Z) by (simpl; lia).
  split; [exact H1 |]. split; [exact H2 |]. split; [exact H3 |].
  exact (counters_monotone axisHypot axisAtan2 axisCos axisSin PIq ∅ noDraws
           1000%Z cruiser mainStreet twoTowns [] 0.1%Q [cruiser] H1 H2 H3).
Defined.

(** C10 as stated fails for a negative time step: the car [standing] has
    not moved for 5 s; after [updateCar] with a step of -0.1 s its
    [timeNotMoving] is 4.9 s. *)
Lemma negative_step_decreases_counter :
  let car' := (updateCar axisHypot axisAtan2 axisCos axisSin PIq ∅ noDraws
                 1000%Z standing mainStreet twoTowns [] (-0.1)%Q
                 [standing]).1 in
  (timeNotMoving standing == 5)%Q ∧ (timeNotMoving car' == 4.9)%Q
  ∧ (timeNotMoving car' < timeNotMoving standing)%Q.
Proof. vm_compute. repeat split; congruence. Qed.




End CarProperties.

(** ** The properties of the tick driver *)

Module CanvasProperties.
Import TrafficLight CarManager Canvas CanvasNotions Scenarios
  LightInvariants.

(** *** Arrays of light objects *)

Lemma store_length heap lights vals :
  length (store heap lights vals) = length heap.
Proof.
  unfold store. generalize (zip lights vals). intros avs.
  revert heap. induction avs as [| av avs IH]; intros heap; [done |].
  change (length (foldl (λ h (av : nat * Light), <[av.1:=av.2]> h)
                    (<[av.1:=av.2]> heap) avs) = length heap).
  rewrite IH. apply length_insert.
Qed.

Lemma store_other heap lights vals a :
  a ∉ lights → store heap lights vals !! a = heap !! a.
Proof.
  unfold store. revert heap vals.
  induction lights as [| b lights IH]; intros heap vals Hnot; [done |].
  destruct vals as [| v vals]; [done |]. simpl.
  apply not_elem_of_cons in Hnot as [Hne Hnot].
  rewrite IH by done. by apply list_lookup_insert_ne.
Qed.

Lemma deref_cons heap a lights :
  deref heap (a :: lights)
  = match heap !! a with
    | Some v => v :: deref heap lights
    | None => deref heap lights
    end.
Proof. unfold deref. simpl. by destruct (heap !! a). Qed.

(** Reading an array back after its objects were written. *)
Lemma deref_store heap lights vals :
  NoDup lights → Forall (λ a, a < length heap) lights →
  length vals = length lights →
  deref (store heap lights vals) lights = vals.
Proof.
  revert heap vals.
  induction lights as [| a lights IH]; intros heap vals Hnd Hval Hlen.
  - by destruct vals.
  - destruct vals as [| v vals]; [done |].
    apply NoDup_cons in Hnd as [Hnot Hnd].
    apply Forall_cons in Hval as [Ha Hval].
    change (store heap (a :: lights) (v :: vals))
      with (store (<[a:=v]> heap) lights vals).
    rewrite deref_cons, store_other by done.
    rewrite list_lookup_insert_eq by done. f_equal.
    apply IH; [done | | by injection Hlen].
    eapply Forall_impl; [exact Hval |]. intros b Hb. simpl.
    by rewrite length_insert.
Qed.

(** An array none of whose objects was written reads as before. *)
Lemma deref_store_disjoint heap lights vals other :
  Forall (λ a, a ∉ lights) other →
  deref (store heap lights vals) other = deref heap other.
Proof.
  intros Hdis.
  induction other as [| a other IH]; [done |].
  apply Forall_cons in Hdis as [Ha Hdis].
  rewrite !deref_cons, store_other by done. by rewrite IH.
Qed.

Lemma deref_length heap lights :
  Forall (λ a, a < length heap) lights →
  length (deref heap lights) = length lights.
Proof.
  induction lights as [| a lights IH]; intros Hval; [done |].
  apply Forall_cons in Hval as [Ha Hval]. rewrite deref_cons.
  destruct (lookup_lt_is_Some_2 heap a Ha) as [v ->]. simpl.
  by rewrite IH.
Qed.

(** *** One frame *)

Section Frames.

Variables (hypot atan2 : Q → Q → Q) (cos sin : Q → Q) (PI : Q).
Variable collect :
  string → list Car → list Street → list Location → list Light
  → list ApproachingCar.

Lemma updateTrafficLights_length clock ls dt smart cars streets locations :
  length (updateTrafficLights collect clock ls dt smart cars streets
            locations)
  = length ls.
Proof.
  unfold updateTrafficLights, validateIntersectionSafety.
  set (u := updateAll collect clock dt smart cars streets locations ls).
  assert (Hu : length u = length ls).
  { symmetry. eapply Forall2_length. apply LightProperties.updateAll_keeps. }
  rewrite <- Hu. generalize (firstOccurrences (map locationId u)).
  intros locs. generalize u. clear.
  induction locs as [| loc locs IH]; intros u; simpl; [done |].
  rewrite IH. symmetry. eapply Forall2_length.
  apply LightProperties.validateIntersection_Static.
Qed.


End Frames.



End CanvasProperties.

(** ** What every update of the lights keeps *)

Module LightEngineFacts.
Import TrafficLight LightNotions MoreLightNotions LightInvariants Scenarios.

(** *** Pointwise relations along an update *)

Section Pointwise.

Context {Cars Streets Locations : Type}.
Variable collect :
  string → Cars → Streets → Locations → list Light → list ApproachingCar.

(** A relation between a light before and after, closed under the
    writes the engine performs with the time step [dt]. *)
Variable R : Light → Light → Prop.
Variable dt : Q.
Hypothesis R_refl : ∀ a, R a a.
Hypothesis R_trans : ∀ a b c, R a b → R b c → R a c.
Hypothesis R_timer : ∀ a, R a (set_timer (timer a + dt)%Q a).
Hypothesis R_group :
  ∀ a g, JS.truthy (oppositeGroupId a) = false → R a (set_oppositeGroupId g a).
Hypothesis R_mark : ∀ a t, R a (set_lastSmartUpdate t a).
Hypothesis R_target : ∀ a g, R a (set_smartSwitchTarget g a).
Hypothesis R_state : ∀ a s, R a (set_state s a).
Hypothesis R_reset : ∀ a, R a (set_timer 0%Q a).
Hypothesis R_change : ∀ a t, R a (set_lastStateChange t a).

Local Abbreviation Rs := (Forall2 R).

Lemma Rs_refl ls : Rs ls ls.
Proof. apply Forall_Forall2_diag, Forall_forall. intros a _. apply R_refl. Qed.

Lemma Rs_trans ls1 ls2 ls3 : Rs ls1 ls2 → Rs ls2 ls3 → Rs ls1 ls3.
Proof.
  intros H1 H2. eapply Forall2_compose; [exact H1 | exact H2 |].
  intros a b c. apply R_trans.
Qed.

Lemma Rs_map f ls : (∀ a, R a (f a)) → Rs ls (map f ls).
Proof. intros H. apply Forall2_map. intros k a _. apply H. Qed.

Lemma Rs_alter f i ls : (∀ a, R a (f a)) → Rs ls (alter f i ls).
Proof.
  intros H. apply Forall2_alter_at; [intros; apply R_refl |].
  intros a _. apply H.
Qed.

Lemma R_switch_to s now a : R a (switch_to s now a).
Proof.
  unfold switch_to. eapply R_trans; [apply (R_state a s) |].
  eapply R_trans; [apply R_reset | apply R_change].
Qed.

Lemma Rs_applySmartDecision d now loc ls :
  Rs ls (applySmartDecision d now loc ls).
Proof.
  unfold applySmartDecision. destruct (action d).
  - apply Rs_map. intros a. unfold switchOne.
    destruct (at_location loc a); [| apply R_refl].
    destruct (state_is green a); [| apply R_target].
    eapply R_trans; [apply R_target | apply R_switch_to].
  - destruct (JS.truthy _); [| apply Rs_refl].
    apply Rs_map. intros a. unfold keepGreenOne.
    destruct (_ && _ && _); [| apply R_refl].
    eapply R_trans; [apply R_reset | apply R_change].
Qed.

Lemma Rs_smartControlStep now i cars streets locations ls :
  Rs ls (smartControlStep collect now i cars streets locations ls).
Proof.
  unfold smartControlStep. destruct (ls !! i); [| apply Rs_refl].
  destruct (_ || _); [| apply Rs_refl].
  eapply Rs_trans; [| apply Rs_applySmartDecision].
  apply Rs_map. intros a. unfold markSmartUpdate.
  destruct (at_location _ a); [apply R_mark | apply R_refl].
Qed.

Lemma Rs_syncGroup from to now light ls :
  Rs ls (syncGroup from to now light ls).
Proof.
  apply Rs_map. intros a. unfold syncOne.
  destruct (_ && _ && _ && _); [apply R_switch_to | apply R_refl].
Qed.

Lemma Rs_advanceState now i isSmartControl ls :
  Rs ls (advanceState now i isSmartControl ls).
Proof.
  unfold advanceState. destruct (ls !! i) as [light |]; [| apply Rs_refl].
  destruct (state light).
  - apply Rs_refl.
  - eapply Rs_trans; [apply (Rs_alter (set_state red)); intros; apply R_state |].
    eapply Rs_trans; [apply Rs_syncGroup |].
    destruct isSmartControl.
    + unfold targetToWaiting. destruct (JS.truthy _); [| apply Rs_refl].
      set (s1 := map (targetOne _ _ _) _).
      assert (H1 : Rs (syncGroup yellow red now light
                         (alter (set_state red) i ls)) s1).
      { apply Rs_map. intros a. unfold targetOne.
        destruct (_ && _ && _); [apply R_switch_to | apply R_refl]. }
      destruct (forallb _ _); [| exact H1].
      eapply Rs_trans; [exact H1 |]. apply Rs_map. intros a.
      unfold clearTargetOne.
      destruct (at_location _ a); [apply R_target | apply R_refl].
    + apply Rs_map. intros a. unfold perpendicularOne.
      destruct (_ && _ && _); [apply R_switch_to | apply R_refl].
  - eapply Rs_trans;
      [apply (Rs_alter (set_state yellow)); intros; apply R_state |].
    apply Rs_syncGroup.
  - eapply Rs_trans;
      [apply (Rs_alter (set_state green)); intros; apply R_state |].
    apply Rs_syncGroup.
Qed.

Lemma Rs_updateTrafficLight now i isSmartControl cars streets locations ls :
  Rs ls (updateTrafficLight collect now i dt isSmartControl cars streets
           locations ls).
Proof.
  unfold updateTrafficLight.
  destruct (ls !! i) as [light0 |] eqn:Hi; [| apply Rs_refl].
  set (s1 := alter _ i ls).
  assert (H1 : Rs ls s1) by (apply Rs_alter; intros; apply R_timer).
  assert (Hi1 : ∀ a, s1 !! i = Some a
                     → oppositeGroupId a = oppositeGroupId light0).
  { intros a. subst s1. rewrite list_lookup_alter_eq, Hi. simpl.
    by intros [= <-]. }
  set (s2 := if _ && _ then _ else s1).
  assert (H2 : Rs s1 s2).
  { subst s2. destruct (JS.truthy (oppositeGroupId light0)) eqn:Hg; simpl;
      [apply Rs_refl |].
    destruct (bool_decide _); [| apply Rs_refl].
    apply Forall2_alter_at; [intros; apply R_refl |].
    intros a Ha. apply R_group. by rewrite (Hi1 a Ha). }
  set (s3 := if isSmartControl then _ else s2).
  assert (H3 : Rs s2 s3).
  { subst s3. destruct isSmartControl; [| apply Rs_refl].
    apply Rs_smartControlStep. }
  assert (H4 : Rs ls s3).
  { eapply Rs_trans; [exact H1 |]. eapply Rs_trans; [exact H2 | exact H3]. }
  destruct (s3 !! i); [| exact H4].
  destruct (JS.geb_inf _ _); [| exact H4].
  eapply Rs_trans; [exact H4 |].
  eapply Rs_trans; [| apply Rs_advanceState].
  apply Rs_alter. intros a. eapply R_trans; [apply R_reset | apply R_change].
Qed.

Lemma Rs_updateAll clock isSmartControl cars streets locations ls :
  Rs ls (updateAll collect clock dt isSmartControl cars streets locations ls).
Proof.
  unfold updateAll. generalize (seq 0 (length ls)). intros idx.
  revert ls. induction idx as [| i idx IH]; intros ls; simpl.
  - apply Rs_refl.
  - eapply Rs_trans; [| apply IH]. apply Rs_updateTrafficLight.
Qed.

Lemma Rs_forceExtraGreens loc n ls : Rs ls (forceExtraGreens loc n ls).
Proof.
  revert n. induction ls as [| l r IH]; intros n; simpl; [constructor |].
  destruct (at_location loc l && state_is green l).
  - constructor; [| apply IH].
    destruct (bool_decide _); [| apply R_refl].
    eapply R_trans; [apply (R_state l red) | apply R_reset].
  - constructor; [apply R_refl | apply IH].
Qed.

Lemma Rs_validateIntersection loc ls : Rs ls (validateIntersection loc ls).
Proof.
  unfold validateIntersection.
  case_bool_decide; [apply Rs_refl |].
  set (s1 := if bool_decide (_ < _) then forceExtraGreens loc 0 ls else ls).
  assert (H1 : Rs ls s1).
  { subst s1. case_bool_decide; [apply Rs_forceExtraGreens | apply Rs_refl]. }
  case_bool_decide; [| exact H1].
  match goal with |- context [if ?c then _ else _] => destruct c end;
    [| exact H1].
  eapply Rs_trans; [exact H1 |]. apply Rs_map. intros a.
  unfold forceNorthSouthOne. destruct (_ && _); [| apply R_refl].
  eapply R_trans; [apply (R_state a green) | apply R_reset].
Qed.

Lemma Rs_validateIntersectionSafety ls :
  Rs ls (validateIntersectionSafety ls).
Proof.
  unfold validateIntersectionSafety.
  generalize (firstOccurrences (map locationId ls)). intros locs.
  revert ls. induction locs as [| loc locs IH]; intros ls; simpl.
  - apply Rs_refl.
  - eapply Rs_trans; [apply Rs_validateIntersection | apply IH].
Qed.

Lemma Rs_updateTrafficLights clock ls isSmartControl cars streets locations :
  Rs ls (updateTrafficLights collect clock ls dt isSmartControl cars streets
           locations).
Proof.
  unfold updateTrafficLights.
  eapply Rs_trans; [apply Rs_updateAll | apply Rs_validateIntersectionSafety].
Qed.

End Pointwise.

Lemma keepsIdentity_refl a : keepsIdentity a a.
Proof. by repeat split. Qed.

Lemma keepsIdentity_trans a b c :
  keepsIdentity a b → keepsIdentity b c → keepsIdentity a c.
Proof.
  intros (A1 & A2 & A3 & A4 & A5 & A6) (B1 & B2 & B3 & B4 & B5 & B6).
  split_and!; try congruence.
  intros Hg. rewrite <- (A6 Hg). apply B6. by rewrite (A6 Hg).
Qed.

Section Updates.

Context {Cars Streets Locations : Type}.
Variable collect :
  string → Cars → Streets → Locations → list Light → list ApproachingCar.

(** X1. [updateTrafficLights] returns the lights it was given, in the
    same order: as many lights, each with the id, location, street, angle
    and crossing group it had, and with the opposite group it had if it
    had one. Lights are neither added nor removed, and a group once
    assigned is never changed. *)
Theorem update_keeps_identity clock ls dt isSmartControl cars streets
    locations :
  Forall2 keepsIdentity ls
    (updateTrafficLights collect clock ls dt isSmartControl cars streets
       locations).
Proof.
  apply Rs_updateTrafficLights.
  - apply keepsIdentity_refl.
  - apply keepsIdentity_trans.
  - intros a. by repeat split.
  - intros a g Hg. split_and!; try done. simpl. rewrite Hg. discriminate.
  - intros a t. by repeat split.
  - intros a g. by repeat split.
  - intros a s. by repeat split.
  - intros a. by repeat split.
  - intros a t. by repeat split.
Qed.

(** X2. With a time step that is not negative, [updateTrafficLights]
    keeps every timer that is not negative so: timers only grow by the
    time step or restart at 0. *)
Theorem update_keeps_timers_nonnegative clock ls dt isSmartControl cars
    streets locations :
  (0 <= dt)%Q →
  Forall (λ l, (0 <= timer l)%Q) ls →
  Forall (λ l, (0 <= timer l)%Q)
    (updateTrafficLights collect clock ls dt isSmartControl cars streets
       locations).
Proof.
  intros Hdt Hall.
  assert (HR : Forall2 keepsTimerSign ls
                 (updateTrafficLights collect clock ls dt isSmartControl
                    cars streets locations)).
  { apply Rs_updateTrafficLights; unfold keepsTimerSign; simpl;
      try (intros; lra); try (intros; assumption). }
  apply Forall_forall. intros l' Hl'.
  apply list_elem_of_lookup in Hl' as [k Hk].
  destruct (Forall2_lookup_r _ _ _ _ _ HR Hk) as (l & Hl & Hkeep).
  apply Hkeep. rewrite Forall_forall in Hall. apply Hall.
  eapply list_elem_of_lookup_2; eauto.
Qed.

End Updates.

(** *** The safety validator *)

Lemma greensAt_cons loc l r :
  greensAt loc (l :: r)
  = (if at_location loc l && state_is green l then 1 else 0) + greensAt loc r.
Proof.
  unfold greensAt, intersectionLightsOf, at_location, state_is.
  rewrite filter_cons. destruct (decide (locationId l = loc)) as [E | E].
  - rewrite (bool_decide_eq_true_2 _ E), filter_cons.
    destruct (decide (state l = green)) as [G | G].
    + by rewrite (bool_decide_eq_true_2 _ G).
    + by rewrite (bool_decide_eq_false_2 _ G).
  - by rewrite (bool_decide_eq_false_2 _ E).
Qed.

Lemma greensAt_forceExtraGreens loc n ls :
  greensAt loc (forceExtraGreens loc n ls) = greensAt loc ls `min` (2 - n).
Proof.
  revert n. induction ls as [| l r IH]; intros n; simpl; [done |].
  destruct (at_location loc l && state_is green l) eqn:E.
  - rewrite !greensAt_cons, E, IH. case_bool_decide as Hn.
    + assert (Hf : at_location loc (set_timer 0 (set_state red l))
                   && state_is green (set_timer 0 (set_state red l)) = false)
        by (unfold state_is; simpl; apply andb_false_r).
      rewrite Hf. lia.
    + rewrite E. lia.
  - rewrite !greensAt_cons, E, IH. lia.
Qed.

(** The lights at [loc] of two stores that agree there. *)
Lemma intersection_frame loc ls ls' :
  Forall2 (λ a a', locationId a' = locationId a
                   ∧ (locationId a = loc → a' = a)) ls ls' →
  intersectionLightsOf loc ls' = intersectionLightsOf loc ls.
Proof.
  unfold intersectionLightsOf. induction 1 as [| a a' r r' [HL HE] _ IH];
    [done |].
  rewrite !filter_cons, IH.
  destruct (decide (locationId a = loc)) as [E | E].
  - rewrite (HE E). by rewrite decide_True.
  - rewrite decide_False by congruence. done.
Qed.

Lemma validateIntersection_other loc loc' ls :
  loc' ≠ loc →
  intersectionLightsOf loc (validateIntersection loc' ls)
  = intersectionLightsOf loc ls.
Proof.
  intros Hne. apply intersection_frame.
  pose proof (LightProperties.validateIntersection_Static loc' ls) as HS.
  pose proof (LightProperties.validateIntersection_frame loc loc' ls Hne)
    as HF.
  clear Hne. revert HF. induction HS as [| a a' r r' (_ & HL & _) _ IH];
    intros HF; [constructor |].
  apply Forall2_cons in HF as [HF1 HF2].
  constructor; [by split | by apply IH].
Qed.

Lemma allRed_no_greens loc ls :
  length (filter (λ l, state l = red) (intersectionLightsOf loc ls))
  = length (intersectionLightsOf loc ls) →
  greensAt loc ls = 0.
Proof.
  intros H. apply filter_length_all in H. unfold greensAt.
  induction H as [| l r Hl _ IH]; [done |].
  rewrite filter_cons, decide_False by congruence. exact IH.
Qed.

Lemma validateIntersection_limits loc ls :
  4 ≤ length (intersectionLightsOf loc ls) →
  greensLimited loc (validateIntersection loc ls).
Proof.
  intros Hlen. unfold validateIntersection.
  rewrite bool_decide_eq_false_2 by lia.
  fold (greensAt loc ls).
  set (s1 := if bool_decide (2 < greensAt loc ls)
             then forceExtraGreens loc 0 ls else ls).
  assert (H1 : greensAt loc s1 ≤ 2).
  { subst s1. case_bool_decide; [| lia].
    rewrite greensAt_forceExtraGreens. lia. }
  case_bool_decide as Hred; [| by left].
  assert (Hs1 : s1 = ls).
  { subst s1. rewrite (allRed_no_greens _ _ Hred).
    by rewrite bool_decide_eq_false_2 by lia. }
  rewrite Hs1.
  match goal with |- context [if ?c then _ else _] => destruct c end;
    [| left; by rewrite <- Hs1].
  right. apply filter_length_all in Hred.
  unfold intersectionLightsOf in *.
  clear -Hred. induction ls as [| l r IH]; [constructor |].
  simpl. rewrite filter_cons in Hred. unfold forceNorthSouthOne at 1.
  destruct (decide (locationId l = loc)) as [E | E].
  - apply Forall_cons in Hred as [Hl Hr].
    unfold at_location, in_group. rewrite (bool_decide_eq_true_2 _ E). simpl.
    case_bool_decide as Hg.
    + rewrite filter_cons, decide_True by done.
      constructor; [done | by apply IH].
    + rewrite filter_cons, decide_True by done.
      constructor; [congruence | by apply IH].
  - unfold at_location. rewrite (bool_decide_eq_false_2 _ E). simpl.
    rewrite filter_cons, decide_False by done. by apply IH.
Qed.

Lemma validateIntersectionSafety_limits loc ls :
  4 ≤ length (intersectionLightsOf loc ls) →
  greensLimited loc (validateIntersectionSafety ls).
Proof.
  intros Hlen. unfold validateIntersectionSafety.
  assert (Hin : loc ∈ firstOccurrences (map locationId ls)).
  { apply LightProperties.firstOccurrences_complete.
    destruct (intersectionLightsOf loc ls) as [| l r] eqn:E;
      [simpl in Hlen; lia |].
    assert (Hl : l ∈ intersectionLightsOf loc ls) by (rewrite E; left).
    apply list_elem_of_filter in Hl as [Hloc Hl].
    apply list_elem_of_fmap. by exists l. }
  revert Hin. generalize (firstOccurrences (map locationId ls)).
  intros locs Hin.
  assert (Hgen : ∀ s, 4 ≤ length (intersectionLightsOf loc s) →
                      greensLimited loc s ∨ loc ∈ locs →
                      greensLimited loc
                        (foldl (λ s l, validateIntersection l s) s locs)).
  { clear. induction locs as [| l' locs IH]; intros s Hlen [HL | Hin]; simpl.
    - done.
    - by inversion Hin.
    - destruct (decide (l' = loc)) as [-> | Hne].
      + apply IH; [| left; by apply validateIntersection_limits].
        rewrite (LightProperties.filter_location_length loc s); [done |].
        eapply Forall2_impl;
          [apply LightProperties.validateIntersection_Static |].
        by intros a b (_ & ? & _).
      + apply IH.
        * by rewrite validateIntersection_other.
        * left. unfold greensLimited, greensAt in *.
          by rewrite validateIntersection_other.
    - destruct (decide (l' = loc)) as [-> | Hne].
      + apply IH; [| left; by apply validateIntersection_limits].
        rewrite (LightProperties.filter_location_length loc s); [done |].
        eapply Forall2_impl;
          [apply LightProperties.validateIntersection_Static |].
        by intros a b (_ & ? & _).
      + apply IH.
        * by rewrite validateIntersection_other.
        * right. apply elem_of_cons in Hin as [-> | Hin]; done. }
  apply Hgen; [exact Hlen | by right].
Qed.

Section Validation.

Context {Cars Streets Locations : Type}.
Variable collect :
  string → Cars → Streets → Locations → list Light → list ApproachingCar.

(** X3. After every [updateTrafficLights], at an intersection with four
    or more lights at most two lights are green, unless every green light
    there belongs to the group "north-south" (the lights the all-red
    recovery switches on). *)
Theorem update_limits_greens clock ls dt isSmartControl cars streets
    locations loc :
  4 ≤ length (intersectionLightsOf loc ls) →
  greensLimited loc
    (updateTrafficLights collect clock ls dt isSmartControl cars streets
       locations).
Proof.
  intros Hlen. unfold updateTrafficLights.
  apply validateIntersectionSafety_limits.
  rewrite (LightProperties.filter_location_length loc ls); [done |].
  eapply Forall2_impl; [apply LightProperties.updateAll_keeps |].
  by intros a b [? _].
Qed.

End Validation.

Lemma validateIntersection_idle loc ls :
  (4 ≤ length (intersectionLightsOf loc ls) →
   greensAt loc ls ≤ 2 ∧ SomeNotRedAt loc ls) →
  validateIntersection loc ls = ls.
Proof.
  intros H. unfold validateIntersection.
  case_bool_decide as Hlen; [done |].
  destruct H as [Hg Hr]; [lia |].
  fold (greensAt loc ls). rewrite (bool_decide_eq_false_2 (2 < _)) by lia.
  rewrite bool_decide_eq_false_2; [done |].
  intros Hall. apply filter_length_all in Hall.
  unfold SomeNotRedAt in Hr. apply Exists_exists in Hr as (l & Hl & Hnr).
  rewrite Forall_forall in Hall. by apply Hnr, Hall.
Qed.

(** X4. The safety validator changes nothing when every intersection
    with four or more lights has at most two green lights and a light
    that is not red. *)
Theorem validator_idle ls :
  (∀ loc, 4 ≤ length (intersectionLightsOf loc ls) →
          greensAt loc ls ≤ 2 ∧ SomeNotRedAt loc ls) →
  validateIntersectionSafety ls = ls.
Proof.
  intros H. unfold validateIntersectionSafety.
  generalize (firstOccurrences (map locationId ls)). intros locs.
  induction locs as [| loc locs IH]; simpl; [done |].
  rewrite validateIntersection_idle by apply H. exact IH.
Qed.

(** X2 on the four-way intersection, one tick of the fixed timers. *)
Lemma update_keeps_timers_nonnegative_witness :
  (0 <= 0.1)%Q
  ∧ Forall (λ l, (0 <= timer l)%Q) fourWay
  ∧ Forall (λ l, (0 <= timer l)%Q)
      (updateTrafficLights noCars (λ _, 0%Z) fourWay 0.1%Q false tt tt tt).
Proof.
  assert (H1 : (0 <= 0.1)%Q) by lra.
  assert (H2 : Forall (λ l, (0 <= timer l)%Q) fourWay)
    by (apply (bool_decide_unpack _); vm_compute; exact I).
  split; [exact H1 |]. split; [exact H2 |].
  exact (update_keeps_timers_nonnegative noCars (λ _, 0%Z) fourWay 0.1%Q
           false tt tt tt H1 H2).
Defined.

(** X3 on the four-way intersection with every light red for five
    seconds. *)
Lemma update_limits_greens_witness :
  4 ≤ length (intersectionLightsOf "X" fourWayAllRed)
  ∧ greensLimited "X"
      (updateTrafficLights noCars (λ _, 0%Z) fourWayAllRed 0.1%Q false tt tt
         tt).
Proof.
  assert (H1 : 4 ≤ length (intersectionLightsOf "X" fourWayAllRed))
    by (vm_compute; lia).
  split; [exact H1 |].
  exact (update_limits_greens noCars (λ _, 0%Z) fourWayAllRed 0.1%Q false tt
           tt tt "X" H1).
Defined.

(** X4 on the four-way intersection: two lights green, two red. *)
Lemma validator_idle_witness :
  (∀ loc, 4 ≤ length (intersectionLightsOf loc fourWay) →
          greensAt loc fourWay ≤ 2 ∧ SomeNotRedAt loc fourWay)
  ∧ validateIntersectionSafety fourWay = fourWay.
Proof.
  assert (H1 : ∀ loc, 4 ≤ length (intersectionLightsOf loc fourWay) →
                      greensAt loc fourWay ≤ 2 ∧ SomeNotRedAt loc fourWay).
  { intros loc H. destruct (decide (loc = "X")) as [-> | Hne].
    - split; [vm_compute; lia |].
      apply (bool_decide_unpack _). vm_compute. exact I.
    - exfalso. revert H. unfold intersectionLightsOf, fourWay, lightAt.
      rewrite !filter_cons, filter_nil. simpl.
      rewrite !decide_False by congruence. simpl. lia. }
  split; [exact H1 |].
  exact (validator_idle fourWay H1).
Defined.

End LightEngineFacts.

(** ** Smart control: the evaluation gate and the decision *)

Module SmartControlFacts.
Import TrafficLight LightNotions MoreLightNotions LightInvariants Scenarios
  MoreScenarios.

Section Gate.

Context {Cars Streets Locations : Type}.
Variable collect :
  string → Cars → Streets → Locations → list Light → list ApproachingCar.

Lemma applySmartDecision_mark d now loc ls :
  Forall2 (λ a a', lastSmartUpdate a' = lastSmartUpdate a
                   ∧ locationId a' = locationId a)
    ls (applySmartDecision d now loc ls).
Proof.
  apply LightEngineFacts.Rs_applySmartDecision;
    try (intros; by split).
  intros a b c [A1 A2] [B1 B2]. split; congruence.
Qed.

(** X5. The smart evaluation of an intersection runs once per second for
    the intersection, not once per light: once it has run for one light
    at a time [now] other than 0, the smart step of every light of that
    intersection leaves the lights as they are during the next 999 ms. *)
Theorem smart_evaluation_once now now' i j cars streets locations
    cars' streets' locations' ls light other :
  ls !! i = Some light →
  negb (JS.truthyZ (lastSmartUpdate light))
  || (1000 <=? now - default 0%Z (lastSmartUpdate light))%Z = true →
  now ≠ 0%Z → (now' - now < 1000)%Z →
  let ls1 := smartControlStep collect now i cars streets locations ls in
  ls1 !! j = Some other → locationId other = locationId light →
  smartControlStep collect now' j cars' streets' locations' ls1 = ls1.
Proof.
  intros Hi Hopen Hnow Hlt ls1 Hj Hloc.
  apply (LightProperties.smartControlStep_closed collect now' j cars'
           streets' locations' ls1 other now); try done.
  subst ls1. unfold smartControlStep in *. rewrite Hi in *.
  rewrite Hopen in *.
  set (s1 := map (markSmartUpdate now (locationId light)) ls) in *.
  pose proof (applySmartDecision_mark
                (analyzeAndDecideSmartTraffic collect (locationId light) cars
                   streets locations
                   (intersectionLightsOf (locationId light) s1))
                now (locationId light) s1) as HF.
  destruct (Forall2_lookup_r _ _ _ _ _ HF Hj) as (a & Ha & Hu & Hl).
  rewrite Hu. subst s1. rewrite list_lookup_fmap in Ha.
  destruct (ls !! j) as [a0 |]; [| done]. simpl in Ha.
  injection Ha as <-. unfold markSmartUpdate in *.
  unfold at_location in *. case_bool_decide as E; [done |].
  exfalso. apply E. simpl in Hl. congruence.
Qed.

End Gate.

(** *** Scores *)

Lemma ranked_scores_positive cars :
  length cars < 100 →
  Forall (λ rc, (1 ≤ carScore rc)%Z) (rankCarsByArrivalTime cars).
Proof.
  intros Hlen.
  destruct (LightProperties.rankCars_spec cars) as [Hmap Hrank].
  rewrite Forall_forall in Hrank. apply Forall_forall. intros rc Hrc.
  assert (Hc : carData rc ∈ cars).
  { rewrite <- (LightProperties.sortByArrival_perm cars), <- Hmap.
    apply list_elem_of_fmap. by exists rc. }
  assert (Hlt : earlier (carData rc) cars < length cars).
  { unfold earlier. eapply length_filter_lt; [exact Hc |]. lra. }
  unfold carScore. rewrite (Hrank rc Hrc). lia.
Qed.

Lemma ranked_cars cars rc :
  rc ∈ rankCarsByArrivalTime cars → carData rc ∈ cars.
Proof.
  intros Hrc. destruct (LightProperties.rankCars_spec cars) as [Hmap _].
  rewrite <- (LightProperties.sortByArrival_perm cars), <- Hmap.
  apply list_elem_of_fmap. by exists rc.
Qed.

Lemma cars_ranked cars c :
  c ∈ cars → ∃ rc, rc ∈ rankCarsByArrivalTime cars ∧ carData rc = c.
Proof.
  intros Hc. destruct (LightProperties.rankCars_spec cars) as [Hmap _].
  rewrite <- (LightProperties.sortByArrival_perm cars), <- Hmap in Hc.
  apply list_elem_of_fmap in Hc as (rc & -> & Hrc). by exists rc.
Qed.

Lemma contributions_nonneg sid rcs :
  Forall (λ rc, (1 ≤ carScore rc)%Z) rcs → (0 ≤ contributions sid rcs)%Z.
Proof.
  unfold contributions. induction 1 as [| rc rcs H1 _ IH]; [done |].
  rewrite filter_cons. destruct (decide _); simpl; lia.
Qed.

Lemma contributions_positive sid rcs rc :
  Forall (λ rc, (1 ≤ carScore rc)%Z) rcs →
  rc ∈ rcs → car_streetId (carData rc) = sid →
  (0 < contributions sid rcs)%Z.
Proof.
  intros Hall Hrc Hs. revert Hrc.
  induction Hall as [| x rcs H1 Hall IH]; intros Hrc; [by inversion Hrc |].
  pose proof (contributions_nonneg sid rcs Hall) as H0.
  unfold contributions in *. rewrite filter_cons.
  apply elem_of_cons in Hrc as [<- | Hrc].
  - rewrite decide_True by done. simpl. lia.
  - specialize (IH Hrc). destruct (decide _); simpl; lia.
Qed.

Lemma contributions_none sid rcs :
  (∀ rc, rc ∈ rcs → car_streetId (carData rc) ≠ sid) →
  contributions sid rcs = 0%Z.
Proof.
  intros H. unfold contributions.
  induction rcs as [| x rcs IH]; [done |].
  rewrite filter_cons, decide_False by (apply H; left).
  apply IH. intros rc Hrc. apply H. by right.
Qed.

Lemma street_score rcs ls l :
  l ∈ ls →
  scoreOf (calculateStreetScores rcs ls) (streetId l)
  = contributions (streetId l) rcs.
Proof.
  intros Hl. unfold scoreOf, calculateStreetScores.
  rewrite LightProperties.added_scores, LightProperties.initial_scores.
  - simpl. lia.
  - right. apply list_elem_of_fmap. by exists l.
Qed.

Lemma sum_from (f : Light → Z) (L : list Light) (init : Z) :
  foldl (λ total l, (total + f l)%Z) init L
  = (init + foldl (λ total l, (total + f l)%Z) 0%Z L)%Z.
Proof.
  revert init. induction L as [| l L IH]; intros init; simpl; [lia |].
  rewrite (IH (init + f l)%Z), (IH (0 + f l)%Z). lia.
Qed.

Lemma sum_nonneg (f : Light → Z) (L : list Light) :
  (∀ l, l ∈ L → (0 ≤ f l)%Z) →
  (0 ≤ foldl (λ total l, (total + f l)%Z) 0%Z L)%Z.
Proof.
  induction L as [| l L IH]; intros H; simpl; [lia |].
  rewrite sum_from. specialize (H l (list_elem_of_here _ _)) as H0.
  assert (0 ≤ foldl (λ total l, (total + f l)%Z) 0%Z L)%Z
    by (apply IH; intros; apply H; by right).
  lia.
Qed.

Lemma sum_positive (f : Light → Z) (L : list Light) l0 :
  (∀ l, l ∈ L → (0 ≤ f l)%Z) → l0 ∈ L → (0 < f l0)%Z →
  (0 < foldl (λ total l, (total + f l)%Z) 0%Z L)%Z.
Proof.
  induction L as [| l L IH]; intros H Hl0 Hpos; [by inversion Hl0 |].
  simpl. rewrite sum_from.
  pose proof (H l (list_elem_of_here _ _)) as H0.
  assert (H1 : (0 ≤ foldl (λ total l, (total + f l)%Z) 0%Z L)%Z).
  { apply sum_nonneg. intros. apply H. by right. }
  apply elem_of_cons in Hl0 as [<- | Hl0]; [lia |].
  assert (0 < foldl (λ total l, (total + f l)%Z) 0%Z L)%Z.
  { apply IH; [| done | done]. intros. apply H. by right. }
  lia.
Qed.

Lemma sum_zero (f : Light → Z) (L : list Light) :
  (∀ l, l ∈ L → f l = 0%Z) →
  foldl (λ total l, (total + f l)%Z) 0%Z L = 0%Z.
Proof.
  induction L as [| l L IH]; intros H; simpl; [done |].
  rewrite (H l) by left. apply IH. intros. apply H. by right.
Qed.

Lemma truthy_key g : JS.truthy g = true → g = Some (groupKey g).
Proof. destruct g; [done | discriminate]. Qed.

(** *** The decision *)

Section Decision.

Context {Cars Streets Locations : Type}.
Variable collect :
  string → Cars → Streets → Locations → list Light → list ApproachingCar.

(** The scores of the groups when cars approach on the streets of [g]
    only: positive for [g], 0 for every other group. *)
Lemma lone_demand_scores g approaching ls :
  Forall (λ l, JS.truthy (oppositeGroupId l) = true) ls →
  DemandOnlyOn g approaching ls →
  let pairScores :=
    combineOppositeStreetScores
      (calculateStreetScores (rankCarsByArrivalTime approaching) ls) ls in
  (∃ s, (g, s) ∈ pairScores)
  ∧ ∀ k s, (k, s) ∈ pairScores →
           if decide (k = g) then (0 < s)%Z else s = 0%Z.
Proof.
  intros Hgrouped (Hne & Hlen & Hcars) pairScores.
  set (rcs := rankCarsByArrivalTime approaching) in *.
  pose proof (ranked_scores_positive approaching Hlen) as Hpos.
  fold rcs in Hpos. rewrite Forall_forall in Hgrouped.
  assert (Hkey : ∀ l, l ∈ ls → groupKey (oppositeGroupId l) = g
                      → oppositeGroupId l = Some g).
  { intros l Hl <-. by apply truthy_key, Hgrouped. }
  assert (Hex0 : ∃ c0, c0 ∈ approaching).
  { destruct approaching as [| c0 rest]; [done |]. exists c0. left. }
  destruct Hex0 as [c0 Hc0].
  destruct (Hcars c0 Hc0) as [(l0 & Hl0 & Hs0) Hg0].
  pose proof (Hg0 l0 Hl0 Hs0) as Hgl0.
  destruct (cars_ranked approaching c0 Hc0) as (rc0 & Hrc0 & Hd0).
  fold rcs in Hrc0.
  split.
  - subst pairScores. unfold combineOppositeStreetScores.
    eexists. apply list_elem_of_fmap. eexists. split; [reflexivity |].
    apply LightProperties.firstOccurrences_complete.
    apply list_elem_of_fmap. exists l0. split; [| done]. by rewrite Hgl0.
  - intros k s Hks. subst pairScores. unfold combineOppositeStreetScores in Hks.
    apply list_elem_of_fmap in Hks as (k' & [= -> ->] & Hk').
    destruct (decide (k' = g)) as [-> | Hne'].
    + apply (sum_positive _ _ l0).
      * intros l Hl. apply list_elem_of_filter in Hl as [_ Hl].
        rewrite street_score by done. by apply contributions_nonneg.
      * apply list_elem_of_filter. split; [by rewrite Hgl0 | done].
      * rewrite street_score by done.
        apply (contributions_positive _ _ rc0); [exact Hpos | exact Hrc0 |].
        by rewrite Hd0.
    + apply sum_zero. intros l Hl.
      apply list_elem_of_filter in Hl as [Hkl Hl].
      rewrite street_score by done. apply contributions_none.
      intros rc Hrc Hs. apply Hne'. rewrite <- Hkl.
      pose proof (ranked_cars approaching rc Hrc) as Hc.
      destruct (Hcars _ Hc) as [_ Hg]. by rewrite (Hg l Hl (eq_sym Hs)).
Qed.

Lemma lone_demand_highest g pairScores :
  (∃ s, (g, s) ∈ pairScores) →
  (∀ k s, (k, s) ∈ pairScores → if decide (k = g) then (0 < s)%Z else s = 0%Z) →
  ∃ s, findHighest pairScores = (s, Some g) ∧ (0 < s)%Z.
Proof.
  intros [s0 Hs0] Hall.
  destruct (LightProperties.findHighest_spec pairScores) as [Hmax Hsel].
  pose proof (Hall g s0 Hs0) as Hpos. rewrite decide_True in Hpos by done.
  pose proof (Hmax g s0 Hs0) as Hle.
  destruct (findHighest pairScores) as [m [k |]] eqn:E; simpl in *.
  - destruct Hsel as [Hin Hm]. pose proof (Hall k m Hin) as Hk.
    destruct (decide (k = g)) as [-> | Hne]; [by exists m | lia].
  - lia.
Qed.

(** X6. When cars approach an intersection, fewer than a hundred, and
    only on streets whose lights belong to one group, the smart decision
    targets that group: it keeps the lights as they are when the first
    green light belongs to the group, and switches to the group in every
    other case. *)
Theorem lone_demand_is_served loc cars streets locations ls g :
  Forall (λ l, JS.truthy (oppositeGroupId l) = true) ls →
  DemandOnlyOn g (collect loc cars streets locations ls) ls →
  let decision :=
    analyzeAndDecideSmartTraffic collect loc cars streets locations ls in
  targetGroup decision = Some g
  ∧ (action decision = NONE ↔ firstGreenGroup ls = Some g).
Proof.
  intros Hgrouped Hdemand decision.
  destruct (lone_demand_scores g _ ls Hgrouped Hdemand) as [Hex Hall].
  destruct (lone_demand_highest g _ Hex Hall) as (s & Hhigh & Hs).
  assert (Hg : JS.truthy (Some g) = true).
  { destruct Hdemand as (Hne & _ & Hcars).
    destruct (collect loc cars streets locations ls) as [| c0 rest];
      [done |].
    destruct (Hcars c0) as [(l0 & Hl0 & Hs0) Hg0]; [left |].
    rewrite <- (Hg0 l0 Hl0 Hs0). rewrite Forall_forall in Hgrouped.
    by apply Hgrouped. }
  subst decision. unfold analyzeAndDecideSmartTraffic.
  destruct ls as [| l1 ls'] eqn:Els.
  { destruct Hex as [s0 Hs0]. by inversion Hs0. }
  rewrite <- Els in *. unfold makeTrafficLightDecision. rewrite Hhigh.
  fold (firstGreenGroup ls).
  assert (Hnz : (s =? 0)%Z = false) by (apply Z.eqb_neq; lia).
  rewrite Hg, Hnz. simpl negb. simpl orb.
  unfold JS.orElse. rewrite Hg.
  destruct (forallb (state_is red) ls) eqn:Hred.
  - (* every light is red: no light is green *)
    assert (Hnone : firstGreenGroup ls = None).
    { unfold firstGreenGroup.
      rewrite forallb_forall in Hred.
      destruct (filter _ ls) as [| x r] eqn:Ef; [done |].
      assert (Hx : x ∈ filter (λ l, state l = green) ls)
        by (rewrite Ef; left).
      apply list_elem_of_filter in Hx as [Hgx Hx].
      apply list_elem_of_In in Hx. specialize (Hred x Hx).
      unfold state_is in Hred. apply bool_decide_eq_true in Hred.
      congruence. }
    rewrite Hnone.
    pose proof Hg as Hg'. simpl in Hg'.
    destruct (maxTimer ls) as [m |]; [destruct (JS.gtb m 2) |];
      simpl; rewrite ?Hg'; simpl; (split; [done | split; discriminate]).
  - simpl. case_bool_decide as Hcur; simpl.
    + split; [done |]. by split.
    + split; [done |]. split; [discriminate | congruence].
Qed.

(** X7. When no car approaches and a light with a group is green, the
    smart decision is to keep the current state: it names the group of
    the first green light and does not switch. *)
Theorem idle_roads_keep_phase loc cars streets locations ls :
  collect loc cars streets locations ls = [] →
  JS.truthy (firstGreenGroup ls) = true →
  let decision :=
    analyzeAndDecideSmartTraffic collect loc cars streets locations ls in
  action decision = NONE
  ∧ targetGroup decision = firstGreenGroup ls
  ∧ reason decision = NO_CARS_KEEP_CURRENT.
Proof.
  intros Hnone Hgreen decision. subst decision.
  unfold analyzeAndDecideSmartTraffic.
  destruct ls as [| l1 ls'] eqn:Els; [done |].
  rewrite <- Els in *. rewrite Hnone.
  set (pairScores := combineOppositeStreetScores _ ls).
  assert (Hzero : ∀ k s, (k, s) ∈ pairScores → s = 0%Z).
  { intros k s Hks. subst pairScores.
    unfold combineOppositeStreetScores in Hks.
    apply list_elem_of_fmap in Hks as (k' & [= -> ->] & Hk').
    apply sum_zero. intros l Hl. apply list_elem_of_filter in Hl as [_ Hl].
    rewrite street_score by done. apply contributions_none.
    intros rc Hrc. unfold rankCarsByArrivalTime in Hrc. simpl in Hrc.
    by inversion Hrc. }
  destruct (LightProperties.findHighest_spec pairScores) as [_ Hsel].
  unfold makeTrafficLightDecision.
  destruct (findHighest pairScores) as [m [k |]] eqn:E; simpl in Hsel.
  { destruct Hsel as [Hin Hm]. rewrite (Hzero k m Hin) in Hm. lia. }
  subst m. fold (firstGreenGroup ls).
  assert (Hred : forallb (state_is red) ls = false).
  { apply not_true_is_false. intros Hred. rewrite forallb_forall in Hred.
    unfold firstGreenGroup in Hgreen.
    destruct (filter _ ls) as [| x r] eqn:Ef; [done |].
    assert (Hx : x ∈ filter (λ l, state l = green) ls) by (rewrite Ef; left).
    apply list_elem_of_filter in Hx as [Hgx Hx].
    apply list_elem_of_In in Hx. specialize (Hred x Hx).
    unfold state_is in Hred. apply bool_decide_eq_true in Hred.
    congruence. }
  rewrite Hred, Hgreen. simpl. done.
Qed.

End Decision.

(** X5 on the four-way intersection: the evaluation runs for the first
    light at 1000 ms; half a second later the step of the second light
    changes nothing. *)
Lemma smart_evaluation_once_witness :
  let light := lightAt "n" "opposite-X-0" green 0.3%Q in
  let ls1 := smartControlStep eastDemand 1000%Z 0 tt tt tt fourWay in
  let other := default light (ls1 !! 1) in
  fourWay !! 0 = Some light
  ∧ negb (JS.truthyZ (lastSmartUpdate light))
    || (1000 <=? 1000 - default 0%Z (lastSmartUpdate light))%Z = true
  ∧ 1000%Z ≠ 0%Z ∧ (1500 - 1000 < 1000)%Z
  ∧ ls1 !! 1 = Some other ∧ locationId other = locationId light
  ∧ smartControlStep eastDemand 1500%Z 1 tt tt tt ls1 = ls1.
Proof.
  intros light ls1 other.
  assert (H1 : fourWay !! 0 = Some light) by reflexivity.
  assert (H2 : negb (JS.truthyZ (lastSmartUpdate light))
               || (1000 <=? 1000 - default 0%Z (lastSmartUpdate light))%Z
               = true) by reflexivity.
  assert (H3 : 1000%Z ≠ 0%Z) by lia.
  assert (H4 : (1500 - 1000 < 1000)%Z) by lia.
  assert (H5 : ls1 !! 1 = Some other) by (vm_compute; reflexivity).
  assert (H6 : locationId other = locationId light)
    by (vm_compute; reflexivity).
  split_and!; [exact H1 | exact H2 | exact H3 | exact H4 | exact H5
              | exact H6 |].
  exact (smart_evaluation_once eastDemand 1000%Z 1500%Z 0 1 tt tt tt tt tt tt
           fourWay light other H1 H2 H3 H4 H5 H6).
Defined.

(** X6 on the four-way intersection: the only car comes from the east
    while north and south are green. *)
Lemma lone_demand_is_served_witness :
  let decision :=
    analyzeAndDecideSmartTraffic eastDemand "X" tt tt tt fourWay in
  Forall (λ l, JS.truthy (oppositeGroupId l) = true) fourWay
  ∧ DemandOnlyOn "opposite-X-1" (eastDemand "X" tt tt tt fourWay) fourWay
  ∧ targetGroup decision = Some "opposite-X-1"
  ∧ (action decision = NONE ↔ firstGreenGroup fourWay = Some "opposite-X-1").
Proof.
  intros decision.
  assert (H1 : Forall (λ l, JS.truthy (oppositeGroupId l) = true) fourWay)
    by (apply (bool_decide_unpack _); vm_compute; exact I).
  assert (H2 : DemandOnlyOn "opposite-X-1" (eastDemand "X" tt tt tt fourWay)
                 fourWay).
  { split; [done |]. split; [simpl; lia |].
    intros c Hc. apply list_elem_of_singleton in Hc as ->. split.
    - exists (lightAt "e" "opposite-X-1" red 1.5%Q).
      split; [| reflexivity]. apply list_elem_of_further, list_elem_of_here.
    - intros l Hl E. unfold fourWay in Hl.
      repeat (apply elem_of_cons in Hl as [-> | Hl]);
        try (by inversion Hl); try reflexivity;
        vm_compute in E; discriminate. }
  split; [exact H1 |]. split; [exact H2 |].
  exact (lone_demand_is_served eastDemand "X" tt tt tt fourWay "opposite-X-1"
           H1 H2).
Defined.

(** X7 on the four-way intersection with no car in sight. *)
Lemma idle_roads_keep_phase_witness :
  let decision :=
    analyzeAndDecideSmartTraffic noCars "X" tt tt tt fourWay in
  noCars "X" tt tt tt fourWay = []
  ∧ JS.truthy (firstGreenGroup fourWay) = true
  ∧ action decision = NONE
  ∧ targetGroup decision = firstGreenGroup fourWay
  ∧ reason decision = NO_CARS_KEEP_CURRENT.
Proof.
  intros decision.
  assert (H1 : noCars "X" tt tt tt fourWay = []) by reflexivity.
  assert (H2 : JS.truthy (firstGreenGroup fourWay) = true)
    by (vm_compute; reflexivity).
  split; [exact H1 |]. split; [exact H2 |].
  exact (idle_roads_keep_phase noCars "X" tt tt tt fourWay H1 H2).
Defined.

End SmartControlFacts.

(** ** The lights [createIntersectionTrafficLights] builds *)

Module ConstructionFacts.
Import TrafficLight CarManager LightConstruction LightNotions
  MoreLightNotions LightInvariants Scenarios MoreScenarios.

(** *** Sorting and selecting the pairs *)

Lemma insertPair_perm p l : insertPair p l ≡ₚ p :: l.
Proof.
  induction l as [| q r IH]; simpl; [done |].
  destruct (JS.leb _ _); [done |].
  rewrite IH. apply Permutation_swap.
Qed.

Lemma sortPairs_perm l : sortPairs l ≡ₚ l.
Proof.
  induction l as [| p r IH]; simpl; [done |].
  by rewrite insertPair_perm, IH.
Qed.

Section Pairs.

Variable PI : Q.

Lemma allPairs_elem angles p :
  p ∈ allPairs PI angles ↔
  ∃ i j, i < j < length angles
         ∧ p = mkPair i j
                 (oppositeScoreOf PI (default 0%Q (angles !! i))
                    (default 0%Q (angles !! j))).
Proof.
  unfold allPairs. rewrite list_elem_of_In, in_flat_map. split.
  - intros (i & Hi & Hp). apply list_elem_of_In in Hi, Hp.
    apply elem_of_seq in Hi.
    apply list_elem_of_fmap in Hp as (j & -> & Hj).
    apply elem_of_seq in Hj. exists i, j. split; [lia | done].
  - intros (i & j & Hij & ->). exists i. split.
    + apply list_elem_of_In, elem_of_seq. lia.
    + apply list_elem_of_In, list_elem_of_fmap. exists j. split; [done |].
      apply elem_of_seq. lia.
Qed.

End Pairs.

(** What the selection loop keeps true: the used indices are those of
    the groups, no index is used twice, and every pair met has an index
    in use unless the loop has stopped with [n] indices in use. *)
Lemma selection_invariant n pairs :
  (∀ p, p ∈ pairs → pair_i p ≠ pair_j p) →
  let sel := foldl (takePair n) (mkSelection [] [] false) pairs in
  usedIndices sel = flat_map (λ g, [g.1; g.2]) (oppositeGroups sel)
  ∧ NoDup (usedIndices sel)
  ∧ (∀ g, g ∈ oppositeGroups sel →
          ∃ p, p ∈ pairs ∧ g = (pair_i p, pair_j p))
  ∧ (stopped sel = true → n ≤ length (usedIndices sel))
  ∧ (∀ p, p ∈ pairs →
          pair_i p ∈ usedIndices sel ∨ pair_j p ∈ usedIndices sel
          ∨ n ≤ length (usedIndices sel)).
Proof.
  induction pairs as [| p pairs IH] using rev_ind; intros Hne sel.
  - subst sel. simpl. split_and!; try done.
    + constructor.
    + intros g Hg. by inversion Hg.
    + intros p Hp. by inversion Hp.
  - subst sel. rewrite foldl_app. simpl.
    destruct IH as (IH1 & IH2 & IH3 & IH4 & IH5).
    { intros q Hq. apply Hne, elem_of_app. by left. }
    set (acc := foldl (takePair n) (mkSelection [] [] false) pairs) in *.
    assert (Hold : ∀ q, q ∈ pairs ++ [p] →
                        (q ∈ pairs ∨ q = p)).
    { intros q Hq. apply elem_of_app in Hq as [Hq | Hq]; [by left |].
      right. by apply list_elem_of_singleton in Hq. }
    unfold takePair. destruct (stopped acc) eqn:Hstop.
    { split_and!;
        [exact IH1 | exact IH2 | | intros Hs; first [by apply IH4 | congruence] |].
      - intros g Hg. destruct (IH3 g Hg) as (q & Hq & ->).
        exists q. split; [apply elem_of_app; by left | done].
      - intros q Hq. right. right. by apply IH4. }
    case_bool_decide as Hused.
    { split_and!;
        [exact IH1 | exact IH2 | | intros Hs; first [by apply IH4 | congruence] |].
      - intros g Hg. destruct (IH3 g Hg) as (q & Hq & ->).
        exists q. split; [apply elem_of_app; by left | done].
      - intros q Hq. destruct (Hold q Hq) as [Hq' | ->]; [by apply IH5 |].
        destruct Hused; auto. }
    simpl. split_and!.
    + rewrite IH1, flat_map_app. reflexivity.
    + apply NoDup_app. split; [done |]. split.
      * intros x Hx Hx'. apply Hused.
        apply elem_of_cons in Hx' as [-> | Hx']; [by left |].
        apply list_elem_of_singleton in Hx' as ->. by right.
      * apply NoDup_cons. split; [| apply NoDup_singleton].
        intros Hin. apply list_elem_of_singleton in Hin.
        apply (Hne p); [| done]. apply elem_of_app. right. left.
    + intros g Hg. apply elem_of_app in Hg as [Hg | Hg].
      * destruct (IH3 g Hg) as (q & Hq & ->).
        exists q. split; [apply elem_of_app; by left | done].
      * apply list_elem_of_singleton in Hg as ->. exists p.
        split; [apply elem_of_app; right; left | done].
    + intros Hs. by apply bool_decide_eq_true in Hs.
    + intros q Hq. destruct (Hold q Hq) as [Hq' | ->].
      * destruct (IH5 q Hq') as [H | [H | H]].
        -- left. apply elem_of_app. by left.
        -- right. left. apply elem_of_app. by left.
        -- right. right. rewrite length_app. lia.
      * left. apply elem_of_app. right. left.
Qed.

(** Indices without repetition below [n]: there are at most [n] of
    them, and [n] of them are all of them. *)
Lemma indices_bound n (used : list nat) :
  NoDup used → (∀ k, k ∈ used → k < n) →
  length used ≤ n ∧ (n ≤ length used → ∀ k, k < n → k ∈ used).
Proof.
  intros Hnd Hlt.
  assert (Hsub : used ⊆+ seq 0 n).
  { apply NoDup_submseteq; [done |]. intros k Hk. apply elem_of_seq.
    specialize (Hlt k Hk). lia. }
  pose proof (submseteq_length _ _ Hsub) as Hlen. rewrite length_seq in Hlen.
  split; [done |]. intros Hge k Hk.
  assert (Hperm : used ≡ₚ seq 0 n).
  { apply submseteq_length_Permutation; [done |]. rewrite length_seq. lia. }
  rewrite Hperm. apply elem_of_seq. lia.
Qed.

(** *** The lights, one by one *)

Lemma omap_imap_total {A B} (f : nat → A → option B) (l : list A) :
  (∀ k x, l !! k = Some x → is_Some (f k x)) →
  length (omap id (imap f l)) = length l
  ∧ ∀ k, omap id (imap f l) !! k = l !! k ≫= f k.
Proof.
  revert f. induction l as [| x l IH]; intros f Hf; [done |].
  rewrite imap_cons.
  destruct (Hf 0 x eq_refl) as [y Hy].
  assert (E : omap id (f 0 x :: imap (f ∘ S) l)
              = y :: omap id (imap (f ∘ S) l)).
  { change (omap id (f 0 x :: imap (f ∘ S) l))
      with (match id (f 0 x) with
            | Some z => z :: omap id (imap (f ∘ S) l)
            | None => omap id (imap (f ∘ S) l)
            end).
    by rewrite Hy. }
  rewrite E.
  destruct (IH (f ∘ S)) as [IH1 IH2].
  { intros k z Hk. apply (Hf (S k) z Hk). }
  split; [simpl; by rewrite IH1 |].
  intros [| k]; [simpl; by rewrite Hy | apply IH2].
Qed.

(** The values kept by [omap] over an indexed map are those of the
    elements on which the function is defined. *)
Lemma omap_imap_filter {A B C} (f : nat → A → option B) (P : A → Prop)
    `{∀ x, Decision (P x)} (g : B → C) (h : A → C) (l : list A) :
  (∀ k x, is_Some (f k x) ↔ P x) →
  (∀ k x y, f k x = Some y → g y = h x) →
  map g (omap id (imap f l)) = map h (filter P l).
Proof.
  revert f. induction l as [| x l IH]; intros f HP Hg; [done |].
  rewrite imap_cons.
  change (omap id (f 0 x :: imap (f ∘ S) l))
    with (match id (f 0 x) with
          | Some y => y :: omap id (imap (f ∘ S) l)
          | None => omap id (imap (f ∘ S) l)
          end).
  rewrite filter_cons. unfold id at 1.
  destruct (f 0 x) as [y |] eqn:E.
  - rewrite decide_True by (apply (HP 0); by eexists).
    simpl. rewrite (Hg 0 x y E). f_equal.
    apply IH; intros k; [apply (HP (S k)) | apply (Hg (S k))].
  - rewrite decide_False.
    + apply IH; intros k; [apply (HP (S k)) | apply (Hg (S k))].
    + intros HPx. apply (HP 0) in HPx as [y Hy]. congruence.
Qed.

Lemma regrouped_refl loc a : regrouped loc a a.
Proof. exists (oppositeGroupId a). split; [by destruct a | by left]. Qed.

Lemma regrouped_trans loc a b c :
  regrouped loc a b → regrouped loc b c → regrouped loc a c.
Proof.
  intros (g1 & -> & H1) (g2 & -> & H2). exists g2.
  split; [done |]. destruct H2 as [-> | H2]; [| by right]. exact H1.
Qed.

Lemma regrouped_set loc gi a :
  regrouped loc a (set_oppositeGroupId (Some (oppositeGroupName loc gi)) a).
Proof. eexists. split; [reflexivity |]. right. by eexists. Qed.

(** What the assignment of the groups does to a light: it may replace
    its opposite group by the name of a selected group. *)
Lemma assignGroup_pointwise loc (igs : list (nat * (nat * nat))) ls :
  Forall2 (regrouped loc) ls
    (foldl (λ ls ig, assignGroup loc ls ig.1 ig.2) ls igs).
Proof.
  revert ls. induction igs as [| ig igs IH]; intros ls; simpl.
  { apply Forall_Forall2_diag, Forall_forall. intros a _.
    apply regrouped_refl. }
  eapply Forall2_compose; [| apply IH | apply regrouped_trans].
  unfold assignGroup.
  eapply Forall2_compose; [| | apply regrouped_trans].
  - apply Forall2_alter_at.
    + intros. apply regrouped_refl.
    + intros. apply regrouped_set.
  - apply Forall2_alter_at.
    + intros. apply regrouped_refl.
    + intros. apply regrouped_set.
Qed.

Section Built.

Variables (atan2 : Q → Q → Q) (PI : Q).
Variables (nowId nowChange : nat → Z) (idDraw timerDraw : nat → Q).
Variables (location : Location) (streets : list Street)
  (locations : list Location).

Lemma assignTrafficLightGroups_pointwise lights :
  Forall2 (grouped (loc_id location)) lights
    (assignTrafficLightGroups atan2 PI lights streets location locations).
Proof.
  unfold assignTrafficLightGroups.
  match goal with
  | |- Forall2 _ _ (map ?f (foldl ?step lights ?igs)) =>
      pose proof (assignGroup_pointwise (loc_id location) igs lights) as H1;
      set (lights1 := foldl step lights igs) in *;
      pose proof (Forall2_map
                    (λ a a', a' = a ∨ ∃ c, a' = set_crossingGroupId c a)
                    f lights1) as H2
  end.
  eapply Forall2_compose; [exact H1 | apply H2 |].
  - intros k a _. simpl. case_bool_decide; [right; by eexists | by left].
  - intros a b c Hab Hbc. by exists b.
Qed.

Lemma grouped_fields loc a a' :
  grouped loc a a' →
  light_id a' = light_id a ∧ locationId a' = locationId a
  ∧ streetId a' = streetId a ∧ state a' = state a ∧ timer a' = timer a
  ∧ (oppositeGroupId a' = oppositeGroupId a
     ∨ ∃ gi, oppositeGroupId a' = Some (oppositeGroupName loc gi)).
Proof.
  intros (b & (g & -> & Hg) & [-> | [c ->]]); simpl;
    (split_and!; [done .. |]);
    (destruct Hg as [-> | [gi ->]]; [by left | right; by exists gi]).
Qed.

Lemma lightFor_fields k s l0 :
  lightFor atan2 PI nowId nowChange idDraw location locations k s = Some l0 →
  light_id l0 = lightId (nowId k) (idDraw k)
  ∧ locationId l0 = loc_id location ∧ streetId l0 = street_id s
  ∧ (oppositeGroupId l0 = Some "north-south"
     ∨ oppositeGroupId l0 = Some "east-west").
Proof.
  unfold lightFor. destruct (angleTo _ _ _ _) as [a |]; [| done].
  simpl. intros [= <-]. simpl. split_and!; try done.
  destruct (isNorthSouth _); [by left | by right].
Qed.

Lemma lightFor_known k s :
  is_Some (findLocation (otherEnd (loc_id location) s) locations) →
  is_Some (lightFor atan2 PI nowId nowChange idDraw location locations k s).
Proof.
  intros [o Ho]. unfold lightFor, angleTo. rewrite Ho. simpl. by eexists.
Qed.

Lemma truthy_group loc g0 g :
  (g0 = Some "north-south" ∨ g0 = Some "east-west") →
  (g = g0 ∨ ∃ gi, g = Some (oppositeGroupName loc gi)) →
  JS.truthy g = true.
Proof. intros [-> | ->] [-> | [gi ->]]; reflexivity. Qed.

(** The lights built for three or more streets whose other ends are all
    known, one by one. *)
Lemma built_lights :
  3 ≤ length streets → AllEndsKnown location streets locations →
  let ls :=
    createIntersectionTrafficLights atan2 PI nowId nowChange idDraw
      timerDraw location streets locations in
  length ls = length streets
  ∧ ∃ first, head ls = Some first
    ∧ ∀ k s, streets !! k = Some s →
        ∃ l, ls !! k = Some l
             ∧ light_id l = lightId (nowId k) (idDraw k)
             ∧ locationId l = loc_id location
             ∧ streetId l = street_id s
             ∧ timer l = (timerDraw k * 2)%Q
             ∧ JS.truthy (oppositeGroupId l) = true
             ∧ state l = (if decide (oppositeGroupId l = oppositeGroupId first)
                          then green else red).
Proof.
  intros Hlen Hknown ls. subst ls. unfold createIntersectionTrafficLights.
  rewrite bool_decide_eq_false_2 by lia.
  set (f := lightFor atan2 PI nowId nowChange idDraw location locations).
  destruct (omap_imap_total f streets) as [Hlen0 Hlk0].
  { intros k x Hk. apply lightFor_known.
    unfold AllEndsKnown in Hknown. rewrite Forall_forall in Hknown.
    apply Hknown. eapply list_elem_of_lookup_2; eauto. }
  set (lights0 := omap id (imap f streets)) in *.
  rewrite bool_decide_eq_true_2 by lia.
  pose proof (assignTrafficLightGroups_pointwise lights0) as HF.
  set (lights1 := assignTrafficLightGroups atan2 PI lights0 streets location
                    locations) in *.
  pose proof (Forall2_length _ _ _ HF) as Hlen1.
  destruct lights1 as [| first rest] eqn:E1; [simpl in Hlen1; lia |].
  rewrite <- E1 in *.
  split; [rewrite length_imap; lia |].
  eexists. split.
  { rewrite E1. rewrite imap_cons. reflexivity. }
  intros k s Hk.
  pose proof (Hlk0 k) as H0. rewrite Hk in H0. simpl in H0.
  destruct (lightFor_known k s) as [l0 Hl0].
  { unfold AllEndsKnown in Hknown. rewrite Forall_forall in Hknown.
    apply Hknown. eapply list_elem_of_lookup_2; eauto. }
  fold f in Hl0. rewrite Hl0 in H0.
  destruct (Forall2_lookup_l _ _ _ _ _ HF H0) as (l1 & Hl1 & Hg).
  destruct (lightFor_fields k s l0 Hl0) as (F1 & F2 & F3 & F4).
  destruct (grouped_fields _ _ _ Hg) as (G1 & G2 & G3 & G4 & G5 & G6).
  eexists. split; [rewrite list_lookup_imap, Hl1; reflexivity |].
  simpl. split_and!; try congruence.
  - eapply truthy_group; [exact F4 |].
    destruct G6 as [-> | G6]; [by left | by right].
Qed.

(** The lights built are an initial intersection light set. *)
Lemma built_initial :
  3 ≤ length streets → AllEndsKnown location streets locations →
  NoDup (map (λ k, lightId (nowId k) (idDraw k)) (seq 0 (length streets))) →
  (∀ k, k < length streets → CarNotions.isDraw (timerDraw k)) →
  InitialIntersection
    (createIntersectionTrafficLights atan2 PI nowId nowChange idDraw
       timerDraw location streets locations).
Proof.
  intros Hlen Hknown Hids Hdraws.
  destruct (built_lights Hlen Hknown) as (Hl & first & Hhead & Hall).
  set (ls := createIntersectionTrafficLights _ _ _ _ _ _ _ _ _) in *.
  destruct ls as [| first' rest] eqn:Els; [done |].
  injection Hhead as ->. rewrite <- Els in *.
  unfold InitialIntersection. rewrite Els. rewrite <- Els.
  split; [lia |].
  assert (Hlook : ∀ k l, ls !! k = Some l →
            ∃ s, streets !! k = Some s
                 ∧ light_id l = lightId (nowId k) (idDraw k)
                 ∧ locationId l = loc_id location
                 ∧ timer l = (timerDraw k * 2)%Q
                 ∧ JS.truthy (oppositeGroupId l) = true
                 ∧ state l = (if decide (oppositeGroupId l
                                         = oppositeGroupId first)
                              then green else red)).
  { intros k l Hk.
    assert (Hlt : k < length streets).
    { rewrite <- Hl. eapply lookup_lt_Some; eauto. }
    destruct (lookup_lt_is_Some_2 streets k Hlt) as [s Hs].
    destruct (Hall k s Hs) as (l' & Hl' & H1 & H2 & H3 & H4 & H5 & H6).
    rewrite Hk in Hl'. injection Hl' as <-. by exists s. }
  split.
  - assert (E : map light_id ls
                = map (λ k, lightId (nowId k) (idDraw k))
                    (seq 0 (length streets))).
    { apply list_eq. intros k. rewrite !list_lookup_fmap.
      destruct (ls !! k) as [l |] eqn:Hk; simpl.
      - destruct (Hlook k l Hk) as (s & Hs & H1 & _).
        rewrite lookup_seq_lt by (eapply lookup_lt_Some; eauto).
        simpl. by rewrite H1.
      - apply lookup_ge_None in Hk. rewrite lookup_seq_ge by lia. done. }
    by rewrite E.
  - apply Forall_forall. intros l Hin.
    apply list_elem_of_lookup in Hin as [k Hk].
    destruct (Hlook k l Hk) as (s & Hs & H1 & H2 & H3 & H4 & H5).
    destruct (Hlook 0 first) as (s0 & _ & _ & H20 & _);
      [by rewrite Els |].
    assert (Hd : CarNotions.isDraw (timerDraw k)).
    { apply Hdraws. eapply lookup_lt_Some; eauto. }
    destruct Hd as [Hd0 Hd1].
    split_and!; [congruence | done | done | rewrite H3; lra | rewrite H3; lra].
Qed.

(** *** Two groups for three or four streets *)

Lemma flat_pairs_length (groups : list (nat * nat)) :
  length (flat_map (λ g, [g.1; g.2]) groups) = 2 * length groups.
Proof. induction groups as [| g gs IH]; simpl; lia. Qed.

Lemma two_members (used : list nat) x y :
  x ≠ y → x ∈ used → y ∈ used → 2 ≤ length used.
Proof.
  intros Hne Hx Hy.
  assert (Hsub : [x; y] ⊆+ used).
  { apply NoDup_submseteq.
    - apply NoDup_cons. split; [| apply NoDup_singleton].
      intros H. by apply list_elem_of_singleton in H.
    - intros z Hz. apply elem_of_cons in Hz as [-> | Hz]; [done |].
      by apply list_elem_of_singleton in Hz as ->. }
  apply submseteq_length in Hsub. simpl in Hsub. lia.
Qed.

Lemma three_members (used : list nat) x y z :
  x ≠ y → x ≠ z → y ≠ z → x ∈ used → y ∈ used → z ∈ used →
  3 ≤ length used.
Proof.
  intros Hxy Hxz Hyz Hx Hy Hz.
  assert (Hsub : [x; y; z] ⊆+ used).
  { apply NoDup_submseteq.
    - apply NoDup_cons; split;
        [| apply NoDup_cons; split; [| apply NoDup_singleton]].
      + intros H. apply elem_of_cons in H as [-> | H]; [done |].
        by apply list_elem_of_singleton in H.
      + intros H. by apply list_elem_of_singleton in H.
    - intros w Hw. apply elem_of_cons in Hw as [-> | Hw]; [done |].
      apply elem_of_cons in Hw as [-> | Hw]; [done |].
      by apply list_elem_of_singleton in Hw as ->. }
  apply submseteq_length in Hsub. simpl in Hsub. lia.
Qed.

(** The groups selected for [n] streets: pairs of distinct indices below
    [n], no index in two groups, and at most one index in no group. *)
Lemma selectedGroups_spec :
  let n := length streets in
  let groups := selectedGroups atan2 PI streets location locations in
  let used := flat_map (λ g, [g.1; g.2]) groups in
  NoDup used ∧ (∀ k, k ∈ used → k < n)
  ∧ (∀ a b, a < b < n → a ∈ used ∨ b ∈ used).
Proof.
  intros n groups used. subst groups used. unfold selectedGroups.
  set (angles := map _ streets).
  assert (Hn : length angles = n) by (subst angles; apply length_map).
  rewrite Hn.
  set (pairs := sortPairs (allPairs PI angles)).
  assert (Hpairs : ∀ p, p ∈ pairs ↔ p ∈ allPairs PI angles).
  { intros p. subst pairs. by rewrite sortPairs_perm. }
  destruct (selection_invariant n pairs) as (I1 & I2 & I3 & I4 & I5).
  { intros p Hp. apply Hpairs, allPairs_elem in Hp as (i & j & Hij & ->).
    simpl. lia. }
  set (sel := foldl (takePair n) (mkSelection [] [] false) pairs) in *.
  rewrite <- I1.
  assert (Hlt : ∀ k, k ∈ usedIndices sel → k < n).
  { intros k Hk. rewrite I1 in Hk.
    apply list_elem_of_In, in_flat_map in Hk as (g & Hg & Hk).
    apply list_elem_of_In in Hg, Hk.
    destruct (I3 g Hg) as (p & Hp & ->).
    apply Hpairs, allPairs_elem in Hp as (i & j & Hij & ->). simpl in Hk.
    apply elem_of_cons in Hk as [-> | Hk]; [lia |].
    apply list_elem_of_singleton in Hk as ->. lia. }
  split; [done |]. split; [done |].
  intros a b Hab.
  destruct (I5 (mkPair a b (oppositeScoreOf PI (default 0%Q (angles !! a))
                              (default 0%Q (angles !! b)))))
    as [H | [H | H]]; [| by left | by right |].
  - apply Hpairs, allPairs_elem. exists a, b. split; [lia | done].
  - left. destruct (indices_bound n (usedIndices sel) I2 Hlt) as [_ Hall].
    apply Hall; lia.
Qed.

Lemma assignGroup_lookup loc ls gi (g : nat * nat) k :
  assignGroup loc ls gi g !! k
  = (if decide (k = g.1 ∨ k = g.2)
     then set_oppositeGroupId (Some (oppositeGroupName loc gi))
     else id) <$> ls !! k.
Proof.
  unfold assignGroup.
  destruct (decide (k = g.2)) as [-> | H2].
  - rewrite list_lookup_alter_eq.
    rewrite decide_True by (by right).
    destruct (decide (g.2 = g.1)) as [E | E].
    + rewrite E, list_lookup_alter_eq. by destruct (ls !! g.1).
    + by rewrite list_lookup_alter_ne by done.
  - rewrite list_lookup_alter_ne by done.
    destruct (decide (k = g.1)) as [-> | H1].
    + rewrite list_lookup_alter_eq. by rewrite decide_True by (by left).
    + rewrite list_lookup_alter_ne by done.
      rewrite decide_False by (intros [? | ?]; done).
      by destruct (ls !! k).
Qed.

(** The opposite group of the [k]-th light built is the one the
    assignment of the selected groups gives it. *)
Lemma built_group k :
  3 ≤ length streets → AllEndsKnown location streets locations →
  oppositeGroupId
    <$> createIntersectionTrafficLights atan2 PI nowId nowChange idDraw
          timerDraw location streets locations !! k
  = oppositeGroupId
      <$> foldl (λ ls (ig : nat * (nat * nat)),
                   assignGroup (loc_id location) ls ig.1 ig.2)
            (omap id (imap (lightFor atan2 PI nowId nowChange idDraw location
                              locations) streets))
            (imap (λ i g, (i, g))
               (selectedGroups atan2 PI streets location locations)) !! k.
Proof.
  intros Hlen Hknown. unfold createIntersectionTrafficLights.
  rewrite bool_decide_eq_false_2 by lia.
  set (f := lightFor atan2 PI nowId nowChange idDraw location locations).
  destruct (omap_imap_total f streets) as [Hlen0 _].
  { intros j x Hj. apply lightFor_known.
    unfold AllEndsKnown in Hknown. rewrite Forall_forall in Hknown.
    apply Hknown. eapply list_elem_of_lookup_2; eauto. }
  set (lights0 := omap id (imap f streets)) in *.
  rewrite bool_decide_eq_true_2 by lia.
  unfold assignTrafficLightGroups.
  change (oppositeGroups (foldl _ _ _))
    with (selectedGroups atan2 PI streets location locations).
  set (L := foldl _ lights0 _).
  set (lights1 := map _ L).
  assert (Hgroups : ∀ j, oppositeGroupId <$> lights1 !! j
                         = oppositeGroupId <$> L !! j).
  { intros j. subst lights1. rewrite list_lookup_fmap.
    destruct (L !! j) as [l |]; [| done]. simpl.
    by case_bool_decide. }
  destruct lights1 as [| first rest] eqn:E1.
  { rewrite <- Hgroups. done. }
  rewrite list_lookup_imap, <- Hgroups.
  by destruct ((first :: rest) !! k).
Qed.

(** For three or four streets the lights built fall into at most two
    opposite groups. *)
Lemma built_two_groups :
  length streets = 3 ∨ length streets = 4 →
  AllEndsKnown location streets locations →
  AtMostTwoGroups
    (createIntersectionTrafficLights atan2 PI nowId nowChange idDraw
       timerDraw location streets locations).
Proof.
  intros Hn Hknown.
  assert (Hlen : 3 ≤ length streets) by lia.
  destruct (built_lights Hlen Hknown) as (Hl & _ & _).
  pose proof (λ k, built_group k Hlen Hknown) as Hgroup.
  set (ls := createIntersectionTrafficLights _ _ _ _ _ _ _ _ _) in *.
  destruct selectedGroups_spec as (Hnd & Hlt & Hcover).
  pose proof (flat_pairs_length
                (selectedGroups atan2 PI streets location locations)) as Hfl.
  destruct (indices_bound _ _ Hnd Hlt) as [Hle Hfull].
  set (groups := selectedGroups atan2 PI streets location locations) in *.
  set (lights0 := omap id _) in *.
  (* any three lights by their indices *)
  unfold AtMostTwoGroups. apply Forall_forall. intros a Ha.
  apply Forall_forall. intros b Hb. apply Forall_forall. intros c Hc _ _.
  apply list_elem_of_lookup in Ha as [ka Hka].
  apply list_elem_of_lookup in Hb as [kb Hkb].
  apply list_elem_of_lookup in Hc as [kc Hkc].
  pose proof (lookup_lt_Some _ _ _ Hka) as La.
  pose proof (lookup_lt_Some _ _ _ Hkb) as Lb.
  pose proof (lookup_lt_Some _ _ _ Hkc) as Lc.
  pose proof (Hgroup ka) as Ga. rewrite Hka in Ga. simpl in Ga.
  pose proof (Hgroup kb) as Gb. rewrite Hkb in Gb. simpl in Gb.
  pose proof (Hgroup kc) as Gc. rewrite Hkc in Gc. simpl in Gc.
  destruct (decide (ka = kb)) as [-> | Nab]; [left; congruence |].
  destruct (decide (ka = kc)) as [-> | Nac]; [right; left; congruence |].
  destruct (decide (kb = kc)) as [-> | Nbc]; [right; right; congruence |].
  destruct Hn as [Hn | Hn].
  - (* three streets: one group; two of the three lights are in it *)
    assert (H2 : 2 ≤ length (flat_map (λ g, [g.1; g.2]) groups)).
    { destruct (Hcover 0 1) as [H01 | H01]; [lia | |];
        destruct (Hcover 0 2) as [H02 | H02]; try lia;
        destruct (Hcover 1 2) as [H12 | H12]; try lia;
        first [ by apply (two_members _ 0 1)
              | by apply (two_members _ 0 2)
              | by apply (two_members _ 1 2) ]. }
    destruct groups as [| [i j] [| g' gs]] eqn:Eg;
      [simpl in H2; lia | | simpl in Hfl, Hle; lia].
    simpl in Hnd, Hlt, Hcover, Ga, Gb, Gc.
    rewrite assignGroup_lookup in Ga, Gb, Gc. simpl in Ga, Gb, Gc.
    assert (Hname : ∀ k (l : Light) o,
              Some (oppositeGroupId l)
              = oppositeGroupId
                  <$> ((if decide (k = i ∨ k = j)
                        then set_oppositeGroupId
                               (Some (oppositeGroupName (loc_id location) 0))
                        else id) <$> o) →
              (k = i ∨ k = j) →
              oppositeGroupId l
              = Some (oppositeGroupName (loc_id location) 0)).
    { intros k l o H Hk. rewrite decide_True in H by done.
      destruct o; simpl in H; [congruence | done]. }
    rewrite Hn in *.
    assert (Hij : i ≠ j ∧ i < 3 ∧ j < 3).
    { apply NoDup_cons in Hnd as [Hij _]. split_and!.
      - intros ->. apply Hij. left.
      - apply Hlt. left.
      - apply Hlt. right. left. }
    assert (Ia : (ka = i ∨ ka = j) ∨ (ka ≠ i ∧ ka ≠ j)) by lia.
    assert (Ib : (kb = i ∨ kb = j) ∨ (kb ≠ i ∧ kb ≠ j)) by lia.
    assert (Ic : (kc = i ∨ kc = j) ∨ (kc ≠ i ∧ kc ≠ j)) by lia.
    destruct Ia as [Ia | Ia], Ib as [Ib | Ib], Ic as [Ic | Ic];
      try (left; rewrite (Hname _ _ _ Ga Ia), (Hname _ _ _ Gb Ib); done);
      try (right; left;
           rewrite (Hname _ _ _ Ga Ia), (Hname _ _ _ Gc Ic); done);
      try (right; right;
           rewrite (Hname _ _ _ Gb Ib), (Hname _ _ _ Gc Ic); done);
      exfalso; lia.
  - (* four streets: two groups, and every light is in one of them *)
    assert (H3 : 3 ≤ length (flat_map (λ g, [g.1; g.2]) groups)).
    { destruct (Hcover 0 1) as [H01 | H01]; [lia | |];
        destruct (Hcover 0 2) as [H02 | H02]; try lia;
        destruct (Hcover 0 3) as [H03 | H03]; try lia;
        destruct (Hcover 1 2) as [H12 | H12]; try lia;
        destruct (Hcover 1 3) as [H13 | H13]; try lia;
        destruct (Hcover 2 3) as [H23 | H23]; try lia;
        first [ by apply (three_members _ 0 1 2)
              | by apply (three_members _ 0 1 3)
              | by apply (three_members _ 0 2 3)
              | by apply (three_members _ 1 2 3) ]. }
    destruct groups as [| [i j] [| [i' j'] [| g'' gs]]] eqn:Eg;
      [simpl in H3; lia | simpl in H3; lia | | simpl in Hfl, Hle; lia].
    simpl in Hnd, Hlt, Hcover, Hfull, Ga, Gb, Gc.
    rewrite !assignGroup_lookup in Ga, Gb, Gc. simpl in Ga, Gb, Gc.
    assert (Hall : ∀ k, k < 4 → k ∈ [i; j; i'; j']).
    { intros k Hk. apply Hfull; [simpl in *; lia | lia]. }
    assert (Hname : ∀ k (l : Light) o,
              k ∈ [i; j; i'; j'] →
              Some (oppositeGroupId l)
              = oppositeGroupId
                  <$> ((if decide (k = i' ∨ k = j')
                        then set_oppositeGroupId
                               (Some (oppositeGroupName (loc_id location) 1))
                        else id)
                         <$> ((if decide (k = i ∨ k = j)
                               then set_oppositeGroupId
                                      (Some (oppositeGroupName
                                               (loc_id location) 0))
                               else id) <$> o)) →
              oppositeGroupId l
              = Some (oppositeGroupName (loc_id location) 0)
              ∨ oppositeGroupId l
                = Some (oppositeGroupName (loc_id location) 1)).
    { intros k l o Hk H. destruct o as [l0 |]; [| done]. simpl in H.
      injection H as H.
      destruct (decide (k = i' ∨ k = j')) as [E1 | E1]; [by right |].
      destruct (decide (k = i ∨ k = j)) as [E0 | E0]; [by left |].
      exfalso. repeat (apply elem_of_cons in Hk as [-> | Hk]; [tauto |]).
      by inversion Hk. }
    rewrite Hn in *.
    assert (La' : ka < 4) by lia. assert (Lb' : kb < 4) by lia.
    assert (Lc' : kc < 4) by lia.
    destruct (Hname _ _ _ (Hall ka La') Ga) as [Ea | Ea],
      (Hname _ _ _ (Hall kb Lb') Gb) as [Eb | Eb],
      (Hname _ _ _ (Hall kc Lc') Gc) as [Ec | Ec];
      rewrite Ea, Eb, Ec; tauto.
Qed.

(** X8. For three or more connected streets whose other ends are known
    locations, with light ids that differ and timer draws in [0, 1),
    [createIntersectionTrafficLights] returns one light per street, and
    the lights are an initial intersection light set: distinct ids, one
    location, each light in an opposite group, green in the group of the
    first light and red in the others, with timers in [0, 2). *)
Theorem created_lights_are_initial :
  3 ≤ length streets → AllEndsKnown location streets locations →
  NoDup (map (λ k, lightId (nowId k) (idDraw k)) (seq 0 (length streets))) →
  (∀ k, k < length streets → CarNotions.isDraw (timerDraw k)) →
  let ls :=
    createIntersectionTrafficLights atan2 PI nowId nowChange idDraw
      timerDraw location streets locations in
  map (λ l, (locationId l, streetId l)) ls
  = map (λ s, (loc_id location, street_id s)) streets
  ∧ InitialIntersection ls.
Proof.
  intros Hlen Hknown Hids Hdraws ls. split; [| by apply built_initial].
  destruct (built_lights Hlen Hknown) as (Hl & first & _ & Hall).
  fold ls in Hl, Hall.
  apply list_eq. intros k. rewrite !list_lookup_fmap.
  destruct (streets !! k) as [s |] eqn:Hs; simpl.
  - destruct (Hall k s Hs) as (l & Hlk & _ & H2 & H3 & _).
    rewrite Hlk. simpl. by rewrite H2, H3.
  - apply lookup_ge_None in Hs. rewrite lookup_ge_None_2 by lia. done.
Qed.


(** X10. [createIntersectionTrafficLights] returns no light for two or
    fewer connected streets; for more it returns, in the order of the
    streets, one light at the intersection for each street whose other
    end is a known location, and none for the other streets. *)
Theorem created_lights_follow_streets :
  let ls :=
    createIntersectionTrafficLights atan2 PI nowId nowChange idDraw
      timerDraw location streets locations in
  if decide (length streets ≤ 2) then ls = []
  else
    map (λ l, (locationId l, streetId l)) ls
    = map (λ s, (loc_id location, street_id s))
        (filter (λ s, is_Some (findLocation (otherEnd (loc_id location) s)
                                 locations))
           streets).
Proof.
  intros ls. subst ls. unfold createIntersectionTrafficLights.
  destruct (decide (length streets ≤ 2)) as [H | H].
  - by rewrite bool_decide_eq_true_2.
  - rewrite bool_decide_eq_false_2 by lia.
    set (f := lightFor atan2 PI nowId nowChange idDraw location locations).
    set (key := λ l : Light, (locationId l, streetId l)).
    assert (H0 : map key (omap id (imap f streets))
                 = map (λ s, (loc_id location, street_id s))
                     (filter (λ s, is_Some (findLocation
                                              (otherEnd (loc_id location) s)
                                              locations))
                        streets)).
    { apply omap_imap_filter.
      - intros k s. split.
        + intros [l Hl]. subst f. unfold lightFor, angleTo in Hl.
          destruct (findLocation _ _); [by eexists | done].
        + apply lightFor_known.
      - intros k s l Hl. destruct (lightFor_fields k s l Hl) as (_ & F2 & F3 & _).
        subst key. simpl. by rewrite F2, F3. }
    set (lights0 := omap id (imap f streets)) in *.
    set (lights1 := if bool_decide (2 ≤ length lights0) then _ else lights0).
    assert (H1 : map key lights1 = map key lights0).
    { subst lights1. case_bool_decide; [| done].
      pose proof (assignTrafficLightGroups_pointwise lights0) as HF.
      symmetry. apply list_eq. intros k. rewrite !list_lookup_fmap.
      destruct (lights0 !! k) as [a |] eqn:Ha.
      - destruct (Forall2_lookup_l _ _ _ _ _ HF Ha) as (b & -> & Hg).
        destruct (grouped_fields _ _ _ Hg) as (_ & G2 & G3 & _).
        subst key. simpl. by rewrite G2, G3.
      - apply lookup_ge_None in Ha.
        rewrite lookup_ge_None_2; [done |].
        by rewrite <- (Forall2_length _ _ _ HF). }
    rewrite <- H0, <- H1.
    destruct lights1 as [| first rest]; [done |].
    apply list_eq. intros k. rewrite !list_lookup_fmap, list_lookup_imap.
    by destruct ((first :: rest) !! k).
Qed.

End Built.

(** The crossroads "X" has known ends, distinct light ids and timer
    draws in range. *)
Lemma crossroads_known :
  AllEndsKnown (mkLocation "X" 0%Q 0%Q) crossStreets crossroads.
Proof. apply (bool_decide_unpack _). vm_compute. exact I. Qed.

Lemma crossroads_ids :
  NoDup (map (λ k, lightId (steadyClock k) (idDraws k))
           (seq 0 (length crossStreets))).
Proof. apply (bool_decide_unpack _). vm_compute. exact I. Qed.

Lemma crossroads_draws k :
  k < length crossStreets → CarNotions.isDraw (quarterDraws k).
Proof. intros _. unfold quarterDraws. split; lra. Qed.

(** X8 at the crossroads "X". *)
Lemma created_lights_are_initial_witness :
  3 ≤ length crossStreets
  ∧ map (λ l, (locationId l, streetId l)) crossroadsLights
    = map (λ s, ("X", street_id s)) crossStreets
  ∧ InitialIntersection crossroadsLights.
Proof.
  assert (H1 : 3 ≤ length crossStreets) by (simpl; lia).
  split; [exact H1 |].
  exact (created_lights_are_initial axisAtan2 PIq steadyClock steadyClock
           idDraws quarterDraws (mkLocation "X" 0%Q 0%Q) crossStreets
           crossroads H1 crossroads_known crossroads_ids crossroads_draws).
Defined.


End ConstructionFacts.

(** ** More properties of the vehicle engine *)

Module CarEngineFacts.
Import CarManager CarNotions MoreCarNotions Scenarios MoreScenarios.

(** *** The car ahead *)

Lemma isAhead_aheadOf car other :
  car_id other ≠ car_id car ∧ currentStreetId other = currentStreetId car
  ∧ direction other = direction car ∧ reachedDestination other = false →
  (match direction car with
   | forward => JS.gtb (progress other) (progress car)
   | backward => JS.ltb (progress other) (progress car)
   end = true ↔ aheadOf car other).
Proof.
  intros (H1 & H2 & H3 & H4). unfold aheadOf.
  destruct (direction car); rewrite ?JSFacts.gtb_gt, ?JSFacts.ltb_lt; tauto.
Qed.

(** X11. [findCarAhead] returns a nearest car ahead: the car it returns
    is one of the cars given, active, on the same street, in the same
    direction and strictly further along, and no such car is nearer; it
    returns no car exactly when there is no such car. *)
Theorem car_ahead_is_nearest car allCars :
  match findCarAhead car allCars with
  | Some a =>
      a ∈ allCars ∧ aheadOf car a
      ∧ ∀ b, b ∈ allCars → aheadOf car b → (gap car a <= gap car b)%Q
  | None => ∀ b, b ∈ allCars → ¬ aheadOf car b
  end.
Proof.
  unfold findCarAhead.
  set (P := λ otherCar : Car,
         car_id otherCar ≠ car_id car
         ∧ currentStreetId otherCar = currentStreetId car
         ∧ direction otherCar = direction car
         ∧ reachedDestination otherCar = false).
  set (step := λ (closest : option (Car * Q)) (otherCar : Car), _).
  set (Inv := λ (seen : list Car) (acc : option (Car * Q)),
         match acc with
         | Some (a, d) =>
             a ∈ seen ∧ aheadOf car a ∧ d = gap car a
             ∧ ∀ b, b ∈ seen → aheadOf car b → (gap car a <= gap car b)%Q
         | None => ∀ b, b ∈ seen → ¬ aheadOf car b
         end).
  assert (Hfold : ∀ l seen acc,
            Forall P l → Inv seen acc → Inv (seen ++ l) (foldl step acc l)).
  { induction l as [| x l IH]; intros seen acc HP HI; simpl.
    - by rewrite app_nil_r.
    - apply Forall_cons in HP as [Hx HP].
      replace (seen ++ x :: l) with ((seen ++ [x]) ++ l)
        by (by rewrite <- app_assoc).
      apply IH; [exact HP |].
      pose proof (isAhead_aheadOf car x Hx) as Hahead.
      unfold step at 1.
      destruct (match direction car with
                | forward => JS.gtb (progress x) (progress car)
                | backward => JS.ltb (progress x) (progress car)
                end) eqn:E.
      + clear E. assert (E : aheadOf car x) by (by apply Hahead).
        destruct acc as [[a d] |]; unfold Inv in HI |- *;
          cbv beta iota in HI |- *.
        * destruct HI as (Ha & Haa & -> & Hmin).
          fold (gap car x).
          destruct (JS.ltb (gap car x) (gap car a)) eqn:El; cbv beta iota.
          -- apply JSFacts.ltb_lt in El.
             split; [apply elem_of_app; right; apply list_elem_of_here |].
             split; [exact E |]. split; [done |].
             intros b Hb Hab. apply elem_of_app in Hb as [Hb | Hb].
             ++ specialize (Hmin b Hb Hab). lra.
             ++ apply list_elem_of_singleton in Hb as ->. lra.
          -- apply JSFacts.ltb_ge in El.
             split; [apply elem_of_app; by left |].
             split; [exact Haa |]. split; [done |].
             intros b Hb Hab. apply elem_of_app in Hb as [Hb | Hb].
             ++ by apply Hmin.
             ++ by apply list_elem_of_singleton in Hb as ->.
        * fold (gap car x).
          split; [apply elem_of_app; right; apply list_elem_of_here |].
          split; [exact E |]. split; [done |].
          intros b Hb Hab. apply elem_of_app in Hb as [Hb | Hb].
          ++ by destruct (HI b Hb).
          ++ apply list_elem_of_singleton in Hb as ->. lra.
      + assert (Hx' : ¬ aheadOf car x).
        { intros H. apply Hahead in H. congruence. }
        destruct acc as [[a d] |]; unfold Inv in HI |- *;
          cbv beta iota in HI |- *.
        * destruct HI as (Ha & Haa & -> & Hmin).
          split; [apply elem_of_app; by left |].
          split; [exact Haa |]. split; [done |].
          intros b Hb Hab. apply elem_of_app in Hb as [Hb | Hb].
          -- by apply Hmin.
          -- by apply list_elem_of_singleton in Hb as ->.
        * intros b Hb. apply elem_of_app in Hb as [Hb | Hb].
          -- by apply HI.
          -- by apply list_elem_of_singleton in Hb as ->. }
  specialize (Hfold (filter P allCars) [] None).
  simpl in Hfold.
  assert (HI : Inv (filter P allCars) (foldl step None (filter P allCars))).
  { apply Hfold.
    - apply Forall_forall. intros x Hx. by apply list_elem_of_filter in Hx as [? _].
    - intros b Hb. by apply elem_of_nil in Hb. }
  assert (Hall : ∀ b, b ∈ allCars → aheadOf car b → b ∈ filter P allCars).
  { intros b Hb (H1 & H2 & H3 & H4 & _). apply list_elem_of_filter.
    split; [| exact Hb]. by repeat split. }
  unfold Inv in HI.
  destruct (foldl step None (filter P allCars)) as [[a d] |];
    cbv beta iota in HI |- *.
  - destruct HI as (Ha & Haa & _ & Hmin).
    split; [by apply list_elem_of_filter in Ha as [_ ?] |].
    split; [exact Haa |]. intros b Hb Hab. apply Hmin; [by apply Hall | done].
  - intros b Hb Hab. exact (HI b (Hall b Hb Hab) Hab).
Qed.

(** *** Routing *)

Section Routes.

Variables (atan2 : Q → Q → Q) (PI : Q).

Lemma connected_exits loc prev streets :
  filter (λ s, (from s = loc ∨ to s = loc) ∧ street_id s ≠ prev) streets
  = filter (λ s, street_id s ≠ prev) (connectedTo loc streets).
Proof.
  unfold connectedTo. induction streets as [| s l IH]; [done |].
  rewrite !filter_cons.
  destruct (decide (from s = loc ∨ to s = loc)) as [Hc | Hc].
  - rewrite filter_cons.
    destruct (decide (street_id s ≠ prev)) as [Hp | Hp].
    + rewrite decide_True by done. by rewrite IH.
    + rewrite decide_False by tauto. exact IH.
  - rewrite decide_False by tauto. exact IH.
Qed.

(** X12. When [findBestNextStreet] finds no cached decision, it returns
    no decision exactly when no street is connected to the location; and
    if the location has two or more streets, one of them other than the
    street the car came from, the street chosen is connected to the
    location, is not the street the car came from, and is entered in the
    direction that leaves the location. *)
Theorem fresh_route_goes_on rd r loc dest prev streets locations g :
  isDraw r →
  (if JS.truthy g then rd !! routingKey g loc prev else None) = None →
  let decision :=
    (findBestNextStreet atan2 PI rd r loc dest prev streets locations g).1 in
  (decision = None ↔ connectedTo loc streets = [])
  ∧ (2 ≤ length (connectedTo loc streets) →
     Exists (λ s, street_id s ≠ prev) (connectedTo loc streets) →
     ∃ d, decision = Some d
          ∧ rd_street d ∈ connectedTo loc streets
          ∧ street_id (rd_street d) ≠ prev
          ∧ rd_direction d = leaving loc (rd_street d)).
Proof.
  intros Hr Hmiss decision. subst decision. unfold findBestNextStreet.
  rewrite Hmiss. rewrite connected_exits.
  set (all := connectedTo loc streets).
  set (exits := filter (λ s, street_id s ≠ prev) all).
  assert (Hexits : ∀ s, s ∈ exits → s ∈ all ∧ street_id s ≠ prev).
  { intros s Hs. apply list_elem_of_filter in Hs. tauto. }
  assert (Hsome : Exists (λ s, street_id s ≠ prev) all → exits ≠ []).
  { intros H E. apply Exists_exists in H as (s & Hs & Hp).
    assert (Hin : s ∈ exits) by (apply list_elem_of_filter; by split).
    rewrite E in Hin. by apply elem_of_nil in Hin. }
  assert (Hpick : ∀ x xs, exits = x :: xs →
            ∃ s, exits !! randomIndex r (length exits) = Some s).
  { intros x xs E. apply lookup_lt_is_Some.
    apply CarProperties.randomIndex_lt; [exact Hr | rewrite E; simpl; lia]. }
  destruct all as [| s1 [| s2 [| s3 rest]]] eqn:Eall.
  - split; [done |]. simpl. lia.
  - split; [by destruct (JS.truthy g) |]. simpl. lia.
  - split.
    { destruct exits; by destruct (JS.truthy g). }
    intros _ Hex. specialize (Hsome Hex).
    destruct exits as [| x xs] eqn:Ex; [done |].
    destruct (Hexits x) as [Hx1 Hx2]; [apply list_elem_of_here |].
    eexists. split; [by destruct (JS.truthy g) |]. by simpl.
  - split.
    { destruct exits as [| x xs] eqn:Ex; [by destruct (JS.truthy g) |].
      destruct (Hpick x xs eq_refl) as [s Hs]. rewrite Hs.
      by destruct (JS.truthy g). }
    intros _ Hex. specialize (Hsome Hex).
    destruct exits as [| x xs] eqn:Ex; [done |].
    destruct (Hpick x xs eq_refl) as [s Hs]. rewrite Hs.
    destruct (Hexits s) as [Hs1 Hs2]; [by eapply list_elem_of_lookup_2 |].
    eexists. split; [by destruct (JS.truthy g) |]. by simpl.
Qed.

(** What one call of [findBestNextStreet] does to the cache. *)
Lemma findBestNextStreet_cache rd r loc dest prev streets locations g :
  rd ⊆ (findBestNextStreet atan2 PI rd r loc dest prev streets locations g).2.
Proof.
  unfold findBestNextStreet.
  destruct (if JS.truthy g then rd !! routingKey g loc prev else None)
    as [c |] eqn:Hc; [done |].
  match goal with
  | |- _ ⊆ (match ?d with Some _ => _ | None => _ end).2 =>
      destruct d as [d' |]; [| done]
  end.
  destruct (JS.truthy g); [| done]. simpl.
  by apply insert_subseteq.
Qed.

End Routes.

(** *** One car, one tick *)

Section OneTick.

Variables (hypot atan2 : Q → Q → Q) (cos sin : Q → Q) (PI : Q).

Lemma sameCar_refl c : sameCar c c.
Proof. by repeat split. Qed.

Lemma advance_sameCar now car drive dt :
  sameCar car (advance now car drive dt).
Proof.
  unfold advance. cbv zeta.
  generalize (newSpeed car drive dt). intros v.
  destruct (_ && _ && negb _); destruct (_ && _ && shouldStop drive);
    destruct (JS.ltb v 0.1); destruct (JS.truthyZ (timeNotMovingStart car));
    by repeat split.
Qed.

Lemma arriveAt_sameCar rd draws now car u next streets locations :
  sameCar u (arriveAt atan2 PI rd draws now car u next streets locations).1.
Proof.
  unfold arriveAt.
  destruct (findLocation next locations); [| by repeat split].
  destruct (connectedTo next streets) as [| s1 [| s2 rest]] eqn:Hc.
  - case_bool_decide;
      destruct (findBestNextStreet _ _ _ _ _ _ _ _ _ _) as [[d |] rd'];
      by repeat split.
  - destruct (_ !! _) as [newDestination |]; by repeat split.
  - case_bool_decide;
      destruct (findBestNextStreet _ _ _ _ _ _ _ _ _ _) as [[d |] rd'];
      by repeat split.
Qed.

Lemma arriveAt_cache rd draws now car u next streets locations :
  rd ⊆ (arriveAt atan2 PI rd draws now car u next streets locations).2.
Proof.
  unfold arriveAt.
  destruct (findLocation next locations); [| done].
  destruct (connectedTo next streets) as [| s1 [| s2 rest]] eqn:Hc.
  - case_bool_decide;
      match goal with
      | |- _ ⊆ (match findBestNextStreet ?a ?p ?m ?r ?l ?d ?v ?s ?ls ?g
                with _ => _ end).2 =>
          pose proof (findBestNextStreet_cache a p m r l d v s ls g) as H0;
          destruct (findBestNextStreet a p m r l d v s ls g) as [[d0 |] rd']
      end; exact H0.
  - by destruct (_ !! _).
  - case_bool_decide;
      match goal with
      | |- _ ⊆ (match findBestNextStreet ?a ?p ?m ?r ?l ?d ?v ?s ?ls ?g
                with _ => _ end).2 =>
          pose proof (findBestNextStreet_cache a p m r l d v s ls g) as H0;
          destruct (findBestNextStreet a p m r l d v s ls g) as [[d0 |] rd']
      end; exact H0.
Qed.

Lemma updateCar_sameCar rd draws now car streets locations lights dt
    allCars :
  sameCar car
    (updateCar hypot atan2 cos sin PI rd draws now car streets locations
       lights dt allCars).1.
Proof.
  unfold updateCar.
  destruct (reachedDestination car); [apply sameCar_refl |].
  destruct (findStreet _ _) as [currentStreet |]; [| by repeat split].
  destruct (findLocation (from currentStreet) locations)
    as [fromLocation |]; [| by repeat split].
  destruct (findLocation (to currentStreet) locations)
    as [toLocation |]; [| by repeat split].
  cbv zeta.
  set (drive := assess _ _ _ _ _ _ _ _ _ _ _ _ _ _).
  pose proof (advance_sameCar now car drive dt) as (A1 & A2 & A3 & A4 & A5).
  set (u := advance now car drive dt) in *.
  destruct (leavesStreet u drive); [| by repeat split].
  match goal with
  | |- context [arriveAt ?a ?p ?r ?d ?n ?c ?v ?x ?s ?l] =>
      pose proof (arriveAt_sameCar r d n c v x s l)
        as (B1 & B2 & B3 & B4 & B5)
  end.
  repeat split; congruence.
Qed.

Lemma updateCar_cache rd draws now car streets locations lights dt allCars :
  rd ⊆ (updateCar hypot atan2 cos sin PI rd draws now car streets locations
          lights dt allCars).2.
Proof.
  unfold updateCar.
  destruct (reachedDestination car); [done |].
  destruct (findStreet _ _) as [currentStreet |]; [| done].
  destruct (findLocation (from currentStreet) locations)
    as [fromLocation |]; [| done].
  destruct (findLocation (to currentStreet) locations)
    as [toLocation |]; [| done].
  cbv zeta. destruct (leavesStreet _ _); [| done].
  apply arriveAt_cache.
Qed.

Lemma updateCar_retired rd draws now car streets locations lights dt
    allCars :
  reachedDestination car = true →
  updateCar hypot atan2 cos sin PI rd draws now car streets locations lights
    dt allCars = (car, rd).
Proof. intros H. unfold updateCar. by rewrite H. Qed.

(** The target speed is the cruising speed at most, or 0. *)
Lemma assess_target draws car streets locations lights allCars
    currentStreet fromLocation toLocation :
  (targetSpeed (assess hypot atan2 cos sin PI draws car streets locations
                  lights allCars currentStreet fromLocation toLocation)
   <= Qmax (cruisingSpeed car) 0)%Q.
Proof.
  unfold assess. cbv zeta.
  set (cr := cruisingSpeed car).
  pose proof (Q.le_max_l cr 0) as Hcr. pose proof (Q.le_max_r cr 0) as H0.
  match goal with
  | |- context [let '(_, _) := ?x in _] => set (e1 := x)
  end.
  assert (H1 : (e1.1 <= Qmax cr 0)%Q).
  { subst e1. destruct (findCarAhead car allCars) as [ahead |]; [| exact Hcr].
    destruct (distance _) as [d |]; [| exact Hcr].
    destruct (_ && _); [| exact Hcr].
    destruct (JS.ltb d _); [exact H0 |].
    simpl. eapply Qle_trans; [apply Q.le_min_l | exact Hcr]. }
  clearbody e1. destruct e1 as [t1 s1]. simpl in H1. cbv beta iota.
  generalize (match findCrossTrafficCar hypot atan2 cos sin PI car allCars
                         streets locations with
              | Some ct => ct_shouldStop ct && car1MovingToward (ct_analysis ct)
              | None => false
              end).
  generalize (hasDeadlock
                (detectAndResolveDeadlock hypot atan2 cos sin PI
                   (drawPriority draws) (drawOtherPriority draws) car allCars
                   streets locations)
              && shouldProceed
                   (detectAndResolveDeadlock hypot atan2 cos sin PI
                      (drawPriority draws) (drawOtherPriority draws) car
                      allCars streets locations)).
  generalize (JS.ltb (speed car) 0.01).
  generalize ((bool_decide (nextTurn car = Some left)
               || bool_decide (nextTurn car = Some right))
              && JS.ltb (distanceToEnd car) 0.2).
  generalize (match
                 filter (λ v : bool * bool, v.1 = true)
                   (map (stopsForLight hypot car allCars fromLocation
                           toLocation)
                      (filter
                         (λ light : TrafficLight.Light,
                            TrafficLight.streetId light = currentStreetId car
                            ∧ TrafficLight.locationId light =
                              match direction car with
                              | forward => to currentStreet
                              | backward => from currentStreet
                              end)
                         lights))
               with
               | [] => (false, false)
               | v :: _ => v
               end).
  intros [sl wl] turn standing deadlock cross.
  destruct cross, s1, standing, deadlock, sl, turn; simpl;
    try exact H0; try exact Hcr; try exact H1;
    (eapply Qle_trans; [apply Q.le_min_l |]);
    first [exact H0 | exact Hcr | exact H1].
Qed.

Lemma newSpeed_le car drive dt bound :
  (0 <= dt)%Q → (speed car <= bound)%Q → (targetSpeed drive <= bound)%Q →
  (0 <= bound)%Q → (newSpeed car drive dt <= bound)%Q.
Proof.
  intros Hdt Hv Ht Hb. unfold newSpeed. cbv zeta.
  destruct (JS.ltb (speed car) (targetSpeed drive)).
  - eapply Qle_trans; [apply Q.le_min_r | exact Ht].
  - destruct (JS.gtb (speed car) (targetSpeed drive)); [| exact Hv].
    apply Q.max_lub; [| by apply Q.max_lub].
    destruct (shouldStop drive && _);
      [| destruct (isApproachingTurn drive && _)]; lra.
Qed.

Lemma arriveAt_speed rd draws now car u next streets locations :
  let r := (arriveAt atan2 PI rd draws now car u next streets locations).1 in
  speed r = speed u ∨ speed r = Qmax (speed u) 0.1 ∨ speed r = 0.1%Q.
Proof.
  unfold arriveAt.
  destruct (findLocation next locations); [| by left].
  destruct (connectedTo next streets) as [| s1 [| s2 rest]] eqn:Hc.
  - case_bool_decide;
      destruct (findBestNextStreet _ _ _ _ _ _ _ _ _ _) as [[d |] rd'];
      simpl; auto.
  - destruct (_ !! _) as [newDestination |]; simpl; auto.
  - case_bool_decide;
      destruct (findBestNextStreet _ _ _ _ _ _ _ _ _ _) as [[d |] rd'];
      simpl; auto.
Qed.

Lemma cruisingSpeed_sameCar c c' :
  sameCar c c' → cruisingSpeed c' = cruisingSpeed c.
Proof.
  intros (_ & _ & _ & Hm & Hp). unfold cruisingSpeed. by rewrite Hm, Hp.
Qed.

Lemma updateCar_speed rd draws now car streets locations lights dt allCars :
  (0 <= dt)%Q → SpeedInRange car →
  SpeedInRange
    (updateCar hypot atan2 cos sin PI rd draws now car streets locations
       lights dt allCars).1.
Proof.
  intros Hdt [Hv0 Hv1].
  pose proof (updateCar_sameCar rd draws now car streets locations lights dt
                allCars) as Hsame.
  apply cruisingSpeed_sameCar in Hsame.
  unfold SpeedInRange. rewrite Hsame. clear Hsame.
  set (bound := Qmax (cruisingSpeed car) 0.1) in *.
  assert (Hb : (0.1 <= bound)%Q) by apply Q.le_max_r.
  unfold updateCar.
  destruct (reachedDestination car); [by split |].
  destruct (findStreet _ _) as [currentStreet |]; [| by split].
  destruct (findLocation (from currentStreet) locations)
    as [fromLocation |]; [| by split].
  destruct (findLocation (to currentStreet) locations)
    as [toLocation |]; [| by split].
  cbv zeta.
  pose proof (assess_target draws car streets locations lights allCars
                currentStreet fromLocation toLocation) as Ht.
  set (drive := assess _ _ _ _ _ _ _ _ _ _ _ _ _ _) in *.
  assert (Ht' : (targetSpeed drive <= bound)%Q).
  { eapply Qle_trans; [exact Ht |]. subst bound.
    apply Q.max_lub; [apply Q.le_max_l |].
    eapply Qle_trans; [| apply Q.le_max_r]. lra. }
  pose proof (CarProperties.newSpeed_nonneg car drive dt Hv0 Hdt) as Hn0.
  assert (Hn1 : (newSpeed car drive dt <= bound)%Q)
    by (apply newSpeed_le; [done | done | done | lra]).
  pose proof (CarProperties.advance_fields now car drive dt) as (Hsp & _).
  set (u := advance now car drive dt) in *.
  destruct (leavesStreet u drive); [| simpl; rewrite Hsp; by split].
  match goal with
  | |- context [arriveAt ?a ?p ?r ?d ?n ?c ?v ?x ?s ?l] =>
      pose proof (arriveAt_speed r d n c v x s l) as Hr
  end.
  simpl in Hr. rewrite Hsp in Hr.
  destruct Hr as [-> | [-> | ->]].
  - by split.
  - split; [eapply Qle_trans; [exact Hn0 | apply Q.le_max_l] |].
    by apply Q.max_lub.
  - split; [lra | exact Hb].
Qed.

(** *** All cars, one tick *)

(** [simulateTraffic] updates the cars one by one. *)
Lemma simulateTraffic_pointwise rd draws clock cars streets locations lights
    dt smart :
  let out :=
    simulateTraffic hypot atan2 cos sin PI rd draws clock cars streets
      locations lights dt smart in
  Forall2 (λ c c', ∃ rd0 i,
             c' = (updateCar hypot atan2 cos sin PI rd0 (draws i) (clock i) c
                     streets locations lights (Qmin dt 0.1) cars).1)
    cars out.1
  ∧ rd ⊆ out.2.
Proof.
  unfold simulateTraffic. cbv zeta.
  set (step := λ (acc : list Car * gmap string RoutingDecision)
                 (ic : nat * Car), _).
  set (R := λ c c' : Car, ∃ rd0 i, c' = _).
  assert (Hfold : ∀ (l : list (nat * Car)) done0 rd0,
            let out := foldl step (done0, rd0) l in
            (∃ news, out.1 = done0 ++ news ∧ Forall2 R (map snd l) news)
            ∧ rd0 ⊆ out.2).
  { induction l as [| [i c] l IH]; intros done0 rd0; simpl.
    - split; [| done]. exists []. by rewrite app_nil_r.
    - unfold step at 2. cbv beta iota. simpl.
      pose proof (updateCar_cache rd0 (draws i) (clock i) c streets locations
                    lights (Qmin dt 0.1) cars) as Hc.
      destruct (updateCar _ _ _ _ _ rd0 _ _ c _ _ _ _ _) as [c' rd'] eqn:Eu.
      destruct (IH (done0 ++ [c']) rd') as [(news & E & HF) Hsub].
      split.
      + exists (c' :: news). split; [by rewrite E, <- app_assoc |].
        constructor; [| exact HF]. exists rd0, i. by rewrite Eu.
      + etrans; [exact Hc | exact Hsub]. }
  destruct (Hfold (imap (λ i c, (i, c)) cars) [] rd)
    as [(news & E & HF) Hsub].
  split; [| exact Hsub].
  rewrite E. simpl.
  assert (Hsnd : map snd (imap (λ i c, (i, c)) cars) = cars).
  { apply list_eq. intros j. rewrite list_lookup_fmap, list_lookup_imap.
    by destruct (cars !! j). }
  by rewrite Hsnd in HF.
Qed.

(** X13. [simulateTraffic] returns the cars it was given, in the same
    order: as many cars, each with the id, the group id, the creation
    time and the speed limits it had; a car that has reached its
    destination is returned as it was. *)
Theorem traffic_step_keeps_cars rd draws clock cars streets locations lights
    dt smart :
  Forall2 (λ c c', sameCar c c' ∧ (reachedDestination c = true → c' = c))
    cars
    (simulateTraffic hypot atan2 cos sin PI rd draws clock cars streets
       locations lights dt smart).1.
Proof.
  destruct (simulateTraffic_pointwise rd draws clock cars streets locations
              lights dt smart) as [HF _].
  eapply Forall2_impl; [exact HF |]. simpl.
  intros c c' (rd0 & i & ->). split.
  - apply updateCar_sameCar.
  - intros H. by rewrite updateCar_retired.
Qed.

(** X14. [simulateTraffic] never drops or replaces a cached routing
    decision: every decision in the cache before the call is in the cache
    after it. *)
Theorem traffic_step_keeps_cache rd draws clock cars streets locations lights
    dt smart :
  rd ⊆ (simulateTraffic hypot atan2 cos sin PI rd draws clock cars streets
          locations lights dt smart).2.
Proof.
  unfold simulateTraffic. cbv zeta.
  set (step := λ (acc : list Car * gmap string RoutingDecision)
                 (ic : nat * Car), _).
  generalize (imap (λ i c, (i, c)) cars). generalize (@nil Car).
  intros done0 l. revert done0 rd.
  induction l as [| [i c] l IH]; intros done0 rd; simpl; [done |].
  pose proof (updateCar_cache rd (draws i) (clock i) c streets locations
                lights (Qmin dt 0.1) cars) as Hc.
  destruct (updateCar _ _ _ _ _ rd _ _ c _ _ _ _ _) as [c' rd'].
  etrans; [exact Hc | apply IH].
Qed.

(** X15. With a time step that is not negative, [simulateTraffic] keeps
    every speed in range: a car whose speed is between 0 and the larger
    of its cruising speed and 0.1 has such a speed afterwards. *)
Theorem traffic_step_keeps_speeds rd draws clock cars streets locations
    lights dt smart :
  (0 <= dt)%Q → Forall SpeedInRange cars →
  Forall SpeedInRange
    (simulateTraffic hypot atan2 cos sin PI rd draws clock cars streets
       locations lights dt smart).1.
Proof.
  intros Hdt Hin.
  destruct (simulateTraffic_pointwise rd draws clock cars streets locations
              lights dt smart) as [HF _].
  assert (Hcap : (0 <= Qmin dt 0.1)%Q) by (apply Q.min_glb; lra).
  apply Forall_forall. intros c' Hc'.
  apply list_elem_of_lookup in Hc' as [k Hk].
  destruct (Forall2_lookup_r _ _ _ _ _ HF Hk) as (c & Hc & rd0 & i & ->).
  apply updateCar_speed; [exact Hcap |].
  rewrite Forall_forall in Hin. apply Hin.
  by eapply list_elem_of_lookup_2.
Qed.

(** *** Cross traffic *)

(** X26. The cross traffic [findCrossTrafficCar] reports is another
    active car among the cars given, on another street, where both
    streets are known and both cars drive towards the same location, the
    car with at most a quarter of its street to go and the other with
    less than three tenths, and the two overlap (with the safety margin)
    according to [analyzeCarCollision]. *)
Theorem cross_traffic_is_at_the_same_intersection car allCars streets
    locations :
  match findCrossTrafficCar hypot atan2 cos sin PI car allCars streets
          locations with
  | None => True
  | Some ct =>
      let other := ct_car ct in
      other ∈ allCars
      ∧ car_id other ≠ car_id car
      ∧ reachedDestination other = false
      ∧ currentStreetId other ≠ currentStreetId car
      ∧ (∃ street otherStreet,
           findStreet (currentStreetId car) streets = Some street
           ∧ findStreet (currentStreetId other) streets = Some otherStreet
           ∧ match direction other with
             | forward => to otherStreet
             | backward => from otherStreet
             end
             = match direction car with
               | forward => to street
               | backward => from street
               end)
      ∧ (distanceToEnd car <= 0.25)%Q
      ∧ (distanceToEnd other < 0.3)%Q
      ∧ ct_analysis ct
        = analyzeCarCollision hypot atan2 cos sin PI car other streets
            locations
      ∧ isColliding (ct_analysis ct) = true
  end.
Proof.
  unfold findCrossTrafficCar.
  destruct (findStreet (currentStreetId car) streets) as [street |] eqn:Es;
    [| done].
  destruct (JS.gtb (distanceToEnd car) 0.25) eqn:Ed; [done |].
  apply JSFacts.gtb_le in Ed. cbv zeta.
  set (loc := match direction car with
              | forward => to street
              | backward => from street
              end).
  match goal with
  | |- match (foldl ?f _ _).1 with _ => _ end => set (step := f)
  end.
  set (Good := λ acc : option CrossTraffic * Q,
         match acc.1 return Prop with
         | None => True
         | Some ct =>
             ct_car ct ∈ allCars
             ∧ car_id (ct_car ct) ≠ car_id car
             ∧ reachedDestination (ct_car ct) = false
             ∧ currentStreetId (ct_car ct) ≠ currentStreetId car
             ∧ (∃ street0 otherStreet,
                  Some street = Some street0
                  ∧ findStreet (currentStreetId (ct_car ct)) streets
                    = Some otherStreet
                  ∧ match direction (ct_car ct) with
                    | forward => to otherStreet
                    | backward => from otherStreet
                    end
                    = match direction car with
                      | forward => to street0
                      | backward => from street0
                      end)
             ∧ (distanceToEnd car <= 0.25)%Q
             ∧ (distanceToEnd (ct_car ct) < 0.3)%Q
             ∧ ct_analysis ct
               = analyzeCarCollision hypot atan2 cos sin PI car (ct_car ct)
                   streets locations
             ∧ isColliding (ct_analysis ct) = true
         end).
  assert (Hstep : ∀ acc otherCar,
            Good acc → otherCar ∈ allCars → Good (step acc otherCar)).
  { intros [o p] otherCar HG Hin. unfold step.
    destruct (bool_decide (car_id otherCar = car_id car)
              || reachedDestination otherCar) eqn:E1; [exact HG |].
    apply orb_false_elim in E1 as [E1 E1'].
    apply bool_decide_eq_false in E1.
    destruct (findStreet (currentStreetId otherCar) streets)
      as [otherStreet |] eqn:E2; [| exact HG].
    destruct (negb _ || bool_decide (currentStreetId otherCar
                                     = currentStreetId car)) eqn:E3;
      [exact HG |].
    apply orb_false_elim in E3 as [_ E3].
    apply bool_decide_eq_false in E3.
    destruct (bool_decide (match direction otherCar with
                           | forward => to otherStreet
                           | backward => from otherStreet
                           end ≠ loc)) eqn:E4; [exact HG |].
    apply bool_decide_eq_false in E4.
    assert (E4' : match direction otherCar with
                  | forward => to otherStreet
                  | backward => from otherStreet
                  end = loc).
    { destruct (decide (match direction otherCar with
                        | forward => to otherStreet
                        | backward => from otherStreet
                        end = loc)); [done | by destruct E4]. }
    destruct (JS.ltb (distanceToEnd car) 0.3
              && JS.ltb (distanceToEnd otherCar) 0.3
              && isColliding (analyzeCarCollision hypot atan2 cos sin PI car
                                otherCar streets locations)) eqn:E5;
      [| exact HG].
    apply andb_prop in E5 as [E5 E5c]. apply andb_prop in E5 as [_ E5b].
    apply JSFacts.ltb_lt in E5b.
    destruct (JS.gtb _ p); [| exact HG].
    unfold Good. cbn [fst ct_car ct_analysis].
    split_and!; try done.
    exists street, otherStreet. by repeat split. }
  assert (Hfold : ∀ l acc, Good acc → (∀ x, x ∈ l → x ∈ allCars) →
                           Good (foldl step acc l)).
  { induction l as [| x l IH]; intros acc HG Hl; [exact HG |].
    simpl. apply IH.
    - apply Hstep; [exact HG | apply Hl, list_elem_of_here].
    - intros y Hy. apply Hl. by apply list_elem_of_further. }
  specialize (Hfold allCars (None, 0%Q) I (λ x H, H)).
  unfold Good in Hfold.
  destruct (foldl step (None, 0%Q) allCars).1 as [ct |]; [| done].
  destruct Hfold as (H1 & H2 & H3 & H4 & (s0 & os & Hs0 & Hos & Hloc) & H6
                     & H7 & H8 & H9).
  injection Hs0 as <-. cbv zeta.
  split_and!; try done. by exists street, os.
Qed.

(** *** Retiring a car *)

Lemma findStreet_elem id streets s :
  findStreet id streets = Some s → s ∈ streets ∧ street_id s = id.
Proof.
  unfold findStreet. intros H.
  assert (Hin : s ∈ filter (λ s, street_id s = id) streets).
  { destruct (filter _ streets) as [| x l]; [done |].
    injection H as ->. apply list_elem_of_here. }
  apply list_elem_of_filter in Hin. tauto.
Qed.

Lemma arriveAt_retires rd draws now car u next streets locations :
  isDraw (drawParking draws) →
  reachedDestination u = false →
  is_Some (findLocation next locations) →
  connectedTo next streets ≠ [] →
  reachedDestination
    (arriveAt atan2 PI rd draws now car u next streets locations).1 = true →
  length (connectedTo next streets) = 1
  ∧ otherParkingLots next streets locations = [].
Proof.
  intros Hr Hu [l Hl] Hne. unfold arriveAt. rewrite Hl.
  destruct (connectedTo next streets) as [| s1 [| s2 rest]] eqn:Hc; [done | |].
  - fold (otherParkingLots next streets locations).
    destruct (otherParkingLots next streets locations) as [| p ps] eqn:Ep;
      [done |].
    assert (Hlt : randomIndex (drawParking draws) (length (p :: ps))
                  < length (p :: ps))
      by (apply CarProperties.randomIndex_lt; [done | simpl; lia]).
    destruct (lookup_lt_is_Some_2 _ _ Hlt) as [d Hd]. rewrite Hd.
    simpl. done.
  - case_bool_decide;
      destruct (findBestNextStreet _ _ _ _ _ _ _ _ _ _) as [[d |] rd'];
      simpl; try done; try (destruct (direction u); done).
    all: rewrite Hu; done.
Qed.

(** X16. [updateCar] retires an active car on a known street between
    known locations only if the location the car drives towards has a
    single street (a parking lot) and there is no other parking lot to
    send the car to. *)
Theorem retired_only_at_last_parking_lot rd draws now car streets locations
    lights dt allCars street :
  isDraw (drawParking draws) →
  reachedDestination car = false →
  findStreet (currentStreetId car) streets = Some street →
  is_Some (findLocation (from street) locations) →
  is_Some (findLocation (to street) locations) →
  reachedDestination
    (updateCar hypot atan2 cos sin PI rd draws now car streets locations
       lights dt allCars).1 = true →
  let next := match direction car with
              | forward => to street
              | backward => from street
              end in
  length (connectedTo next streets) = 1
  ∧ otherParkingLots next streets locations = [].
Proof.
  intros Hr Hact Hs [lf Hf] [lt Ht]. unfold updateCar.
  rewrite Hact, Hs, Hf, Ht. cbv zeta.
  set (drive := assess _ _ _ _ _ _ _ _ _ _ _ _ _ _).
  pose proof (CarProperties.advance_fields now car drive dt)
    as (_ & Hdir & _ & Hrd & _).
  set (u := advance now car drive dt) in *.
  destruct (leavesStreet u drive); [| simpl; congruence].
  rewrite Hdir. intros Hret.
  set (next := match direction car with
               | forward => to street
               | backward => from street
               end) in *.
  apply findStreet_elem in Hs as [Hin _].
  eapply arriveAt_retires;
    [exact Hr | rewrite Hrd; exact Hact | | | exact Hret].
  - subst next. destruct (direction car); by eexists.
  - intros E.
    assert (Hc : street ∈ connectedTo next streets).
    { apply list_elem_of_filter. split; [| exact Hin].
      subst next. destruct (direction car); tauto. }
    rewrite E in Hc. by apply elem_of_nil in Hc.
Qed.

End OneTick.

(** *** New destinations *)

Lemma pick_elem r (l : list Location) (fallback : string) :
  isDraw r → l ≠ [] →
  ∃ loc, loc ∈ l
         ∧ match l !! randomIndex r (length l) with
           | Some loc => loc_id loc
           | None => fallback
           end = loc_id loc.
Proof.
  intros Hr Hl.
  assert (Hlt : randomIndex r (length l) < length l).
  { apply CarProperties.randomIndex_lt; [done |]. destruct l; [done | simpl; lia]. }
  destruct (lookup_lt_is_Some_2 _ _ Hlt) as [loc Hloc]. rewrite Hloc.
  exists loc. split; [by eapply list_elem_of_lookup_2 | done].
Qed.

(** X17. [generateNewDestination] returns the id of a location other
    than the current one whenever the map has such a location, and
    then one with a street if there is one; it returns the current
    location only when the map has no other. *)
Theorem new_destination_is_elsewhere r1 r2 current locations streets :
  isDraw r1 → isDraw r2 →
  let destination :=
    generateNewDestination r1 r2 current locations streets in
  if decide (Exists (λ loc, loc_id loc ≠ current) locations)
  then destination ≠ current
       ∧ destination ∈ map loc_id locations
       ∧ (Exists (λ loc, loc_id loc ≠ current
                         ∧ connectedTo (loc_id loc) streets ≠ [])
            locations →
          connectedTo destination streets ≠ [])
  else destination = current.
Proof.
  intros Hr1 Hr2 destination. subst destination.
  unfold generateNewDestination. cbv zeta.
  set (reachable := filter (λ loc, loc_id loc ≠ current
                                   ∧ connectedTo (loc_id loc) streets ≠ [])
                      locations).
  set (others := filter (λ loc, loc_id loc ≠ current) locations).
  set (lots := filter (λ loc, length (connectedTo (loc_id loc) streets) = 1)
                 reachable).
  assert (Hreach : ∀ loc, loc ∈ reachable →
            loc ∈ locations ∧ loc_id loc ≠ current
            ∧ connectedTo (loc_id loc) streets ≠ []).
  { intros loc H. apply list_elem_of_filter in H. tauto. }
  assert (Hothers : ∀ loc, loc ∈ others →
            loc ∈ locations ∧ loc_id loc ≠ current).
  { intros loc H. apply list_elem_of_filter in H. tauto. }
  assert (Hlots : ∀ loc, loc ∈ lots → loc ∈ reachable).
  { intros loc H. apply list_elem_of_filter in H. tauto. }
  assert (Hid : ∀ loc, loc ∈ locations → loc_id loc ∈ map loc_id locations).
  { intros loc H. apply list_elem_of_fmap. by exists loc. }
  destruct (decide (Exists (λ loc, loc_id loc ≠ current) locations))
    as [Hex | Hnone].
  - destruct reachable as [| x xs] eqn:Er.
    + (* no location with a street: any other location *)
      assert (Hne : others ≠ []).
      { apply Exists_exists in Hex as (loc & Hin & Hloc). intros E.
        assert (H : loc ∈ others) by (apply list_elem_of_filter; by split).
        rewrite E in H. by apply elem_of_nil in H. }
      destruct others as [| o os] eqn:Eo; [done |].
      destruct (pick_elem r1 (o :: os) current Hr1 Hne) as (loc & Hin & ->).
      destruct (Hothers loc Hin) as [H1 H2].
      split; [exact H2 |]. split; [by apply Hid |].
      intros H. exfalso. apply Exists_exists in H as (l & Hl & Hl1 & Hl2).
      assert (Hin' : l ∈ reachable)
        by (apply list_elem_of_filter; by split).
      rewrite Er in Hin'. by apply elem_of_nil in Hin'.
    + rewrite <- Er in *.
      assert (Hne : reachable ≠ []) by (rewrite Er; done).
      assert (Hgoal : ∀ loc, loc ∈ reachable →
                loc_id loc ≠ current ∧ loc_id loc ∈ map loc_id locations
                ∧ (Exists (λ loc, loc_id loc ≠ current
                                  ∧ connectedTo (loc_id loc) streets ≠ [])
                     locations →
                   connectedTo (loc_id loc) streets ≠ [])).
      { intros loc Hin. destruct (Hreach loc Hin) as (H1 & H2 & H3).
        split; [exact H2 |]. split; [by apply Hid | done]. }
      rewrite Er. rewrite <- Er.
      destruct lots as [| p ps] eqn:El.
      * destruct (pick_elem r1 reachable current Hr1 Hne) as (loc & Hin & ->).
        by apply Hgoal.
      * rewrite <- El in *.
        destruct (JS.ltb r1 0.7).
        -- destruct (pick_elem r2 lots current Hr2) as (loc & Hin & ->);
             [rewrite El; done |].
           by apply Hgoal, Hlots.
        -- destruct (pick_elem r2 reachable current Hr2 Hne)
             as (loc & Hin & ->).
           by apply Hgoal.
  - assert (Ho : others = []).
    { destruct others as [| o os] eqn:Eo; [done |]. exfalso. apply Hnone.
      apply Exists_exists. exists o.
      destruct (Hothers o) as [H1 H2]; [apply list_elem_of_here | done]. }
    assert (Hr : reachable = []).
    { destruct reachable as [| x xs] eqn:Er; [done |]. exfalso. apply Hnone.
      apply Exists_exists. exists x.
      destruct (Hreach x) as (H1 & H2 & _); [apply list_elem_of_here | done]. }
    by rewrite Hr, Ho.
Qed.

(** X12 at the crossroads: a car without a group id arrives from the
    south. *)
Lemma fresh_route_goes_on_witness :
  let decision :=
    (findBestNextStreet axisAtan2 PIq ∅ 0.1%Q "X" "N" "street-s" crossStreets
       crossroads None).1 in
  isDraw 0.1
  ∧ (decision = None ↔ connectedTo "X" crossStreets = [])
  ∧ (2 ≤ length (connectedTo "X" crossStreets) →
     Exists (λ s, street_id s ≠ "street-s") (connectedTo "X" crossStreets) →
     ∃ d, decision = Some d
          ∧ rd_street d ∈ connectedTo "X" crossStreets
          ∧ street_id (rd_street d) ≠ "street-s"
          ∧ rd_direction d = leaving "X" (rd_street d)).
Proof.
  intros decision.
  assert (H1 : isDraw 0.1) by (split; lra).
  split; [exact H1 |].
  exact (fresh_route_goes_on axisAtan2 PIq ∅ 0.1%Q "X" "N" "street-s"
           crossStreets crossroads None H1 eq_refl).
Defined.

(** X15 on the main street: a cruising car and a standing car. *)
Lemma traffic_step_keeps_speeds_witness :
  (0 <= 0.1)%Q ∧ Forall SpeedInRange [cruiser; standing]
  ∧ Forall SpeedInRange
      (simulateTraffic axisHypot axisAtan2 axisCos axisSin PIq ∅
         (λ _, noDraws) (λ _, 1000%Z) [cruiser; standing] mainStreet
         twoTowns [] 0.1%Q false).1.
Proof.
  assert (H1 : (0 <= 0.1)%Q) by lra.
  assert (H2 : Forall SpeedInRange [cruiser; standing]).
  { repeat constructor; vm_compute; discriminate. }
  split; [exact H1 |]. split; [exact H2 |].
  exact (traffic_step_keeps_speeds axisHypot axisAtan2 axisCos axisSin PIq ∅
           (λ _, noDraws) (λ _, 1000%Z) [cruiser; standing] mainStreet
           twoTowns [] 0.1%Q false H1 H2).
Defined.

(** X16 on the block with a spur: the car reaches the only parking
    lot. *)
Lemma retired_only_at_last_parking_lot_witness :
  isDraw (drawParking noDraws)
  ∧ reachedDestination lastCar = false
  ∧ findStreet (currentStreetId lastCar) spurStreets
    = Some (mkStreet "street-p" "A" "P")
  ∧ reachedDestination
      (updateCar axisHypot axisAtan2 axisCos axisSin PIq ∅ noDraws 1000%Z
         lastCar spurStreets blockWithSpur [] 0.1%Q [lastCar]).1 = true
  ∧ length (connectedTo "P" spurStreets) = 1
  ∧ otherParkingLots "P" spurStreets blockWithSpur = [].
Proof.
  assert (H1 : isDraw (drawParking noDraws)) by (split; simpl; lra).
  assert (H2 : reachedDestination lastCar = false) by reflexivity.
  assert (H3 : findStreet (currentStreetId lastCar) spurStreets
               = Some (mkStreet "street-p" "A" "P"))
    by (vm_compute; reflexivity).
  assert (H4 : is_Some (findLocation (from (mkStreet "street-p" "A" "P"))
                          blockWithSpur))
    by (eexists; vm_compute; reflexivity).
  assert (H5 : is_Some (findLocation (to (mkStreet "street-p" "A" "P"))
                          blockWithSpur))
    by (eexists; vm_compute; reflexivity).
  assert (H6 : reachedDestination
                 (updateCar axisHypot axisAtan2 axisCos axisSin PIq ∅ noDraws
                    1000%Z lastCar spurStreets blockWithSpur [] 0.1%Q
                    [lastCar]).1 = true)
    by (vm_compute; reflexivity).
  split_and!; [exact H1 | exact H2 | exact H3 | exact H6 | |];
    apply (retired_only_at_last_parking_lot axisHypot axisAtan2 axisCos
             axisSin PIq ∅ noDraws 1000%Z lastCar spurStreets blockWithSpur []
             0.1%Q [lastCar] (mkStreet "street-p" "A" "P") H1 H2 H3 H4 H5 H6).
Defined.

(** X17 at the crossroads. *)
Lemma new_destination_is_elsewhere_witness :
  let destination :=
    generateNewDestination 0.1%Q 0.1%Q "X" crossroads crossStreets in
  isDraw 0.1
  ∧ if decide (Exists (λ loc, loc_id loc ≠ "X") crossroads)
    then destination ≠ "X"
         ∧ destination ∈ map loc_id crossroads
         ∧ (Exists (λ loc, loc_id loc ≠ "X"
                           ∧ connectedTo (loc_id loc) crossStreets ≠ [])
              crossroads →
            connectedTo destination crossStreets ≠ [])
    else destination = "X".
Proof.
  intros destination.
  assert (H1 : isDraw 0.1) by (split; lra).
  split; [exact H1 |].
  exact (new_destination_is_elsewhere 0.1%Q 0.1%Q "X" crossroads crossStreets
           H1 H1).
Defined.

End CarEngineFacts.

(** ** More properties of the tick driver *)

Module CanvasFacts.
Import TrafficLight CarManager Canvas CarNotions MoreCarNotions Scenarios
  MoreScenarios.

Section Cleaning.

Variables (hypot atan2 : Q → Q → Q) (cos sin : Q → Q) (PI : Q).

(** X18. After the car updater of a frame, the cars kept are cars that
    were there before, in their order; none of them is stuck (active,
    standing for more than 30 s), none is older than five minutes, and
    every one that has reached its destination is marked as counted. *)
Theorem frame_cleans_cars cl fr heap rd prevCars :
  let kept := (updateCars hypot atan2 cos sin PI cl fr heap rd prevCars).1 in
  map car_id kept `sublist_of` map car_id prevCars
  ∧ Forall (λ c, ¬ stuck c
                 ∧ (now fr - createdAt c <= 300000)%Z
                 ∧ (reachedDestination c = true → counted c = true))
      kept.
Proof.
  intros kept. subst kept. unfold updateCars.
  destruct prevCars as [| c0 cs] eqn:Eprev.
  { split; [done | constructor]. }
  rewrite <- Eprev. clear Eprev c0 cs.
  destruct (CarEngineFacts.simulateTraffic_pointwise hypot atan2 cos sin PI
                rd (carDraws fr) (carClock fr) prevCars (streets cl)
                (locations cl) (lightsSeenByCars cl heap) (deltaTime fr)
                (isSmartControl cl)) as [Hsame _].
  destruct (simulateTraffic _ _ _ _ _ _ _ _ _ _ _ _ _ _)
    as [updatedCars0 rd'].
  simpl in Hsame. cbv zeta. simpl.
  set (mark := λ car : Car, if reachedDestination car && negb (counted car)
                            then set_counted true car else car).
  set (updatedCars := map mark updatedCars0).
  set (stuckCars := filter _ updatedCars).
  assert (Hids : map car_id updatedCars = map car_id prevCars).
  { subst updatedCars. apply list_eq. intros k.
    rewrite !list_lookup_fmap.
    destruct (prevCars !! k) as [c |] eqn:Hc.
    - destruct (Forall2_lookup_l _ _ _ _ _ Hsame Hc)
        as (c' & -> & rd0 & i & ->).
      pose proof (CarEngineFacts.updateCar_sameCar hypot atan2 cos sin PI rd0
                    (carDraws fr i) (carClock fr i) c (streets cl)
                    (locations cl) (lightsSeenByCars cl heap)
                    (Qmin (deltaTime fr) 0.1) prevCars) as (Hid & _).
      set (c' := (updateCar _ _ _ _ _ _ _ _ _ _ _ _ _ _).1) in *.
      simpl. unfold mark. destruct (_ && _); simpl; by rewrite Hid.
    - apply lookup_ge_None in Hc.
      rewrite (lookup_ge_None_2 updatedCars0);
        [done | by rewrite <- (Forall2_length _ _ _ Hsame)]. }
  split.
  - rewrite <- Hids.
    apply fmap_sublist.
    etrans; [apply sublist_filter | apply sublist_filter].
  - apply Forall_forall. intros c Hc.
    apply list_elem_of_filter in Hc as [Hage Hc].
    apply list_elem_of_filter in Hc as [Hfree Hc].
    split; [| split; [exact Hage |]].
    + intros Hstuck. apply Hfree. apply Exists_exists. exists c.
      split; [| done]. subst stuckCars. apply list_elem_of_filter.
      split; [exact Hstuck | exact Hc].
    + subst updatedCars. apply list_elem_of_fmap in Hc as (c1 & -> & _).
      unfold mark. destruct (reachedDestination c1) eqn:E1; simpl.
      * destruct (counted c1) eqn:E2; simpl; [by rewrite E2 | done].
      * by rewrite E1.
Qed.

End Cleaning.

End CanvasFacts.

(** ** The cars a smart intersection takes into account *)

Module SmartTrafficFacts.
Import TrafficLight CarManager SmartTraffic SmartTrafficNotions Scenarios
  MoreScenarios.

(** The values kept by [omap] are those of the elements on which the
    function is defined. *)
Lemma omap_filter {A B C} (f : A → option B) (P : A → Prop)
    `{∀ x, Decision (P x)} (g : B → C) (h : A → C) (l : list A) :
  (∀ x, is_Some (f x) ↔ P x) →
  (∀ x y, f x = Some y → g y = h x) →
  map g (omap f l) = map h (filter P l).
Proof.
  intros HP Hg. induction l as [| x l IH]; [done |].
  rewrite filter_cons.
  change (omap f (x :: l))
    with (match f x with
          | Some y => y :: omap f l
          | None => omap f l
          end).
  destruct (f x) as [y |] eqn:E.
  - rewrite decide_True by (apply HP; by eexists).
    change (g y :: map g (omap f l) = h x :: map h (filter P l)).
    by rewrite (Hg x y E), IH.
  - rewrite decide_False; [exact IH |].
    intros HPx. apply HP in HPx as [y Hy]. congruence.
Qed.

Section Collecting.

Variable hypot : Q → Q → Q.

Lemma approach_found car streets locations approach :
  isCarApproachingIntersection hypot car streets locations = Some approach →
  ∃ street,
    findStreet (currentStreetId car) streets = Some street
    ∧ is_Some (findLocation (from street) locations)
    ∧ is_Some (findLocation (to street) locations)
    ∧ approach_locationId approach
      = match direction car with
        | forward => to street
        | backward => from street
        end
    ∧ distanceToIntersection approach = distanceToEnd car
    ∧ approaching approach = JS.ltb (distanceToEnd car) 0.9.
Proof.
  unfold isCarApproachingIntersection.
  destruct (findStreet _ _) as [street |]; [| done]. simpl.
  destruct (findLocation (match direction car with
                          | forward => to street
                          | backward => from street
                          end) locations) as [a |] eqn:Ea; [| done]. simpl.
  destruct (findLocation (match direction car with
                          | forward => from street
                          | backward => to street
                          end) locations) as [o |] eqn:Eo; [| done]. simpl.
  intros [= <-]. exists street. simpl.
  split; [done |].
  destruct (direction car); rewrite Ea, Eo; by repeat split.
Qed.

Lemma approach_known car streets locations street :
  findStreet (currentStreetId car) streets = Some street →
  is_Some (findLocation (from street) locations) →
  is_Some (findLocation (to street) locations) →
  is_Some (isCarApproachingIntersection hypot car streets locations).
Proof.
  intros Hs [f Hf] [t Ht]. unfold isCarApproachingIntersection.
  rewrite Hs. simpl. destruct (direction car); rewrite ?Hf, ?Ht; simpl;
    rewrite ?Hf, ?Ht; simpl; by eexists.
Qed.

(** The arrival time of a car that approaches is a number. *)
Lemma arrival_time_is_finite car streets locations approach slowingCars :
  isCarApproachingIntersection hypot car streets locations = Some approach →
  is_Some (calculateEnhancedEstimatedArrivalTime hypot car approach streets
             locations slowingCars).
Proof.
  intros H. apply approach_found in H as (street & Hs & [f Hf] & [t Ht] & _).
  unfold calculateEnhancedEstimatedArrivalTime.
  destruct (JS.leb _ 0); [by eexists |].
  rewrite Hs, Hf, Ht. cbv zeta.
  destruct (map _ slowingCars) as [| first others]; [by eexists |].
  destruct (JS.ltb _ _); by eexists.
Qed.

Lemma approachingCarData_spec loc cars streets locations lights car :
  is_Some (approachingCarData hypot loc cars streets locations
             (map streetId lights) car)
  ↔ Approaches loc streets locations lights car.
Proof.
  unfold approachingCarData, Approaches. split.
  - intros [r Hr].
    destruct (reachedDestination car); [done |].
    destruct (bool_decide (currentStreetId car ∈ map streetId lights)) eqn:Ein;
      [| done].
    apply bool_decide_eq_true in Ein. simpl in Hr.
    destruct (isCarApproachingIntersection hypot car streets locations)
      as [approach |] eqn:Ea; [| done].
    destruct (approach_found _ _ _ _ Ea)
      as (street & Hs & Hf & Ht & Hloc & Hd & Happ).
    destruct (approaching approach) eqn:E1; [| done].
    destruct (bool_decide (approach_locationId approach = loc)) eqn:E2;
      [| done].
    apply bool_decide_eq_true in E2.
    split; [done |]. split; [exact Ein |]. exists street.
    split_and!; [done | done | done | congruence |].
    symmetry in Happ. by apply JSFacts.ltb_lt in Happ.
  - intros (Hact & Hin & street & Hs & Hf & Ht & Hloc & Hd).
    rewrite Hact. rewrite bool_decide_eq_true_2 by done. simpl.
    destruct (approach_known car streets locations street Hs Hf Ht)
      as [approach Ea].
    rewrite Ea.
    destruct (approach_found _ _ _ _ Ea)
      as (street' & Hs' & _ & _ & Hloc' & Hd' & Happ).
    assert (street' = street) by congruence. subst street'.
    apply JSFacts.ltb_lt in Hd. rewrite Happ, Hd.
    rewrite bool_decide_eq_true_2 by congruence. simpl.
    rewrite Hs.
    destruct (arrival_time_is_finite car streets locations approach
                (findSlowingCars car cars) Ea) as [t Ht'].
    rewrite Ht'. simpl. by eexists.
Qed.

Lemma approachingCarData_fields loc cars streets locations ids car r :
  approachingCarData hypot loc cars streets locations ids car = Some r →
  carId r = car_id car ∧ car_streetId r = currentStreetId car
  ∧ car_speed r = speed car ∧ currentStreetId car ∈ ids.
Proof.
  unfold approachingCarData.
  destruct (reachedDestination car); [done |].
  destruct (bool_decide (currentStreetId car ∈ ids)) eqn:Ein; [| done].
  apply bool_decide_eq_true in Ein. simpl.
  destruct (isCarApproachingIntersection _ _ _ _) as [approach |]; [| done].
  destruct (_ || _); [done |].
  destruct (findStreet _ _); [| done].
  destruct (calculateEnhancedEstimatedArrivalTime _ _ _ _ _ _); [| done].
  simpl. intros [= <-]. by repeat split.
Qed.

(** X19. [collectApproachingCarsData] records, in the order of the cars,
    exactly the active cars on a street with a light of the intersection
    that drive towards the intersection and have less than nine tenths
    of the street to go (the street and its two ends being known); each
    record carries the id, the street and the speed of its car. *)
Theorem collected_cars_are_the_approaching loc cars streets locations lights :
  map (λ r, (carId r, car_streetId r, car_speed r))
    (collectApproachingCarsData hypot loc cars streets locations lights)
  = map (λ car, (car_id car, currentStreetId car, speed car))
      (filter (Approaches loc streets locations lights) cars).
Proof.
  unfold collectApproachingCarsData. cbv zeta.
  apply omap_filter.
  - intros car. apply approachingCarData_spec.
  - intros car r Hr.
    apply approachingCarData_fields in Hr as (-> & -> & -> & _). done.
Qed.

(** *** Arrival times *)

Lemma minimum_bounds first others low :
  (low <= first)%Q → Forall (λ v, (low <= v)%Q) others →
  (low <= minimum first others)%Q.
Proof.
  unfold minimum. revert first.
  induction others as [| v vs IH]; intros first Hf Hall; simpl; [done |].
  apply Forall_cons in Hall as [Hv Hall].
  apply IH; [by apply Q.min_glb | done].
Qed.

Lemma estimate_nonneg car approach streets locations slowingCars t :
  (∀ x y, (0 <= hypot x y)%Q) →
  calculateEnhancedEstimatedArrivalTime hypot car approach streets locations
    slowingCars = Some t →
  (0 <= t)%Q.
Proof.
  intros Hhyp. unfold calculateEnhancedEstimatedArrivalTime.
  destruct (JS.leb (distanceToIntersection approach) 0) eqn:Ed.
  { intros [= <-]. lra. }
  apply JSFacts.leb_gt in Ed.
  destruct (findStreet _ _) as [street |]; [| done].
  destruct (findLocation (from street) locations) as [f |]; [| done].
  destruct (findLocation (to street) locations) as [l |]; [| done].
  cbv zeta.
  set (len := hypot _ _). pose proof (Hhyp (loc_x l - loc_x f)%Q
                                        (loc_y l - loc_y f)%Q) as Hlen.
  fold len in Hlen.
  assert (Hpx : (0 <= distanceToIntersection approach * len)%Q) by nra.
  pose proof (Q.le_max_r (speed car) 0.1) as He.
  assert (Hbase : (0 <= distanceToIntersection approach * len
                        / (Qmax (speed car) 0.1 * 20))%Q).
  { apply Qle_shift_div_l; lra. }
  destruct (map _ slowingCars) as [| first others]; [by intros [= <-] |].
  destruct (JS.ltb _ _); [| by intros [= <-]].
  intros [= <-].
  pose proof (Q.le_max_r (minimum first others) 0.05) as Hd.
  assert (Hdelayed : (0 <= distanceToIntersection approach * len
                           / (Qmax (minimum first others) 0.05 * 20))%Q).
  { apply Qle_shift_div_l; lra. }
  assert (Hn : (0 <= inject_Z (Z.of_nat (length slowingCars)))%Q).
  { change 0%Q with (inject_Z 0). rewrite <- Zle_Qle. lia. }
  lra.
Qed.

(** X20. When [Math.hypot] is not negative, no arrival time
    [collectApproachingCarsData] records is negative. *)
Theorem arrival_times_are_not_negative loc cars streets locations lights :
  (∀ x y, (0 <= hypot x y)%Q) →
  Forall (λ r, (0 <= estimatedArrivalTime r)%Q)
    (collectApproachingCarsData hypot loc cars streets locations lights).
Proof.
  intros Hhyp. unfold collectApproachingCarsData. cbv zeta.
  apply Forall_forall. intros r Hr.
  apply list_elem_of_omap in Hr as (car & _ & Hr).
  unfold approachingCarData in Hr.
  destruct (reachedDestination car); [done |].
  destruct (negb _); [done |].
  destruct (isCarApproachingIntersection _ _ _ _) as [approach |]; [| done].
  destruct (_ || _); [done |].
  destruct (findStreet _ _); [| done].
  destruct (calculateEnhancedEstimatedArrivalTime _ _ _ _ _ _) as [t |] eqn:Et;
    [| done].
  apply (estimate_nonneg _ _ _ _ _ _ Hhyp) in Et.
  simpl in Hr. injection Hr as <-. simpl.
  destruct (JS.ltb (speed car) 0.1), (bool_decide _); lra.
Qed.

(** X21. When [Math.hypot] is not negative, slower cars ahead never
    shorten the estimated arrival time: the estimate with cars ahead is
    at least the estimate without them. *)
Theorem slow_traffic_never_shortens_the_estimate car approach streets
    locations slowingCars :
  (∀ x y, (0 <= hypot x y)%Q) →
  match calculateEnhancedEstimatedArrivalTime hypot car approach streets
          locations slowingCars,
        calculateEnhancedEstimatedArrivalTime hypot car approach streets
          locations [] with
  | Some delayed, Some free => (free <= delayed)%Q
  | None, None => True
  | _, _ => False
  end.
Proof.
  intros Hhyp. unfold calculateEnhancedEstimatedArrivalTime.
  destruct (JS.leb (distanceToIntersection approach) 0) eqn:Ed; [lra |].
  apply JSFacts.leb_gt in Ed.
  destruct (findStreet _ _) as [street |]; [| done].
  destruct (findLocation (from street) locations) as [f |]; [| done].
  destruct (findLocation (to street) locations) as [l |]; [| done].
  cbv zeta.
  set (len := hypot _ _).
  pose proof (Hhyp (loc_x l - loc_x f)%Q (loc_y l - loc_y f)%Q) as Hlen.
  fold len in Hlen.
  set (px := (distanceToIntersection approach * len)%Q).
  assert (Hpx : (0 <= px)%Q) by (subst px; nra).
  set (e := Qmax (speed car) 0.1).
  assert (He : (0.1 <= e)%Q) by apply Q.le_max_r.
  change (map (λ c : Car, Qmax (speed c) 0.05) []) with (@nil Q).
  cbv iota.
  destruct (map _ slowingCars) as [| first others]; [lra |].
  destruct (JS.ltb (minimum first others) e) eqn:Es; [| lra].
  apply JSFacts.ltb_lt in Es.
  set (d := Qmax (minimum first others) 0.05).
  assert (Hd0 : (0.05 <= d)%Q) by apply Q.le_max_r.
  assert (Hd1 : (d <= e)%Q) by (apply Q.max_lub; lra).
  assert (Hn : (0 <= inject_Z (Z.of_nat (length slowingCars)))%Q).
  { change 0%Q with (inject_Z 0). rewrite <- Zle_Qle. lia. }
  set (q := (px / (e * 20))%Q).
  assert (Hq0 : (0 <= q)%Q) by (subst q; apply Qle_shift_div_l; lra).
  assert (Hq : (q * (e * 20) == px)%Q).
  { subst q. rewrite Qmult_comm. apply Qmult_div_r. lra. }
  assert (Hle : (q <= px / (d * 20))%Q).
  { apply Qle_shift_div_l; [lra |]. nra. }
  lra.
Qed.

(** *** Stopping at a light *)


End Collecting.

Lemma axisHypot_nonneg x y : (0 <= axisHypot x y)%Q.
Proof.
  unfold axisHypot.
  pose proof (Qabs_nonneg x). pose proof (Qabs_nonneg y). lra.
Qed.

(** X20 at the crossroads. *)
Lemma arrival_times_are_not_negative_witness :
  Forall (λ r, (0 <= estimatedArrivalTime r)%Q)
    (collectApproachingCarsData axisHypot "X" crossCars crossStreets
       crossroads crossroadsLights).
Proof.
  exact (arrival_times_are_not_negative axisHypot "X" crossCars crossStreets
           crossroads crossroadsLights axisHypot_nonneg).
Defined.

(** X21 for the car that comes from the south behind a standing car. *)
Lemma slow_traffic_never_shortens_the_estimate_witness :
  let car := carAt "car-1" "street-s" forward 0.5%Q 1%Q false in
  let approach := mkApproach true false 0.5%Q 50%Q "X" in
  match calculateEnhancedEstimatedArrivalTime axisHypot car approach
          crossStreets crossroads (findSlowingCars car crossCars),
        calculateEnhancedEstimatedArrivalTime axisHypot car approach
          crossStreets crossroads [] with
  | Some delayed, Some free => (free <= delayed)%Q
  | None, None => True
  | _, _ => False
  end.
Proof.
  intros car approach.
  exact (slow_traffic_never_shortens_the_estimate axisHypot car approach
           crossStreets crossroads (findSlowingCars car crossCars)
           axisHypot_nonneg).
Defined.

End SmartTrafficFacts.

(** ** Properties of the helpers of the editor *)

Module HelpersFacts.
Import CarManager CarNotions Helpers HelperNotions.

(** *** Unique names *)

Lemma numberedName_inj baseName : Inj (=) (=) (numberedName baseName).
Proof.
  intros j k H. unfold numberedName in H.
  apply String.app_inj in H. apply String.app_inj in H.
  by apply pretty_nat_inj in H.
Qed.

(** Names that are all in use: there are no more of them than names in
    use. *)
Lemma names_in_use baseName (existingNames : list string) n :
  (∀ j, 1 ≤ j ≤ n → numberedName baseName j ∈ existingNames) →
  n ≤ length existingNames.
Proof.
  intros Hall.
  set (tried := map (numberedName baseName) (seq 1 n)).
  assert (Hnd : NoDup tried).
  { pose proof (numberedName_inj baseName) as Hinj.
    apply (NoDup_fmap_2 _), NoDup_seq. }
  assert (Hsub : tried ⊆+ existingNames).
  { apply NoDup_submseteq; [exact Hnd |].
    intros x Hx. apply list_elem_of_fmap in Hx as (j & -> & Hj).
    apply elem_of_seq in Hj. apply Hall. lia. }
  apply submseteq_length in Hsub.
  subst tried. by rewrite length_map, length_seq in Hsub.
Qed.

Lemma generateUniqueNameFrom_spec fuel baseName existingNames counter :
  1 ≤ counter →
  (∀ j, 1 ≤ j < counter → numberedName baseName j ∈ existingNames) →
  length existingNames < fuel + (counter - 1) →
  ∃ k, generateUniqueNameFrom fuel baseName existingNames counter
       = Some (numberedName baseName k)
       ∧ counter ≤ k
       ∧ (numberedName baseName k ∉ existingNames)
       ∧ ∀ j, 1 ≤ j < k → numberedName baseName j ∈ existingNames.
Proof.
  revert counter. induction fuel as [| fuel IH]; intros counter Hc Hused Hlen.
  - exfalso.
    pose proof (names_in_use baseName existingNames (counter - 1)) as H.
    assert (counter - 1 ≤ length existingNames); [| lia].
    apply H. intros j Hj. apply Hused. lia.
  - simpl. case_bool_decide as Hin.
    + destruct (IH (S counter)) as (k & Hk & Hle & Hfresh & Hbelow).
      * lia.
      * intros j Hj. destruct (decide (j = counter)) as [-> | Hne];
          [exact Hin | apply Hused; lia].
      * lia.
      * exists k. split; [exact Hk |]. split; [lia |]. by split.
    + exists counter. by repeat split.
Qed.

(** X23. [generateUniqueName] comes to an end after trying at most one
    name more than there are existing names, and returns the name
    [baseName k] with the least [k] from 1 on that is not among the
    existing names. *)
Theorem unique_name_is_fresh fuel baseName existingNames :
  length existingNames < fuel →
  ∃ k, generateUniqueName fuel baseName existingNames
       = Some (numberedName baseName k)
       ∧ 1 ≤ k ≤ length existingNames + 1
       ∧ (numberedName baseName k ∉ existingNames)
       ∧ ∀ j, 1 ≤ j < k → numberedName baseName j ∈ existingNames.
Proof.
  intros Hfuel. unfold generateUniqueName.
  destruct (generateUniqueNameFrom_spec fuel baseName existingNames 1)
    as (k & Hk & Hle & Hfresh & Hbelow); [lia | intros j Hj; lia | lia |].
  exists k. split; [exact Hk |]. split; [| by split].
  split; [lia |].
  pose proof (names_in_use baseName existingNames (k - 1)) as H.
  assert (k - 1 ≤ length existingNames); [| lia].
  apply H. intros j Hj. apply Hbelow. lia.
Qed.

(** *** Location labels *)

(** X24. With a draw in [0, 1), [generateUniqueLocationLabel] returns
    one of the 260 labels A0 to Z9 that is not among the existing names,
    and returns null exactly when all 260 are among them. *)
Theorem location_label_is_fresh r existingNames :
  isDraw r →
  match generateUniqueLocationLabel r existingNames with
  | Some label => label ∈ allCombinations ∧ label ∉ existingNames
  | None => ∀ label, label ∈ allCombinations → label ∈ existingNames
  end.
Proof.
  intros Hr. unfold generateUniqueLocationLabel. cbv zeta.
  set (available := filter (λ label, label ∉ existingNames) allCombinations).
  destruct available as [| a rest] eqn:Ea.
  - intros label Hl. destruct (decide (label ∈ existingNames)) as [H | H];
      [exact H |].
    assert (Hin : label ∈ available)
      by (apply list_elem_of_filter; by split).
    rewrite Ea in Hin. by apply elem_of_nil in Hin.
  - rewrite <- Ea.
    assert (Hlt : randomIndex r (length available) < length available).
    { apply CarProperties.randomIndex_lt; [exact Hr |].
      rewrite Ea. simpl. lia. }
    destruct (lookup_lt_is_Some_2 _ _ Hlt) as [label Hl]. rewrite Hl.
    apply list_elem_of_lookup_2 in Hl.
    apply list_elem_of_filter in Hl. tauto.
Qed.

(** *** Crossing segments *)

Lemma between_min_max a b x :
  (Qmin a b <= x)%Q → (x <= Qmax a b)%Q →
  (a <= x <= b)%Q ∨ (b <= x <= a)%Q.
Proof.
  intros H1 H2.
  destruct (Qlt_le_dec b a) as [Hlt | Hle].
  - right. rewrite Q.min_r in H1 by lra. rewrite Q.max_l in H2 by lra. lra.
  - left. rewrite Q.min_l in H1 by lra. rewrite Q.max_r in H2 by lra. lra.
Qed.

(** A point on the line through [a] and [b], between them on both
    axes, is on the segment. *)
Lemma onSegment_intro (p a b : Point) :
  ((pt_y b - pt_y a) * pt_x p + (pt_x a - pt_x b) * pt_y p
   == (pt_y b - pt_y a) * pt_x a + (pt_x a - pt_x b) * pt_y a)%Q →
  (Qmin (pt_x a) (pt_x b) <= pt_x p)%Q → (pt_x p <= Qmax (pt_x a) (pt_x b))%Q →
  (Qmin (pt_y a) (pt_y b) <= pt_y p)%Q → (pt_y p <= Qmax (pt_y a) (pt_y b))%Q →
  ¬ (pt_x a == pt_x b ∧ pt_y a == pt_y b)%Q →
  onSegment p a b.
Proof.
  intros Hline Hx1 Hx2 Hy1 Hy2 Hne.
  pose proof (between_min_max _ _ _ Hx1 Hx2) as Hx.
  pose proof (between_min_max _ _ _ Hy1 Hy2) as Hy.
  destruct a as [ax ay], b as [bx by_], p as [x y].
  unfold onSegment. cbn [pt_x pt_y] in *.
  destruct (Qeq_dec ax bx) as [Ex | Ex].
  - (* a vertical segment: the parameter is read off the ordinates *)
    assert (Ey : ¬ (ay == by_)%Q) by tauto.
    exists ((y - ay) / (by_ - ay))%Q.
    assert (Hd : ¬ (by_ - ay == 0)%Q) by lra.
    assert (Hxe : (x == ax)%Q) by lra.
    split_and!.
    + destruct (Qlt_le_dec ay by_).
      * apply Qle_shift_div_l; lra.
      * assert ((y - ay) / (by_ - ay) == (ay - y) / (ay - by_))%Q
          by (field; lra).
        rewrite H. apply Qle_shift_div_l; lra.
    + destruct (Qlt_le_dec ay by_).
      * apply Qle_shift_div_r; lra.
      * assert ((y - ay) / (by_ - ay) == (ay - y) / (ay - by_))%Q
          by (field; lra).
        rewrite H. apply Qle_shift_div_r; lra.
    + rewrite Hxe. rewrite Ex. field. exact Hd.
    + field. exact Hd.
  - exists ((x - ax) / (bx - ax))%Q.
    assert (Hd : ¬ (bx - ax == 0)%Q) by lra.
    split_and!.
    + destruct (Qlt_le_dec ax bx).
      * apply Qle_shift_div_l; lra.
      * assert ((x - ax) / (bx - ax) == (ax - x) / (ax - bx))%Q
          by (field; lra).
        rewrite H. apply Qle_shift_div_l; lra.
    + destruct (Qlt_le_dec ax bx).
      * apply Qle_shift_div_r; lra.
      * assert ((x - ax) / (bx - ax) == (ax - x) / (ax - bx))%Q
          by (field; lra).
        rewrite H. apply Qle_shift_div_r; lra.
    + field. exact Hd.
    + (* the ordinate follows from the equation of the line *)
      assert (Hy' : ((ax - bx) * y
                     == (ax - bx) * ay - (by_ - ay) * (x - ax))%Q) by lra.
      assert (Hy'' : (y == ay + (by_ - ay) * (x - ax) / (bx - ax))%Q).
      { apply (Qmult_inj_l _ _ (ax - bx)); [lra |].
        rewrite Hy'. field. exact Hd. }
      rewrite Hy''. field. exact Hd.
Qed.


(** X23 for a third street. *)
Lemma unique_name_is_fresh_witness :
  length ["Street 1"; "Street 2"] < 3
  ∧ ∃ k, generateUniqueName 3 "Street" ["Street 1"; "Street 2"]
         = Some (numberedName "Street" k)
         ∧ 1 ≤ k ≤ length ["Street 1"; "Street 2"] + 1
         ∧ (numberedName "Street" k ∉ ["Street 1"; "Street 2"])
         ∧ ∀ j, 1 ≤ j < k →
                numberedName "Street" j ∈ ["Street 1"; "Street 2"].
Proof.
  assert (H1 : length ["Street 1"; "Street 2"] < 3) by (simpl; lia).
  split; [exact H1 |].
  exact (unique_name_is_fresh 3 "Street" ["Street 1"; "Street 2"] H1).
Defined.

(** X24 on a map with two locations. *)
Lemma location_label_is_fresh_witness :
  isDraw 0.5
  ∧ match generateUniqueLocationLabel 0.5%Q ["A0"; "B7"] with
    | Some label => label ∈ allCombinations ∧ label ∉ ["A0"; "B7"]
    | None => ∀ label, label ∈ allCombinations → label ∈ ["A0"; "B7"]
    end.
Proof.
  assert (H1 : isDraw 0.5) by (split; lra).
  split; [exact H1 |].
  exact (location_label_is_fresh 0.5%Q ["A0"; "B7"] H1).
Defined.

End HelpersFacts.

(** ** Geometry of the vehicle engine *)

Module GeometryFacts.
Import CarManager CarNotions Scenarios.

Section Angles.

Variable PI : Q.
Hypothesis PI_pos : (0 < PI)%Q.

Lemma ceiling_bounds x :
  (x <= inject_Z (Qceiling x))%Q ∧ (inject_Z (Qceiling x) < x + 1)%Q.
Proof.
  split; [apply Qle_ceiling |].
  pose proof (Qceiling_lt x) as H.
  unfold Z.sub in H. rewrite inject_Z_plus, inject_Z_opp in H.
  change (inject_Z 1) with 1%Q in H. lra.
Qed.

(** X27. For a positive [Math.PI], [normalizeAngle] brings every angle
    into the range from -PI to PI by adding a whole number of turns. *)
Theorem normalized_angle_is_in_range a :
  (- PI <= normalizeAngle PI a)%Q ∧ (normalizeAngle PI a <= PI)%Q
  ∧ ∃ turns : Z, (normalizeAngle PI a == a + 2 * PI * inject_Z turns)%Q.
Proof.
  unfold normalizeAngle. cbv zeta.
  destruct (JS.gtb a PI) eqn:E1.
  - apply JSFacts.gtb_gt in E1.
    set (k := Qceiling ((a - PI) / (2 * PI))).
    destruct (ceiling_bounds ((a - PI) / (2 * PI))) as [Hlo Hhi].
    fold k in Hlo, Hhi.
    assert (Hq : ((a - PI) / (2 * PI) * (2 * PI) == a - PI)%Q)
      by (field; lra).
    assert (H1 : (a - PI <= inject_Z k * (2 * PI))%Q) by nra.
    assert (H2 : (inject_Z k * (2 * PI) < a - PI + 2 * PI)%Q) by nra.
    assert (E2 : JS.ltb (a - 2 * PI * inject_Z k) (- PI) = false)
      by (apply JSFacts.ltb_ge; lra).
    rewrite E2. split; [lra |]. split; [lra |].
    exists (- k)%Z. rewrite inject_Z_opp. ring.
  - apply JSFacts.gtb_le in E1.
    destruct (JS.ltb a (- PI)) eqn:E2.
    + apply JSFacts.ltb_lt in E2.
      set (k := Qceiling ((- PI - a) / (2 * PI))).
      destruct (ceiling_bounds ((- PI - a) / (2 * PI))) as [Hlo Hhi].
      fold k in Hlo, Hhi.
      assert (Hq : ((- PI - a) / (2 * PI) * (2 * PI) == - PI - a)%Q)
        by (field; lra).
      assert (H1 : (- PI - a <= inject_Z k * (2 * PI))%Q) by nra.
      assert (H2 : (inject_Z k * (2 * PI) < - PI - a + 2 * PI)%Q) by nra.
      split; [lra |]. split; [lra |]. exists k. ring.
    + apply JSFacts.ltb_ge in E2.
      split; [lra |]. split; [lra |]. exists 0%Z. ring.
Qed.

End Angles.

Section Boxes.

Variables (cos sin : Q → Q) (PI : Q).

Lemma min4_le a b c d :
  (min4 a b c d <= a)%Q ∧ (min4 a b c d <= b)%Q ∧ (min4 a b c d <= c)%Q
  ∧ (min4 a b c d <= d)%Q.
Proof.
  unfold min4.
  pose proof (Q.le_min_l (Qmin (Qmin a b) c) d).
  pose proof (Q.le_min_r (Qmin (Qmin a b) c) d).
  pose proof (Q.le_min_l (Qmin a b) c). pose proof (Q.le_min_r (Qmin a b) c).
  pose proof (Q.le_min_l a b). pose proof (Q.le_min_r a b).
  split_and!; lra.
Qed.

Lemma max4_ge a b c d :
  (a <= max4 a b c d)%Q ∧ (b <= max4 a b c d)%Q ∧ (c <= max4 a b c d)%Q
  ∧ (d <= max4 a b c d)%Q.
Proof.
  unfold max4.
  pose proof (Q.le_max_l (Qmax (Qmax a b) c) d).
  pose proof (Q.le_max_r (Qmax (Qmax a b) c) d).
  pose proof (Q.le_max_l (Qmax a b) c). pose proof (Q.le_max_r (Qmax a b) c).
  pose proof (Q.le_max_l a b). pose proof (Q.le_max_r a b).
  split_and!; lra.
Qed.

(** The box of a car contains the position of the car. *)
Lemma bounds_contain_position position width height :
  let b := getCarBounds cos sin PI position width height in
  (minX b <= pos_x position)%Q ∧ (pos_x position <= maxX b)%Q
  ∧ (minY b <= pos_y position)%Q ∧ (pos_y position <= maxY b)%Q.
Proof.
  unfold getCarBounds. cbv zeta. cbn [minX maxX minY maxY].
  set (c := cos _). set (s := sin _).
  set (hw := (width / 2)%Q). set (hh := (height / 2)%Q).
  match goal with
  | |- (min4 ?x1 ?x2 ?x3 ?x4 <= _)%Q ∧ _ ∧ (min4 ?y1 ?y2 ?y3 ?y4 <= _)%Q ∧ _ =>
      destruct (min4_le x1 x2 x3 x4) as (A1 & _ & A3 & _);
      destruct (max4_ge x1 x2 x3 x4) as (B1 & _ & B3 & _);
      destruct (min4_le y1 y2 y3 y4) as (C1 & _ & C3 & _);
      destruct (max4_ge y1 y2 y3 y4) as (D1 & _ & D3 & _)
  end.
  split_and!.
  - destruct (Qlt_le_dec 0 (hw * c - hh * s)); lra.
  - destruct (Qlt_le_dec 0 (hw * c - hh * s)); lra.
  - destruct (Qlt_le_dec 0 (hw * s + hh * c)); lra.
  - destruct (Qlt_le_dec 0 (hw * s + hh * c)); lra.
Qed.

(** X28. The bounding boxes of two cars at the same point are found to
    collide, in either order, whatever the angles and the sizes of the
    cars and the values of [Math.cos] and [Math.sin], for every safety
    margin that is not negative. *)
Theorem boxes_at_one_point_collide position1 position2 width1 height1
    width2 height2 margin :
  (0 <= margin)%Q →
  (pos_x position1 == pos_x position2)%Q →
  (pos_y position1 == pos_y position2)%Q →
  let b1 := getCarBounds cos sin PI position1 width1 height1 in
  let b2 := getCarBounds cos sin PI position2 width2 height2 in
  checkBoundsCollision b1 b2 margin = true
  ∧ checkBoundsCollision b2 b1 margin = true.
Proof.
  intros Hm Hx Hy b1 b2.
  destruct (bounds_contain_position position1 width1 height1)
    as (A1 & A2 & A3 & A4).
  destruct (bounds_contain_position position2 width2 height2)
    as (B1 & B2 & B3 & B4).
  fold b1 in A1, A2, A3, A4. fold b2 in B1, B2, B3, B4.
  unfold checkBoundsCollision.
  assert (E1 : JS.ltb (maxX b1 + margin) (minX b2) = false)
    by (apply JSFacts.ltb_ge; lra).
  assert (E2 : JS.ltb (maxX b2 + margin) (minX b1) = false)
    by (apply JSFacts.ltb_ge; lra).
  assert (E3 : JS.ltb (maxY b1 + margin) (minY b2) = false)
    by (apply JSFacts.ltb_ge; lra).
  assert (E4 : JS.ltb (maxY b2 + margin) (minY b1) = false)
    by (apply JSFacts.ltb_ge; lra).
  by rewrite E1, E2, E3, E4.
Qed.

End Boxes.

Section Collisions.

Variables (hypot atan2 : Q → Q → Q) (cos sin : Q → Q) (PI : Q).

(** X29. Whether [analyzeCarCollision] finds two cars colliding does
    not depend on the order of the cars, and each car's "moving toward"
    flag is the other's when the cars are swapped. *)
Theorem collision_is_mutual car1 car2 streets locations :
  let forth :=
    analyzeCarCollision hypot atan2 cos sin PI car1 car2 streets locations in
  let back :=
    analyzeCarCollision hypot atan2 cos sin PI car2 car1 streets locations in
  isColliding forth = isColliding back
  ∧ car1MovingToward forth = car2MovingToward back
  ∧ car2MovingToward forth = car1MovingToward back.
Proof.
  unfold analyzeCarCollision.
  destruct (calculateCarPosition atan2 cos sin PI car1 streets locations)
    as [pos1 |];
    destruct (calculateCarPosition atan2 cos sin PI car2 streets locations)
      as [pos2 |]; cbv zeta; cbn [isColliding car1MovingToward
                                     car2MovingToward]; try done.
  split; [| done]. unfold checkBoundsCollision. f_equal.
  set (b1 := getCarBounds cos sin PI pos1 28 14).
  set (b2 := getCarBounds cos sin PI pos2 28 14).
  destruct (JS.ltb (maxX b1 + 5) (minX b2)), (JS.ltb (maxX b2 + 5) (minX b1)),
    (JS.ltb (maxY b1 + 5) (minY b2)), (JS.ltb (maxY b2 + 5) (minY b1)); done.
Qed.

End Collisions.

(** X27 with 3.14159 for pi. *)
Lemma normalized_angle_is_in_range_witness :
  (0 < PIq)%Q
  ∧ (- PIq <= normalizeAngle PIq 10)%Q ∧ (normalizeAngle PIq 10 <= PIq)%Q
  ∧ ∃ turns : Z, (normalizeAngle PIq 10 == 10 + 2 * PIq * inject_Z turns)%Q.
Proof.
  assert (H1 : (0 < PIq)%Q) by (unfold PIq; lra).
  split; [exact H1 |].
  exact (normalized_angle_is_in_range PIq H1 10).
Defined.

(** X28 for two cars at the origin that point in different directions. *)
Lemma boxes_at_one_point_collide_witness :
  let p1 := mkPosition 0 0 0 in
  let p2 := mkPosition 0 0 90 in
  (0 <= 5)%Q ∧ (pos_x p1 == pos_x p2)%Q ∧ (pos_y p1 == pos_y p2)%Q
  ∧ checkBoundsCollision (getCarBounds axisCos axisSin PIq p1 28 14)
      (getCarBounds axisCos axisSin PIq p2 28 14) 5 = true
  ∧ checkBoundsCollision (getCarBounds axisCos axisSin PIq p2 28 14)
      (getCarBounds axisCos axisSin PIq p1 28 14) 5 = true.
Proof.
  intros p1 p2.
  assert (H1 : (0 <= 5)%Q) by lra.
  assert (H2 : (pos_x p1 == pos_x p2)%Q) by reflexivity.
  assert (H3 : (pos_y p1 == pos_y p2)%Q) by reflexivity.
  split; [exact H1 |]. split; [exact H2 |]. split; [exact H3 |].
  exact (boxes_at_one_point_collide axisCos axisSin PIq p1 p2 28 14 28 14 5
           H1 H2 H3).
Defined.

End GeometryFacts.
